(** * Dashboard de Direcciones: the data-analysis contract of [app.py]

    A shallow embedding of the computations that [app.py] performs on the
    uploaded table, and the properties of them that the specification
    states.  Part I embeds the program, Part II holds the notions the
    properties are stated with and the frames of the examples, Part III the
    properties the specification states, and Part IV further properties of
    the page.

    Conventions of the embedding.

    - Text.  A Python [str] is a [string] whose characters are the code
      points U+0000..U+00FF (Basic Latin and Latin-1 Supplement): the
      character with code [n] stands for the code point [n].  On this range
      [str.lower], [str.split] and case-insensitive matching are total and
      are written out below.  Accented letters are written by their code,
      e.g. ["211"%char] is U+00D3 (capital O with acute).
    - Numbers.  Counts are Python [int]s, here [Z] (or [nat] for lengths).
      A float is a binary64 number, here the rational it is: each
      operation of [Float64] rounds the exact result to the nearest float,
      ties to even.  Infinities and [nan] do not arise and are left out.
    - Errors.  A computation that can raise returns an [outcome].
    - pandas.  The library calls are embedded with the meaning they have in
      pandas 1.x/2.x for a frame read from a spreadsheet: text columns have
      dtype [object], and a frame is the sequence of its columns, all of
      one length.  Labels are compared only, and are strings, except in
      [process_addresses], which calls a method of the label: there a
      label is a text or a number ([label]).  The export is the one of a
      POSIX system, where [os.linesep] is the line feed.
    - Streamlit and plotly.  Of the widgets the embedding keeps what they
      return and when they refuse their arguments: the slider of the row
      cap ([slider]) and the bar chart of the common words ([bar_chart]).
    - Regular expressions.  The search is embedded for every engine that
      compiles a pattern or raises ([regex_engine]); the engine written out
      in [Re] covers a fragment of the syntax. *)

From Stdlib Require Import Bool Arith ZArith QArith Qround Qabs Qpower.
From Stdlib Require Import Lia Lqa SpecFloat.
From Stdlib Require Import Ascii String DecimalString DecimalPos DecimalZ.
From Stdlib Require Import List Permutation Sorted.
Import ListNotations.

Local Open Scope list_scope.
Local Open Scope string_scope.

(* ================================================================= *)
(** * Part I: the embedding *)
(* ================================================================= *)

(** ** Python strings *)

Module Text.

Definition code (c : ascii) : N := N_of_ascii c.

(** The cased capitals of the range: A-Z, and U+00C0..U+00DE without
    the multiplication sign U+00D7. *)
Definition is_upper (c : ascii) : bool :=
  let n := code c in
  ((65 <=? n) && (n <=? 90)
   || (192 <=? n) && (n <=? 222) && negb (n =? 215))%N.

Definition lower_char (c : ascii) : ascii :=
  if is_upper c then ascii_of_N (code c + 32) else c.

(** [s.lower()] *)
Fixpoint lower (s : string) : string :=
  match s with
  | EmptyString => EmptyString
  | String c r => String (lower_char c) (lower r)
  end.

(** [sub in s] *)
Fixpoint contains (sub s : string) : bool :=
  prefix sub s
  || match s with
     | EmptyString => false
     | String _ r => contains sub r
     end.

(** The characters [str.split()] splits at: U+0009..U+000D,
    U+001C..U+0020, U+0085 and U+00A0. *)
Definition is_space (c : ascii) : bool :=
  let n := code c in
  ((9 <=? n) && (n <=? 13) || (28 <=? n) && (n <=? 32)
   || (n =? 133) || (n =? 160))%N.

(** [s.split()]: the maximal runs of non-space characters.  [cur] holds
    the run being read, reversed. *)
Fixpoint split_from (cur : list ascii) (s : string) : list string :=
  match s with
  | EmptyString =>
      match cur with
      | [] => []
      | _ => [string_of_list_ascii (rev cur)]
      end
  | String c r =>
      if is_space c then
        match cur with
        | [] => split_from [] r
        | _ => string_of_list_ascii (rev cur) :: split_from [] r
        end
      else split_from (c :: cur) r
  end.

Definition split (s : string) : list string := split_from [] s.

(** [sep.join(parts)] *)
Definition join (sep : string) (parts : list string) : string :=
  String.concat sep parts.

(** [str(z)] for an [int]: its decimal numeral. *)
Definition str_of_Z (z : Z) : string :=
  NilZero.string_of_int (Z.to_int z).

End Text.

(** ** Computations that can raise *)

Inductive exn : Type :=
| KeyError            (* a label that is not a column of the frame *)
| ReError             (* [re.error]: the pattern does not compile *)
| DivisionByZero      (* a zero divisor *)
| AttributeError      (* a method that the object does not have *)
| ValueError          (* [plotly]: nothing to plot *)
| StreamlitAPIException.  (* a widget with arguments it cannot take *)

(** [Unmodelled] marks the inputs the embedding does not cover: a search
    pattern outside the fragment of regular expressions of [Re] below, a
    position that the slider cannot be in. *)
Inductive outcome (A : Type) : Type :=
| Ok (a : A)
| Raises (e : exn)
| Unmodelled.

Arguments Ok {A} a.
Arguments Raises {A} e.
Arguments Unmodelled {A}.

Definition bind {A B : Type} (m : outcome A) (k : A -> outcome B)
  : outcome B :=
  match m with
  | Ok a => k a
  | Raises e => Raises e
  | Unmodelled => Unmodelled
  end.

Notation "x <- m ;; k" := (bind m (fun x => k))
  (at level 61, m at next level, right associativity).

(** ** Tables *)

(** A cell: the missing marker, a text or an integer. *)
Inductive scalar : Type :=
| NaN
| Str (s : string)
| Int (z : Z).

(** The column types the program tells apart: [object] (text, possibly
    mixed with other cells), and the two numeric ones.  A numeric column
    with a missing cell is [float64], and its integers then print with a
    trailing [.0]. *)
Inductive dtype : Type := Object | Int64 | Float64.

Record Series : Type := mkSeries { dtype_of : dtype; values : list scalar }.

(** A frame is the sequence of its labelled columns. *)
Definition DataFrame : Type := list (string * Series).

Definition scalar_eqb (a b : scalar) : bool :=
  match a, b with
  | NaN, NaN => true
  | Str s, Str t => String.eqb s t
  | Int x, Int y => Z.eqb x y
  | _, _ => false
  end.

Definition dtype_eqb (a b : dtype) : bool :=
  match a, b with
  | Object, Object | Int64, Int64 | Float64, Float64 => true
  | _, _ => false
  end.

(** [df.columns] *)
Definition columns (df : DataFrame) : list string := map fst df.

(** [len(df)]: the number of rows, which every column shares. *)
Definition len (df : DataFrame) : nat :=
  match df with
  | [] => 0
  | (_, s) :: _ => length (values s)
  end.

(** The invariant of a frame read from a spreadsheet: labels are distinct,
    columns have one length, and a numeric column holds integers of its
    type, 64-bit ones or those a float holds exactly (up to [2^53]), with
    missing cells in [float64] columns only. *)
Definition cell_fits (d : dtype) (v : scalar) : bool :=
  match d, v with
  | Object, _ => true
  | Int64, Int z => ((- 2 ^ 63 <=? z) && (z <? 2 ^ 63))%Z
  | Float64, Int z => (Z.abs z <=? 2 ^ 53)%Z
  | Float64, NaN => true
  | _, _ => false
  end.

Definition well_formed (df : DataFrame) : Prop :=
  NoDup (columns df)
  /\ Forall (fun c => length (values (snd c)) = len df) df
  /\ Forall (fun c => forallb (cell_fits (dtype_of (snd c))) (values (snd c))
                      = true) df.

(** [pd.isnull] on a cell, [s.dropna()], [s.isnull().sum()] *)
Definition isnull (v : scalar) : bool :=
  match v with NaN => true | _ => false end.

Definition dropna (vs : list scalar) : list scalar :=
  filter (fun v => negb (isnull v)) vs.

Definition null_count (vs : list scalar) : nat :=
  length (filter isnull vs).

(** [df[col]] for one label. *)
Fixpoint get_column (df : DataFrame) (col : string) : outcome Series :=
  match df with
  | [] => Raises KeyError
  | (name, s) :: rest =>
      if String.eqb name col then Ok s else get_column rest col
  end.

(** [df[cols]] for a list of labels: those columns, in the order asked. *)
Fixpoint select_columns (df : DataFrame) (cols : list string)
  : outcome DataFrame :=
  match cols with
  | [] => Ok []
  | c :: rest =>
      s <- get_column df c ;;
      more <- select_columns df rest ;;
      Ok ((c, s) :: more)
  end.

(** [df.select_dtypes(include=['object'])] *)
Definition select_dtypes_object (df : DataFrame) : DataFrame :=
  filter (fun c => dtype_eqb (dtype_of (snd c)) Object) df.

(** [x.head(n)] *)
Definition head {A : Type} (n : nat) (l : list A) : list A := firstn n l.

Definition head_rows (n : nat) (df : DataFrame) : DataFrame :=
  map (fun c => (fst c, mkSeries (dtype_of (snd c)) (head n (values (snd c)))))
      df.

(** [str(v)], as [s.astype(str)] applies it to the cells of a column of
    type [d]: the missing marker becomes the text [nan], and an integer of
    a [float64] column is a float and prints with a trailing [.0] (up to
    [2^53] all its digits are written out). *)
Definition astype_str (d : dtype) (v : scalar) : string :=
  match v with
  | NaN => "nan"
  | Str s => s
  | Int z =>
      match d with
      | Float64 => Text.str_of_Z z ++ ".0"
      | _ => Text.str_of_Z z
      end
  end.

(** ** Counting values *)

Section Counting.

Context {A : Type} (eqb : A -> A -> bool).

Definition count (x : A) (l : list A) : nat := length (filter (eqb x) l).

(** The distinct elements, in the order of their first occurrence. *)
Fixpoint unique (l : list A) : list A :=
  match l with
  | [] => []
  | x :: r => x :: filter (fun y => negb (eqb x y)) (unique r)
  end.

(** Stable sort by descending count. *)
Fixpoint insert_desc (x : A * nat) (l : list (A * nat)) : list (A * nat) :=
  match l with
  | [] => [x]
  | y :: r =>
      if (snd y <=? snd x)%nat then x :: l else y :: insert_desc x r
  end.

Definition sort_desc (l : list (A * nat)) : list (A * nat) :=
  fold_right insert_desc [] l.

(** [pd.Series(l).value_counts()] for a list without missing values:
    each distinct value with its number of occurrences, most frequent
    first.  Values with equal counts are left in the order of their first
    occurrence; no property below depends on that order. *)
Definition value_counts_of (l : list A) : list (A * nat) :=
  sort_desc (map (fun x => (x, count x l)) (unique l)).

End Counting.

(** [s.value_counts()]: missing cells are not counted. *)
Definition value_counts (s : Series) : list (scalar * nat) :=
  value_counts_of scalar_eqb (dropna (values s)).

(** [s.nunique()]: the number of distinct non-missing values. *)
Definition nunique (s : Series) : nat :=
  length (unique scalar_eqb (dropna (values s))).

(** ** Numbers *)

Definition Qnat (n : nat) : Q := inject_Z (Z.of_nat n).

(** Rounding to the nearest integer, ties to the even one: the rounding of
    [numpy.rint], of the [.1f] format and of the last binary digit of a
    float. *)
Definition round_half_even (q : Q) : Z :=
  let f := Qfloor q in
  match ((q - inject_Z f) ?= (1 # 2))%Q with
  | Lt => f
  | Gt => (f + 1)%Z
  | Eq => if Z.even f then f else (f + 1)%Z
  end.

(** *** Floating-point numbers

    A [float] ([float64], IEEE 754 binary64) is embedded as the rational
    it stands for.  Every operation gives the float nearest to the exact
    result, ties to the even one; the numbers of this program are counts
    and percentages, far below the largest float, and overflow is left
    out. *)

Module Float64.

(** The place of the leading binary digit of a positive rational:
    [2 ^ k <= q < 2 ^ (k + 1)]. *)
Definition binade (q : Q) : Z :=
  let k := (Z.log2 (Qnum q) - Z.log2 (Zpos (Qden q)))%Z in
  if Qle_bool (2 ^ k) q then k else (k - 1)%Z.

(** The place of the last binary digit a float keeps of [q]: 52 places
    below the leading one, and never below that of the subnormal
    numbers. *)
Definition ulp_exponent (q : Q) : Z :=
  Z.max (binade (Qabs q) - 52) (-1074).

(** The float nearest to a rational. *)
Definition round (q : Q) : Q :=
  if Qeq_bool q 0 then 0%Q
  else
    let e := ulp_exponent q in
    Qred (inject_Z (round_half_even (q / 2 ^ e)) * 2 ^ e)%Q.

(** [float(z)] for an integer, and the four operations. *)
Definition of_int (z : Z) : Q := round (inject_Z z).
Definition add (a b : Q) : Q := round (a + b).
Definition sub (a b : Q) : Q := round (a - b).
Definition mul (a b : Q) : Q := round (a * b).
Definition div (a b : Q) : Q := round (a / b).

End Float64.

(** [float(n)] for a count. *)
Definition of_count (n : nat) : Q := Float64.of_int (Z.of_nat n).

(** [a / b] on floats.  The zero divisor is singled out (numpy gives an
    infinity or [nan] there, with a warning), so that it can be stated that
    the program never divides by zero. *)
Definition divide (a b : Q) : outcome Q :=
  if Qeq_bool b 0 then Raises DivisionByZero else Ok (Float64.div a b).

(** [x.round(2)] on a float, as numpy computes it: [rint(x * 100) / 100],
    the product and the quotient being float operations. *)
Definition round2 (x : Q) : Q :=
  Float64.div (inject_Z (round_half_even (Float64.mul x 100))) 100.

(** [f"{x:.1f}"]: the decimal numeral with one digit after the point that
    is nearest to the float, ties to the even digit. *)
Definition format_1f (q : Q) : string :=
  let tenths := Z.abs (round_half_even (q * 10)%Q) in
  (if Qlt_le_dec q 0 then "-" else EmptyString)
  ++ Text.str_of_Z (tenths / 10)%Z ++ "." ++ Text.str_of_Z (tenths mod 10)%Z.

(** ** [process_addresses] (lines 39-49) *)

Definition address_keywords : list string :=
  ["direccion"; "address"; "ubicacion"; "domicilio"; "calle"].

(** A label of the sheet as [pd.read_excel] gives it: the text of the
    header cell, or a number when the cell holds one.  Of the labels that
    are not text only the numbers are modelled. *)
Inductive label : Type :=
| Name (s : string)
| Number (z : Z).

Definition label_eqb (a b : label) : bool :=
  match a, b with
  | Name x, Name y => String.eqb x y
  | Number x, Number y => Z.eqb x y
  | _, _ => false
  end.

(** The sheet that was loaded: its columns under their labels. *)
Definition Sheet : Type := list (label * Series).

(** [df.columns] *)
Definition labels (df : Sheet) : list label := map fst df.

(** A frame whose labels are text, as a sheet. *)
Definition text_labels (df : DataFrame) : Sheet :=
  map (fun c => (Name (fst c), snd c)) df.

(** [any(word in name.lower() for word in [...])] for a [str]. *)
Definition is_address_name (name : string) : bool :=
  existsb (fun word => Text.contains word (Text.lower name)) address_keywords.

(** The test of line 46 on a label: [col.lower()] is a method of [str],
    an [int] has none. *)
Definition is_address_label (col : label) : outcome bool :=
  match col with
  | Name name => Ok (is_address_name name)
  | Number _ => Raises AttributeError
  end.

(** The loop of lines 45-47. *)
Fixpoint address_columns (cols : list label) : outcome (list label) :=
  match cols with
  | [] => Ok []
  | col :: rest =>
      flagged <- is_address_label col ;;
      more <- address_columns rest ;;
      Ok (if flagged then col :: more else more)
  end.

Definition process_addresses (df : option Sheet)
  : outcome (option (list label)) :=
  match df with
  | None => Ok None
  | Some df =>
      found <- address_columns (labels df) ;;
      Ok (Some found)
  end.

(** ** The summary tab (lines 75-94) *)

(** [df.isnull().sum().sum()] *)
Definition missing_count (df : DataFrame) : nat :=
  list_sum (map (fun c => null_count (values (snd c))) df).

(** The completeness metric,
    [(1 - missing_count / (len(df) * len(df.columns))) * 100] in floats:
    [None] when the metric is not computed. *)
Definition completeness (df : DataFrame) : outcome (option Q) :=
  if (0 <? len df)%nat then
    ratio <- divide (of_count (missing_count df))
                    (of_count (len df * length (columns df))) ;;
    Ok (Some (Float64.mul (Float64.sub 1 ratio) 100))
  else Ok None.

Definition completeness_metric (df : DataFrame) : outcome (option string) :=
  c <- completeness df ;;
  Ok (option_map (fun q => format_1f q ++ "%") c).

(** ** The address analysis tab (lines 134-177) *)

Record column_analysis : Type := mkAnalysis {
  total : Z;                            (* "Direcciones Validas" *)
  unique_values : Z;                    (* "Direcciones Unicas" *)
  duplicates : Z;                       (* "Direcciones Duplicadas" *)
  common_words : list (string * nat);   (* the ten most frequent tokens *)
  listed_words : list (string * nat);   (* the ones written out *)
  chart_words : list (string * nat);    (* the ones handed to the chart *)
  chart : outcome (list (string * nat)) (* the bars of the chart *)
}.

(** [' '.join(s.dropna().astype(str).str.lower()).split()] *)
Definition tokens (s : Series) : list string :=
  Text.split
    (Text.join " "
       (map Text.lower (map (astype_str (dtype_of s)) (dropna (values s))))).

(** [len(word) > 2] *)
Definition is_long (wc : string * nat) : bool :=
  (2 <? String.length (fst wc))%nat.

(** [px.bar(x=..., y=..., orientation='h', ...)] with the bars given as
    two sequences: plotly reads two empty sequences as two lists of column
    references, which it refuses. *)
Definition bar_chart (bars : list (string * nat))
  : outcome (list (string * nat)) :=
  match bars with
  | [] => Raises ValueError
  | _ :: _ => Ok bars
  end.

(** What the tab shows for a column, in the order of the page: the three
    figures, the words written out, the chart.  Where the chart raises the
    figures and the words are on the page already. *)
Definition analyze_series (s : Series) : column_analysis :=
  let total := Z.of_nat (length (dropna (values s))) in
  let unique := Z.of_nat (nunique s) in
  let common := head 10 (value_counts_of String.eqb (tokens s)) in
  {| total := total;
     unique_values := unique;
     duplicates := (total - unique)%Z;
     common_words := common;
     listed_words := filter is_long common;
     chart_words := head 5 common;
     chart := bar_chart (head 5 common) |}.

Definition analyze_column (df : DataFrame) (col : string)
  : outcome column_analysis :=
  s <- get_column df col ;;
  Ok (analyze_series s).

(** ** The frequency table of a categorical column (lines 241-268) *)

Record freq_row : Type := mkFreqRow {
  value : scalar;
  frecuencia : nat;
  porcentaje : Q
}.

(** [(count / len(df) * 100).round(2)] in floats *)
Definition percentage (count rows : nat) : Q :=
  round2 (Float64.mul (Float64.div (of_count count) (of_count rows)) 100).

Definition freq_table_of (rows : nat) (s : Series) : list freq_row :=
  map (fun vc =>
         {| value := fst vc;
            frecuencia := snd vc;
            porcentaje := percentage (snd vc) rows |})
      (head 20 (value_counts s)).

Definition freq_table (df : DataFrame) (col : string)
  : outcome (list freq_row) :=
  s <- get_column df col ;;
  Ok (freq_table_of (len df) s).

(** ** Regular expressions: [re.compile(pat, re.IGNORECASE).search]

    [Series.str.contains] reads its pattern as a regular expression
    ([regex=True] is the default).  The fragment embedded here has literal
    characters, [.], alternation, groups, the repeats [*], [+], [?] with
    their lazy forms, and a backslash before a character that is neither a
    letter nor a digit.  A pattern that leaves the fragment (a character
    set, a counted repeat, an anchor, a [(?...)] group, a possessive repeat
    or a backslash before a letter or digit) gives [Beyond]. *)

Module Re.

Inductive regex : Type :=
| Void                        (* matches nothing *)
| Eps                         (* the empty text *)
| Lit (c : ascii)             (* one character, whatever its case *)
| AnyChar                     (* [.]: any character but the line feed *)
| Cat (r1 r2 : regex)
| Alt (r1 r2 : regex)
| Star (r : regex).

Inductive compiled : Type :=
| Compiled (r : regex)
| Error                       (* [re.error] *)
| Beyond.                     (* outside the fragment *)

(** *** The parser

    One pass from left to right, as [sre_parse] reads the pattern.  A
    frame holds the alternatives of the group being read that are already
    closed by a [|], and the items of the current alternative (last
    first), each with a flag telling whether it is a repeat. *)

Record frame : Type := mkFrame {
  alternatives : list regex;        (* last first *)
  items : list (regex * bool)       (* last first *)
}.

Inductive previous : Type :=
| POther                      (* anything else, or the start *)
| POpen                       (* an opening parenthesis *)
| PRepeat                     (* a repeat operator *)
| PBackslash.                 (* a backslash not yet used *)

Definition new_frame : frame := mkFrame [] [].

Definition sequence (its : list (regex * bool)) : regex :=
  fold_left (fun acc it => Cat (fst it) acc) its Eps.

Definition close_frame (f : frame) : regex :=
  fold_left (fun acc alt => Alt alt acc) (alternatives f)
            (sequence (items f)).

Definition push_item (r : regex) (f : frame) : frame :=
  mkFrame (alternatives f) ((r, false) :: items f).

Definition is_alnum (c : ascii) : bool :=
  let n := Text.code c in
  ((48 <=? n) && (n <=? 57) || (65 <=? n) && (n <=? 90)
   || (97 <=? n) && (n <=? 122))%N.

Definition repeat_of (op : ascii) (r : regex) : regex :=
  if Ascii.eqb op "*" then Star r
  else if Ascii.eqb op "+" then Cat r (Star r)
  else Alt r Eps.

Definition backslash : ascii := "092"%char.

Definition one_of (c : ascii) (cs : string) : bool :=
  existsb (Ascii.eqb c) (list_ascii_of_string cs).

(** [stack] is the frame being read followed by the frames of the groups
    that enclose it. *)
Fixpoint parse (prev : previous) (top : frame) (stack : list frame)
         (pat : string) : compiled :=
  match pat with
  | EmptyString =>
      match prev, stack with
      | PBackslash, _ => Error      (* bad escape (end of pattern) *)
      | _, [] => Compiled (close_frame top)
      | _, _ :: _ => Error          (* missing ), unterminated subpattern *)
      end
  | String c rest =>
      match prev with
      | PBackslash =>
          if is_alnum c then Beyond
          else parse POther (push_item (Lit c) top) stack rest
      | _ =>
          if Ascii.eqb c backslash then parse PBackslash top stack rest
          else if one_of c "[{^$" then Beyond
          else if Ascii.eqb c "." then
            parse POther (push_item AnyChar top) stack rest
          else if Ascii.eqb c "(" then
            parse POpen new_frame (top :: stack) rest
          else if Ascii.eqb c ")" then
            match stack with
            | [] => Error           (* unbalanced parenthesis *)
            | outer :: stack' =>
                parse POther (push_item (close_frame top) outer) stack' rest
            end
          else if Ascii.eqb c "|" then
            parse POther
                  (mkFrame (sequence (items top) :: alternatives top) [])
                  stack rest
          else if one_of c "*+?" then
            match prev, items top with
            | POpen, _ =>
                if Ascii.eqb c "?" then Beyond   (* a [(?...)] group *)
                else Error                       (* nothing to repeat *)
            | PRepeat, _ =>
                if Ascii.eqb c "?" then parse POther top stack rest
                else if Ascii.eqb c "+" then Beyond
                else Error                       (* multiple repeat *)
            | _, [] => Error                     (* nothing to repeat *)
            | _, (_, true) :: _ => Error         (* multiple repeat *)
            | _, (r, false) :: its =>
                parse PRepeat
                      (mkFrame (alternatives top)
                               ((repeat_of c r, true) :: its))
                      stack rest
            end
          else parse POther (push_item (Lit c) top) stack rest
      end
  end.

(** [re.compile(pat, re.IGNORECASE)] *)
Definition compile (pat : string) : compiled := parse POther new_frame [] pat.

(** *** The matcher, by derivatives *)

Fixpoint nullable (r : regex) : bool :=
  match r with
  | Void | Lit _ | AnyChar => false
  | Eps | Star _ => true
  | Cat r1 r2 => nullable r1 && nullable r2
  | Alt r1 r2 => nullable r1 || nullable r2
  end.

Fixpoint deriv (c : ascii) (r : regex) : regex :=
  match r with
  | Void | Eps => Void
  | Lit a =>
      if Ascii.eqb (Text.lower_char a) (Text.lower_char c) then Eps else Void
  | AnyChar => if (Text.code c =? 10)%N then Void else Eps
  | Cat r1 r2 =>
      if nullable r1 then Alt (Cat (deriv c r1) r2) (deriv c r2)
      else Cat (deriv c r1) r2
  | Alt r1 r2 => Alt (deriv c r1) (deriv c r2)
  | Star r1 => Cat (deriv c r1) (Star r1)
  end.

(** Some prefix of [s] matches [r]. *)
Fixpoint match_here (r : regex) (s : string) : bool :=
  nullable r
  || match s with
     | EmptyString => false
     | String c rest => match_here (deriv c r) rest
     end.

(** [pattern.search(s) is not None] *)
Fixpoint search (r : regex) (s : string) : bool :=
  match_here r s
  || match s with
     | EmptyString => false
     | String _ rest => search r rest
     end.

End Re.

(** ** CSV text: [df.to_csv(index=False)]

    pandas hands the header and the rows to [csv.writer] with the comma as
    delimiter, the double quote as quote character, minimal quoting,
    doubled quotes inside quoted fields and the line feed as line
    terminator. *)

Module Csv.

Definition comma : ascii := ","%char.
Definition dquote : ascii := "034"%char.
Definition newline : ascii := "010"%char.

Definition is_special (c : ascii) : bool :=
  Ascii.eqb c comma || Ascii.eqb c dquote || Ascii.eqb c newline.

Fixpoint needs_quotes (f : string) : bool :=
  match f with
  | EmptyString => false
  | String c r => is_special c || needs_quotes r
  end.

Fixpoint escape (f : string) : string :=
  match f with
  | EmptyString => EmptyString
  | String c r =>
      if Ascii.eqb c dquote then String dquote (String dquote (escape r))
      else String c (escape r)
  end.

Definition quoted (f : string) : string :=
  String dquote (escape f ++ String dquote EmptyString).

Definition write_field (f : string) : string :=
  if needs_quotes f then quoted f else f.

Fixpoint write_fields (fs : list string) : string :=
  match fs with
  | [] => EmptyString
  | [f] => write_field f
  | f :: more => write_field f ++ String comma (write_fields more)
  end.

(** A record whose text would be empty, the single empty field, is
    written as a pair of quotes. *)
Definition write_record (fs : list string) : string :=
  match fs with
  | [EmptyString] => quoted EmptyString
  | _ => write_fields fs
  end ++ String newline EmptyString.

Fixpoint write_records (records : list (list string)) : string :=
  match records with
  | [] => EmptyString
  | r :: more => write_record r ++ write_records more
  end.

(** The number of lines of a text: its line feeds. *)
Fixpoint line_count (s : string) : nat :=
  match s with
  | EmptyString => 0
  | String c r => (if Ascii.eqb c newline then 1 else 0) + line_count r
  end.

End Csv.

(** The text of a cell in the export: a missing cell is empty ([na_rep] is
    the empty text), an integer of a [float64] column prints as a float. *)
Definition csv_cell (d : dtype) (v : scalar) : string :=
  match v with
  | NaN => EmptyString
  | Str s => s
  | Int z =>
      match d with
      | Float64 => Text.str_of_Z z ++ ".0"
      | _ => Text.str_of_Z z
      end
  end.

Definition csv_row (df : DataFrame) (i : nat) : list string :=
  map (fun c => csv_cell (dtype_of (snd c)) (nth i (values (snd c)) NaN)) df.

(** The records of the export: the labels, then the rows; no index. *)
Definition csv_records (df : DataFrame) : list (list string) :=
  columns df :: map (csv_row df) (seq 0 (len df)).

Definition to_csv (df : DataFrame) : string :=
  Csv.write_records (csv_records df).

(** ** The data tab: filter, display and export (lines 280-311) *)

(** The values [mask] takes in the search loop: the [False] it starts as,
    or a boolean series. *)
Inductive mask : Type :=
| MFalse
| MSeries (bits : list bool).

(** [mask |= bits] *)
Definition mask_or (m : mask) (bits : list bool) : mask :=
  match m with
  | MFalse => MSeries bits
  | MSeries old => MSeries (map (fun p => fst p || snd p) (combine old bits))
  end.

(** What the search takes from the [re] module:
    [re.compile(pat, re.IGNORECASE)] raises [re.error] or gives a pattern,
    and of a pattern the search uses the test [pattern.search(text) is not
    None] only.  The search is embedded for every such engine; [fragment]
    below is the one of the regular expressions of [Re]. *)
Definition matcher : Type := string -> bool.

Definition regex_engine : Type := string -> outcome matcher.

Definition fragment : regex_engine :=
  fun pat =>
    match Re.compile pat with
    | Re.Compiled r => Ok (Re.search r)
    | Re.Error => Raises ReError
    | Re.Beyond => Unmodelled
    end.

(** [texts.str.contains(pat, case=False, na=False)] on a series of
    strings. *)
Definition str_contains_by (compile : regex_engine) (pat : string)
           (texts : list string) : outcome (list bool) :=
  found <- compile pat ;;
  Ok (map found texts).

(** The loop over the text columns of the frame on display. *)
Fixpoint search_mask_by (compile : regex_engine) (term : string)
         (text_columns : DataFrame) (m : mask) : outcome mask :=
  match text_columns with
  | [] => Ok m
  | (_, s) :: rest =>
      bits <- str_contains_by compile term
                              (map (astype_str (dtype_of s)) (values s)) ;;
      search_mask_by compile term rest (mask_or m bits)
  end.

Fixpoint keep {A : Type} (bits : list bool) (l : list A) : list A :=
  match bits, l with
  | b :: bs, x :: xs => if b then x :: keep bs xs else keep bs xs
  | _, _ => []
  end.

(** [df[mask]]: a boolean series selects rows; the scalar [False] is
    looked up as a column label, and no column has it. *)
Definition select_rows (df : DataFrame) (m : mask) : outcome DataFrame :=
  match m with
  | MFalse => Raises KeyError
  | MSeries bits =>
      Ok (map (fun c => (fst c, mkSeries (dtype_of (snd c))
                                         (keep bits (values (snd c))))) df)
  end.

(** [if columns_to_show: display_df = display_df[columns_to_show]] *)
Definition show_columns (df : DataFrame) (columns_to_show : list string)
  : outcome DataFrame :=
  match columns_to_show with
  | [] => Ok df
  | _ => select_columns df columns_to_show
  end.

(** [if search_term: ...]: the search over the text columns. *)
Definition search_rows_by (compile : regex_engine) (display_df : DataFrame)
           (search_term : string) : outcome DataFrame :=
  if String.eqb search_term EmptyString then Ok display_df
  else
    m <- search_mask_by compile search_term
                        (select_dtypes_object display_df) MFalse ;;
    select_rows display_df m.

Definition display_frame_by (compile : regex_engine) (df : DataFrame)
           (columns_to_show : list string) (search_term : string)
  : outcome DataFrame :=
  display_df <- show_columns df columns_to_show ;;
  search_rows_by compile display_df search_term.

(** [st.slider(label, min_value, max_value, value)] with integers: the
    widget takes the arguments only when [min_value < max_value] and the
    default lies between them, and raises otherwise.  It gives the
    position the user has put it in, a number from [min_value] to
    [max_value], and the default while it is not touched ([None]). *)
Definition slider (min_value max_value value : nat) (position : option nat)
  : outcome nat :=
  if ((min_value <? max_value) && (min_value <=? value)
      && (value <=? max_value))%nat
  then
    match position with
    | None => Ok value
    | Some p =>
        if ((min_value <=? p) && (p <=? max_value))%nat then Ok p
        else Unmodelled
    end
  else Raises StreamlitAPIException.

Record data_view : Type := mkView {
  displayed : DataFrame;          (* the rows put on the page *)
  download : option string        (* the CSV, once the button is pressed *)
}.

(** The data tab, lines 280-311: the slider of the row cap comes first,
    then the filters, the rows put on the page and the export. *)
Definition data_tab_by (compile : regex_engine) (df : DataFrame)
           (position : option nat) (columns_to_show : list string)
           (search_term : string) (button : bool) : outcome data_view :=
  show_rows <- slider 10 (len df) (Nat.min 100 (len df)) position ;;
  display_df <- display_frame_by compile df columns_to_show search_term ;;
  Ok {| displayed := head_rows show_rows display_df;
        download := if button then Some (to_csv display_df) else None |}.

(** The search with the regular expressions of the fragment. *)
Definition str_contains : string -> list string -> outcome (list bool) :=
  str_contains_by fragment.

Definition search_mask : string -> DataFrame -> mask -> outcome mask :=
  search_mask_by fragment.

Definition search_rows : DataFrame -> string -> outcome DataFrame :=
  search_rows_by fragment.

Definition display_frame
  : DataFrame -> list string -> string -> outcome DataFrame :=
  display_frame_by fragment.

Definition data_tab
  : DataFrame -> option nat -> list string -> string -> bool
    -> outcome data_view :=
  data_tab_by fragment.

(** ** The column table of the summary tab (lines 103-109) *)

(** [str(dtype)] *)
Definition dtype_name (d : dtype) : string :=
  match d with
  | Object => "object"
  | Int64 => "int64"
  | Float64 => "float64"
  end.

Record column_row : Type := mkColumnRow {
  columna : string;           (* 'Columna' *)
  tipo : string;              (* 'Tipo' *)
  valores_unicos : nat;       (* 'Valores Unicos' *)
  valores_nulos : nat         (* 'Valores Nulos' *)
}.

(** One row for each column; the two counts look the column up by its
    label, [df[col]]. *)
Fixpoint column_rows (df : DataFrame) (cols : DataFrame)
  : outcome (list column_row) :=
  match cols with
  | [] => Ok []
  | (name, s) :: rest =>
      for_unique <- get_column df name ;;
      for_nulls <- get_column df name ;;
      more <- column_rows df rest ;;
      Ok ({| columna := name;
             tipo := dtype_name (dtype_of s);
             valores_unicos := nunique for_unique;
             valores_nulos := null_count (values for_nulls) |} :: more)
  end.

Definition column_info (df : DataFrame) : outcome (list column_row) :=
  column_rows df df.

(** ** The address panel of the summary tab (lines 112-121) *)

(** [l.iloc[i]]: [None] stands for [IndexError]. *)
Definition iloc {A : Type} (l : list A) (i : nat) : option A := nth_error l i.

(** What the panel writes under a flagged column. *)
Inductive example_line : Type :=
| NoExample                   (* every cell is missing: no line *)
| Example (v : scalar)        (* [Ejemplo: v] *)
| ExampleFails.               (* [iloc[0]] raised *)

Definition example_of (s : Series) : example_line :=
  if (0 <? length (dropna (values s)))%nat then
    match iloc (dropna (values s)) 0 with
    | Some v => Example v
    | None => ExampleFails
    end
  else NoExample.

(** [df[col]] on the sheet. *)
Fixpoint sheet_column (df : Sheet) (col : label) : outcome Series :=
  match df with
  | [] => Raises KeyError
  | (name, s) :: rest =>
      if label_eqb name col then Ok s else sheet_column rest col
  end.

Fixpoint example_lines (df : Sheet) (address_cols : list label)
  : outcome (list (label * example_line)) :=
  match address_cols with
  | [] => Ok []
  | col :: rest =>
      s <- sheet_column df col ;;
      more <- example_lines df rest ;;
      Ok ((col, example_of s) :: more)
  end.

(** The panel: the flagged columns with their examples, or the notice that
    none was detected when the list is empty. *)
Inductive address_panel_view : Type :=
| NoneDetected
| Detected (lines : list (label * example_line)).

Definition address_panel (df : Sheet) : outcome address_panel_view :=
  address_cols <- process_addresses (Some df) ;;
  match address_cols with
  | Some (col :: rest) =>
      lines <- example_lines df (col :: rest) ;;
      Ok (Detected lines)
  | _ => Ok NoneDetected
  end.

(** ** The sample of addresses (lines 180-183) *)

(** [enumerate(df[col].dropna().head(10), 1)] *)
Definition sample_addresses (s : Series) : list (nat * scalar) :=
  let sample := head 10 (dropna (values s)) in
  combine (seq 1 (length sample)) sample.

(** ** [analyze_data] (lines 52-64) *)

(** A Python [dict] with text keys: the keys in the order of their first
    insertion, each with the value inserted last. *)
Definition dict (V : Type) : Type := list (string * V).

Fixpoint dict_set {V : Type} (key : string) (v : V) (d : dict V) : dict V :=
  match d with
  | [] => [(key, v)]
  | (k, old) :: rest =>
      if String.eqb k key then (k, v) :: rest
      else (k, old) :: dict_set key v rest
  end.

Fixpoint dict_get {V : Type} (d : dict V) (key : string) : option V :=
  match d with
  | [] => None
  | (k, v) :: rest => if String.eqb k key then Some v else dict_get rest key
  end.

(** [series.to_dict()] for a series indexed by the column labels. *)
Definition to_dict {V : Type} (items : list (string * V)) : dict V :=
  fold_left (fun d item => dict_set (fst item) (snd item) d) items [].

Record analysis : Type := mkDataAnalysis {
  total_rows : nat;
  total_columns : nat;
  columns_list : list string;
  missing_values : dict nat;
  data_types : dict dtype
}.

Definition analyze_data (df : option DataFrame) : option analysis :=
  match df with
  | None => None
  | Some df =>
      Some {| total_rows := len df;
              total_columns := length (columns df);
              columns_list := columns df;
              missing_values :=
                to_dict (map (fun c => (fst c, null_count (values (snd c))))
                             df);
              data_types := to_dict (map (fun c => (fst c, dtype_of (snd c)))
                                         df) |}
  end.

(** ** The default view of the data tab (line 286) *)

(** [df.columns.tolist()[:5]] *)
Definition default_columns (df : DataFrame) : list string :=
  head 5 (columns df).

(** ** The figures of the summary (lines 79-94) *)

(** The digits of a numeral, last first, with a comma after every third
    one that has a digit after it. *)
Fixpoint group_thousands (digits : list ascii) : list ascii :=
  match digits with
  | a :: b :: c :: ((_ :: _) as more) =>
      a :: b :: c :: ","%char :: group_thousands more
  | _ => digits
  end.

(** [f"{n:,}"] for a count *)
Definition format_thousands (n : nat) : string :=
  string_of_list_ascii
    (rev (group_thousands
            (rev (list_ascii_of_string (Text.str_of_Z (Z.of_nat n)))))).

Record summary : Type := mkSummary {
  total_de_registros : string;     (* "Total de Registros" *)
  columnas : nat;                  (* "Columnas" *)
  datos_faltantes : string;        (* "Datos Faltantes" *)
  completitud : option string      (* "Completitud", when it is shown *)
}.

(** [f"{df.isnull().sum().sum():,}"]: the sum over the columns is an
    integer, except that the sum over no column at all is the float
    [0.0]. *)
Definition format_missing (df : DataFrame) : string :=
  match df with
  | [] => "0.0"
  | _ :: _ => format_thousands (missing_count df)
  end.

Definition summary_metrics (df : DataFrame) : outcome summary :=
  c <- completeness_metric df ;;
  Ok {| total_de_registros := format_thousands (len df);
        columnas := length (columns df);
        datos_faltantes := format_missing df;
        completitud := c |}.

(** ** The name of the exported file (line 315) *)

(** [datetime.now()]: a moment of the local clock. *)
Record datetime : Type := mkDatetime {
  year : Z; month : Z; day : Z;
  hour : Z; minute : Z; second : Z; microsecond : Z
}.

(** The fields are in the ranges of a [datetime]; the year has four
    digits, since what [%Y] gives for an earlier year depends on the
    platform. *)
Definition in_range (t : datetime) : bool :=
  ((1000 <=? year t) && (year t <=? 9999)
   && (1 <=? month t) && (month t <=? 12)
   && (1 <=? day t) && (day t <=? 31)
   && (0 <=? hour t) && (hour t <? 24)
   && (0 <=? minute t) && (minute t <? 60)
   && (0 <=? second t) && (second t <? 60)
   && (0 <=? microsecond t) && (microsecond t <? 1000000))%Z.

(** [%m], [%d], [%H], [%M] and [%S]: two digits, with a leading zero. *)
Definition two_digits (n : Z) : string :=
  (if (n <? 10)%Z then "0" else EmptyString) ++ Text.str_of_Z n.

(** [t.strftime('%Y%m%d_%H%M%S')] *)
Definition strftime (t : datetime) : string :=
  Text.str_of_Z (year t)
  ++ two_digits (month t) ++ two_digits (day t) ++ "_"
  ++ two_digits (hour t) ++ two_digits (minute t) ++ two_digits (second t).

(** [f"datos_filtrados_{...}.csv"] *)
Definition file_name (now : datetime) : string :=
  "datos_filtrados_" ++ strftime now ++ ".csv".

(* ================================================================= *)
(** * Part II: the notions of the specification, and example frames *)
(* ================================================================= *)

(** ** Notions *)

(** The specification's reading of [sub in s]: [sub] occurs in [s] as a
    block of consecutive characters. *)
Definition Substring (sub s : string) : Prop :=
  exists before after, s = before ++ sub ++ after.

(** A character spells a small letter: it is the letter, or its capital
    among A-Z. *)
Definition spells (c k : ascii) : Prop :=
  c = k
  \/ ((65 <= Text.code c <= 90)%N /\ Text.code k = (Text.code c + 32)%N).

(** A text spells a word, capitals or not. *)
Fixpoint SpelledAs (text word : string) : Prop :=
  match text, word with
  | EmptyString, EmptyString => True
  | String c text, String k word => spells c k /\ SpelledAs text word
  | _, _ => False
  end.

(** A flagged name, in the words of the specification: one of the keywords
    is spelled in it, capitals or not, as a block of consecutive
    characters. *)
Definition AddressLike (col : string) : Prop :=
  exists word,
    In word address_keywords
    /\ exists before block after,
         col = before ++ block ++ after /\ SpelledAs block word.

(** Two names that differ in the case of their letters A-Z only. *)
Fixpoint SameUpToCase (a b : string) : Prop :=
  match a, b with
  | EmptyString, EmptyString => True
  | String c a, String d b => (spells c d \/ spells d c) /\ SameUpToCase a b
  | _, _ => False
  end.

(** The small letters a-z. *)
Definition is_small (k : ascii) : bool :=
  ((97 <=? Text.code k) && (Text.code k <=? 122))%N.

Fixpoint all_small (word : string) : bool :=
  match word with
  | EmptyString => true
  | String k word => is_small k && all_small word
  end.

Definition is_text (col : label) : Prop :=
  match col with
  | Name _ => True
  | Number _ => False
  end.

(** The labels the panel shows: those with an address-like name. *)
Definition flagged_label (col : label) : bool :=
  match col with
  | Name name => is_address_name name
  | Number _ => false
  end.

(** The order of a frequency table: most frequent first. *)
Definition by_count_desc {A : Type} (a b : A * nat) : Prop :=
  (snd b <= snd a)%nat.

(** The percentage the specification gives: the share of the cells that
    are not missing. *)
Definition completeness_spec (rows cols missing : nat) : Q :=
  ((1 - Qnat missing / Qnat (rows * cols)) * 100)%Q.

(** The same formula with every operation on floats. *)
Definition completeness_float (rows cols missing : nat) : Q :=
  Float64.mul
    (Float64.sub 1 (Float64.div (of_count missing) (of_count (rows * cols))))
    100.

Definition chars (s : string) : list ascii := list_ascii_of_string s.

(** A token: a non-empty lowercase text without white space. *)
Definition token_char (c : ascii) : Prop :=
  Text.is_space c = false /\ Text.lower_char c = c.

Definition Token (t : string) : Prop :=
  t <> EmptyString /\ Forall token_char (chars t).

Definition Qsum (l : list Q) : Q := fold_right Qplus 0%Q l.

(** The percentage of a row of the frequency table before rounding. *)
Definition exact_percentage (rows : nat) (r : freq_row) : Q :=
  (Qnat (frecuencia r) / Qnat rows * 100)%Q.

Definition counted (r : freq_row) : scalar * nat := (value r, frecuencia r).

(** ** Reading the export back *)

Module CsvReader.

Import Csv.

Definition cr : ascii := "013"%char.

Inductive state : Type :=
| StartRecord       (* nothing of the record is read yet *)
| StartField        (* a delimiter is just read *)
| InField           (* inside a field that is not quoted *)
| InQuoted          (* inside a quoted field *)
| QuoteInQuoted     (* a quote is just read inside a quoted field *)
| AfterCR.          (* a carriage return has just ended a line *)

Definition finish_field (field : list ascii) (record : list string)
  : list string :=
  string_of_list_ascii (rev field) :: record.

Definition cons_record (record : list string)
           (more : option (list (list string)))
  : option (list (list string)) :=
  option_map (cons (rev record)) more.

(** The characters that end a line outside quotes. *)
Definition ends_line (universal : bool) (c : ascii) : bool :=
  Ascii.eqb c newline || (universal && Ascii.eqb c cr).

(** Where the reader is after the line end [c]: a line feed after a
    carriage return belongs to the same line end. *)
Definition after_line (c : ascii) : state :=
  if Ascii.eqb c newline then StartRecord else AfterCR.

(** Modelled from the spec: the reader that the round-trip property
    re-parses the export with.  The repository has no reader; this one is
    the state machine of [csv.reader], the counterpart in Python's library
    of the writer that pandas uses, with the dialect of the export: fields
    separated by commas, a field in double quotes may hold commas, line
    ends and doubled quotes, and a line with nothing on it is a record
    without fields.  With [universal] the lines of the text end at a
    carriage return, at a line feed or at the two in a row, as in a file
    opened for [csv.reader] and as [pd.read_csv] cuts lines; without it
    they end at a line feed only, as for [pd.read_csv] with
    [lineterminator] the line feed.  [field] is the field being read (last
    character first), [record] the fields of the record read so far (last
    first).  A text that ends inside a quoted field has no reading here
    ([csv.reader] gives the unfinished record as it stands, or raises when
    it is strict); no export ends so. *)
Fixpoint read (universal : bool) (st : state) (field : list ascii)
         (record : list string) (s : string) : option (list (list string)) :=
  match s with
  | EmptyString =>
      match st with
      | StartRecord | AfterCR => Some []
      | InQuoted => None
      | _ => Some [rev (finish_field field record)]
      end
  | String c rest =>
      match st with
      | StartRecord | StartField | AfterCR =>
          if match st with AfterCR => Ascii.eqb c newline | _ => false end
          then read universal StartRecord [] [] rest
          else if ends_line universal c then
            match st with
            | StartField =>
                cons_record (finish_field [] record)
                            (read universal (after_line c) [] [] rest)
            | _ => cons_record [] (read universal (after_line c) [] [] rest)
            end
          else if Ascii.eqb c comma then
            read universal StartField [] (finish_field [] record) rest
          else if Ascii.eqb c dquote then
            read universal InQuoted [] record rest
          else read universal InField [c] record rest
      | InField =>
          if ends_line universal c then
            cons_record (finish_field field record)
                        (read universal (after_line c) [] [] rest)
          else if Ascii.eqb c comma then
            read universal StartField [] (finish_field field record) rest
          else read universal InField (c :: field) record rest
      | InQuoted =>
          if Ascii.eqb c dquote then
            read universal QuoteInQuoted field record rest
          else read universal InQuoted (c :: field) record rest
      | QuoteInQuoted =>
          if Ascii.eqb c dquote then
            read universal InQuoted (c :: field) record rest
          else if ends_line universal c then
            cons_record (finish_field field record)
                        (read universal (after_line c) [] [] rest)
          else if Ascii.eqb c comma then
            read universal StartField [] (finish_field field record) rest
          else read universal InField (c :: field) record rest
      end
  end.

Definition read_csv (universal : bool) (s : string)
  : option (list (list string)) :=
  read universal StartRecord [] [] s.

End CsvReader.

(** What the reader does at the separator that ends the field [f]. *)
Definition after_field (universal : bool) (sep : ascii) (f : string)
           (record : list string) (rest : string)
  : option (list (list string)) :=
  if Ascii.eqb sep Csv.newline
  then CsvReader.cons_record
         (f :: record)
         (CsvReader.read universal CsvReader.StartRecord [] [] rest)
  else CsvReader.read universal CsvReader.StartField [] (f :: record) rest.

Fixpoint has_cr (f : string) : bool :=
  match f with
  | EmptyString => false
  | String c r => Ascii.eqb c CsvReader.cr || has_cr r
  end.

(** A field with a bare carriage return: the writer leaves it without
    quotes, for it holds no comma, quote or line feed. *)
Definition bare_cr (f : string) : bool :=
  negb (Csv.needs_quotes f) && has_cr f.

(** The fields that a reader takes for one field: all of them when the
    lines end at a line feed only. *)
Definition readable (universal : bool) (f : string) : Prop :=
  universal = true -> bare_cr f = false.

(** The frames without a bare carriage return in a label or a cell. *)
Definition no_bare_cr (df : DataFrame) : Prop :=
  Forall (Forall (fun f => bare_cr f = false)) (csv_records df).

(** [w] is a way to write the field [f] that the reader takes for [f]. *)
Definition written (universal : bool) (w f : string) : Prop :=
  w = Csv.quoted f
  \/ (w = f /\ Csv.needs_quotes f = false
      /\ (universal = true -> has_cr f = false)).

(** The line feeds inside the fields of a record, and inside the labels
    and the cells of a frame. *)
Definition line_feeds_in (fs : list string) : nat :=
  list_sum (map Csv.line_count fs).

Definition embedded_line_feeds (df : DataFrame) : nat :=
  list_sum (map line_feeds_in (csv_records df)).

(** The text of row [i] in a column matches. *)
Definition cell_matches (r : Re.regex) (i : nat) (c : string * Series) : bool :=
  Re.search r (astype_str (dtype_of (snd c)) (nth i (values (snd c)) NaN)).

(** Some text column of the frame matches in row [i]. *)
Definition row_matches (r : Re.regex) (df : DataFrame) (i : nat) : bool :=
  existsb (cell_matches r i) (select_dtypes_object df).

(** Some text column of the frame contains the term in row [i], up to the
    case of the letters. *)
Definition row_contains (term : string) (df : DataFrame) (i : nat) : bool :=
  existsb (fun c => Text.contains
                      (Text.lower term)
                      (Text.lower (astype_str (dtype_of (snd c))
                                              (nth i (values (snd c)) NaN))))
          (select_dtypes_object df).

(** The elements of a list at the positions that satisfy [f]. *)
Definition at_positions {A : Type} (f : nat -> bool) (l : list A) : list A :=
  map snd (filter (fun p => f (fst p)) (combine (seq 0 (length l)) l)).

(** ** What a regular expression matches *)

Inductive Matches : Re.regex -> string -> Prop :=
| MEps : Matches Re.Eps EmptyString
| MLit (a c : ascii) :
    Text.lower_char a = Text.lower_char c ->
    Matches (Re.Lit a) (String c EmptyString)
| MAny (c : ascii) :
    Text.code c <> 10%N -> Matches Re.AnyChar (String c EmptyString)
| MCat (r1 r2 : Re.regex) (s1 s2 : string) :
    Matches r1 s1 -> Matches r2 s2 -> Matches (Re.Cat r1 r2) (s1 ++ s2)
| MAltL (r1 r2 : Re.regex) (s : string) :
    Matches r1 s -> Matches (Re.Alt r1 r2) s
| MAltR (r1 r2 : Re.regex) (s : string) :
    Matches r2 s -> Matches (Re.Alt r1 r2) s
| MStarNone (r : Re.regex) : Matches (Re.Star r) EmptyString
| MStarMore (r : Re.regex) (s1 s2 : string) :
    Matches r s1 -> Matches (Re.Star r) s2 -> Matches (Re.Star r) (s1 ++ s2).

(** A block of [s] matches [r]. *)
Definition Found (r : Re.regex) (s : string) : Prop :=
  exists before block after,
    s = before ++ block ++ after /\ Matches r block.

(** The characters that are not literals of a pattern. *)
Definition is_meta (c : ascii) : bool :=
  Ascii.eqb c Re.backslash || Re.one_of c "[{^$.()|*+?".

(** A search term without such characters. *)
Fixpoint plain (term : string) : bool :=
  match term with
  | EmptyString => true
  | String c rest => negb (is_meta c) && plain rest
  end.

(** The pattern of a plain term: its characters, one after the other. *)
Fixpoint literals (term : string) : Re.regex :=
  match term with
  | EmptyString => Re.Eps
  | String c rest => Re.Cat (Re.Lit c) (literals rest)
  end.

(** ** Floats by the book

    The operations of [Float64] are compared below with those of the
    specification of IEEE 754 in the standard library, [SpecFloat], at
    precision 53 and exponent bound 1024. *)

Definition spec_value (x : spec_float) : option Q :=
  match x with
  | S754_zero _ => Some 0%Q
  | S754_finite s m e =>
      Some (Qred ((if s then -1 else 1) * inject_Z (Zpos m) * 2 ^ e))%Q
  | _ => None
  end.

Definition spec_int (z : Z) : spec_float := binary_normalize 53 1024 z 0 false.

Definition same_float (x : spec_float) (q : Q) : bool :=
  match spec_value x with
  | Some v => Qeq_bool v q
  | None => false
  end.

(** The quotient [a / b] of two integers, and what the program makes of
    it: the percentage, the completeness, the hundredths. *)
Definition floats_agree (a b : Z) : bool :=
  let ratio := SFdiv 53 1024 (spec_int a) (spec_int b) in
  let hundred := spec_int 100 in
  let q := Float64.div (Float64.of_int a) (Float64.of_int b) in
  same_float ratio q
  && same_float (SFmul 53 1024 ratio hundred) (Float64.mul q 100)
  && same_float (SFmul 53 1024 (SFsub 53 1024 (spec_int 1) ratio) hundred)
                (Float64.mul (Float64.sub 1 q) 100)
  && same_float (SFadd 53 1024 ratio hundred) (Float64.add q 100)
  && same_float (SFdiv 53 1024 (SFmul 53 1024 ratio hundred) hundred)
                (Float64.div (Float64.mul q 100) 100).

Fixpoint up_to (n : nat) : list Z :=
  match n with
  | O => []
  | S k => up_to k ++ [Z.of_nat n]
  end.

(** ** Example frames *)

(** The label of the specification's example, DIRECCION_ENVIO with an
    acute accent on the second O (U+00D3) and on the I (U+00CD). *)
Definition direccion_envio_accented : string :=
  "DIRECCI" ++ String "211" ("N_ENV" ++ String "205" "O").

Definition one_text_column (label : string) : string * Series :=
  (label, mkSeries Object [Str "Calle Mayor 5"]).

(** A frame of 10 rows and 2 columns with 3 missing cells. *)
Definition ten_by_two : DataFrame :=
  [("direccion",
    mkSeries Object
      [Str "Calle Mayor 5"; NaN; Str "Av. Libertad"; Str "Calle Sol 1"; NaN;
       Str "Calle Luna 2"; Str "Plaza Real"; Str "Calle Mayor 5";
       Str "Paseo 3"; Str "Ronda 4"]);
   ("cp",
    mkSeries Float64
      [Int 28001; Int 28002; Int 28003; NaN; Int 28005;
       Int 28006; Int 28007; Int 28008; Int 28009; Int 28010])].

(** Twenty rows and four columns with 29 missing cells. *)
Definition gaps_29_of_80 : DataFrame :=
  [("direccion",
    mkSeries Object (repeat NaN 9 ++ repeat (Str "Calle Sol 1") 11));
   ("ciudad", mkSeries Float64 (repeat NaN 20));
   ("provincia", mkSeries Object (repeat (Str "Madrid") 20));
   ("cp", mkSeries Int64 (repeat (Int 28001) 20))].

(** An address that occurs twice, and a missing one. *)
Definition repeated_addresses : DataFrame :=
  [("direccion",
    mkSeries Object
      [Str "Calle Mayor 5"; Str "Calle Mayor 5"; NaN; Str "Av. Libertad"])].

(** The two addresses of the specification's search example, and the
    first of them alone. *)
Definition two_addresses (label : string) : DataFrame :=
  [(label, mkSeries Object [Str "Calle Mayor 5"; Str "Av. Libertad"])].

Definition first_address (label : string) : DataFrame :=
  [(label, mkSeries Object [Str "Calle Mayor 5"])].

(** A text column with a missing cell, and a frame without text
    columns. *)
Definition address_and_gap : DataFrame :=
  [("direccion", mkSeries Object [Str "Calle Mayor 5"; NaN])].

Definition numbers_only : DataFrame :=
  [("cp", mkSeries Int64 [Int 28001; Int 28002])].

(** Twelve addresses, two more than the smallest cap of the slider. *)
Definition twelve_addresses : DataFrame :=
  [("direccion",
    mkSeries Object
      (map (fun n => Str ("Calle " ++ Text.str_of_Z (Z.of_nat n)))
           (seq 1 12)))].

(** A column in which the short words [de] and [la] are among the most
    frequent ones. *)
Definition streets : DataFrame :=
  [("direccion",
    mkSeries Object
      [Str "Calle de la Paz 12"; NaN; Str "Plaza de la Villa 3";
       Str "Paseo de la Castellana 100"; Str "Calle Mayor 5";
       Str "Avenida de America 7"; Str "Ronda de Toledo 9"])].

(** Seven rows, seven cities. *)
Definition seven_cities : DataFrame :=
  [("ciudad",
    mkSeries Object
      [Str "Madrid"; Str "Sevilla"; Str "Bilbao"; Str "Vigo"; Str "Cadiz";
       Str "Lugo"; Str "Soria"])].

(** A hundred and sixty rows, 23 of them in Madrid. *)
Definition cities_of_160 : DataFrame :=
  [("ciudad",
    mkSeries Object (repeat (Str "Madrid") 23 ++ repeat (Str "Sevilla") 137))].

(** Seven rows, one of them without a city. *)
Definition cities_ciudad : Series :=
  mkSeries Object
    [Str "Madrid"; Str "Sevilla"; Str "Madrid"; NaN; Str "Bilbao";
     Str "Sevilla"; Str "Madrid"].

Definition cities : DataFrame :=
  [("ciudad", cities_ciudad);
   ("habitantes",
    mkSeries Int64 [Int 10; Int 20; Int 30; Int 40; Int 50; Int 60; Int 70])].

Definition cities_table : list freq_row :=
  [mkFreqRow (Str "Madrid") 3 (Float64.round (4286 # 100));
   mkFreqRow (Str "Sevilla") 2 (Float64.round (2857 # 100));
   mkFreqRow (Str "Bilbao") 1 (Float64.round (1429 # 100))].

(** The frame [address_and_gap] with an empty text for the missing
    address. *)
Definition address_and_empty : DataFrame :=
  [("direccion", mkSeries Object [Str "Calle Mayor 5"; Str EmptyString])].

(** An address in two lines. *)
Definition two_line_address : DataFrame :=
  [("direccion",
    mkSeries Object
      [Str ("Calle Mayor 5" ++ String Csv.newline "2 B")])].

(** An address with a carriage return between its two parts. *)
Definition carriage_return_address : DataFrame :=
  [("direccion",
    mkSeries Object
      [Str ("Calle Mayor 5" ++ String CsvReader.cr "2 B")])].

(** Addresses with a comma, a quote, a line feed, and a carriage return
    next to a comma; a postcode and a gap. *)
Definition awkward_addresses : DataFrame :=
  [("direccion",
    mkSeries Object
      [Str "Calle Mayor, 5";
       Str ("Bar " ++ String Csv.dquote ("Sol" ++ String Csv.dquote " 3"));
       Str ("Av. Libertad" ++ String Csv.newline "2 B");
       Str ("Plaza, 1" ++ String CsvReader.cr "bajo")]);
   ("cp", mkSeries Float64 [Int 28001; NaN; Int 28003; Int 28004])].

(** ** Notions of the further properties *)

(** The example under a column, read off the column. *)
Definition example_meets (s : Series) (e : example_line) : Prop :=
  match e with
  | NoExample => Forall (fun x => x = NaN) (values s)
  | Example v =>
      exists before after,
        values s = (before ++ v :: after)%list
        /\ Forall (fun x => x = NaN) before /\ v <> NaN
  | ExampleFails => False
  end.

(** Terms that are not regular expressions: one that starts with a repeat
    operator or a closing parenthesis, a text with one opening parenthesis
    and no other special character, and a text without special characters
    followed by one backslash. *)
Definition starts_badly (term : string) : bool :=
  match term with
  | EmptyString => false
  | String c _ => Re.one_of c "*+?)"
  end.

Definition BadTerm (term : string) : Prop :=
  starts_badly term = true
  \/ (exists a b, plain a = true /\ plain b = true
                  /\ term = a ++ String "(" b)
  \/ (exists a, plain a = true
                /\ term = a ++ String Re.backslash EmptyString).

(** A figure with thousands separators shows a count: without its commas
    it is the decimal numeral of the count and reads as the count, and
    counted from the right, from zero, the commas stand at the positions
    3, 7, 11 and so on, and nowhere else. *)
Definition is_digit (c : ascii) : bool :=
  ((48 <=? nat_of_ascii c) && (nat_of_ascii c <=? 57))%nat.

Definition not_comma (c : ascii) : bool := negb (Ascii.eqb c ",").

Definition read_thousands (s : string) : option Z :=
  option_map Z.of_int
    (NilZero.int_of_string
       (string_of_list_ascii (filter not_comma (list_ascii_of_string s)))).

Definition Figure (shown : string) (n : nat) : Prop :=
  filter not_comma (chars shown) = chars (Text.str_of_Z (Z.of_nat n))
  /\ read_thousands shown = Some (Z.of_nat n)
  /\ (let digits := length (chars (Text.str_of_Z (Z.of_nat n))) in
      length (chars shown) = digits + (digits - 1) / 3)%nat
  /\ (forall i, (i < length (chars shown))%nat ->
        (nth i (rev (chars shown)) "0"%char = ","%char <-> i mod 4 = 3)%nat).

(** The moment read off a file name: the year from the four characters
    after the prefix, then month and day, and after one more character
    hour, minute and second, two characters each. *)
Definition read_Z (s : string) : option Z :=
  option_map Z.of_int (NilZero.int_of_string s).

Definition read_file_name (name : string)
  : option (Z * Z * Z * Z * Z * Z) :=
  match read_Z (substring 16 4 name), read_Z (substring 20 2 name),
        read_Z (substring 22 2 name), read_Z (substring 25 2 name),
        read_Z (substring 27 2 name), read_Z (substring 29 2 name) with
  | Some y, Some m, Some d, Some hh, Some mm, Some ss =>
      Some (y, m, d, hh, mm, ss)
  | _, _, _, _, _, _ => None
  end.

Definition to_the_second (t : datetime) : Z * Z * Z * Z * Z * Z :=
  (year t, month t, day t, hour t, minute t, second t).

(** Tests of the numerals of the fields, and a test of [count] numbers
    from [start] on. *)
Definition reads_as (s : string) (n : Z) : bool :=
  match read_Z s with Some m => (m =? n)%Z | None => false end.

Definition two_digits_ok (n : Z) : bool :=
  match two_digits n with
  | String a (String b EmptyString) => reads_as (two_digits n) n
  | _ => false
  end.

Definition four_digits_ok (n : Z) : bool :=
  match Text.str_of_Z n with
  | String a (String b (String c (String d EmptyString))) =>
      reads_as (Text.str_of_Z n) n
  | _ => false
  end.

Fixpoint all_from (ok : Z -> bool) (start : Z) (count : nat) : bool :=
  match count with
  | O => true
  | S k => ok start && all_from ok (start + 1)%Z k
  end.

(** A position the slider of the row cap can be in: untouched, or at a
    number from 10 to the number of rows of the table. *)
Definition on_slider (df : DataFrame) (position : option nat) : Prop :=
  match position with
  | None => True
  | Some p => (10 <= p <= len df)%nat
  end.

(** ** Further example frames *)

(** Six columns of two rows. *)
Definition six_columns : DataFrame :=
  [("nombre", mkSeries Object [Str "Ana"; Str "Luis"]);
   ("direccion", mkSeries Object [Str "Calle Mayor 5"; Str "Av. Libertad"]);
   ("cp", mkSeries Int64 [Int 28001; Int 28002]);
   ("ciudad", mkSeries Object [Str "Madrid"; NaN]);
   ("provincia", mkSeries Object [Str "Madrid"; Str "Madrid"]);
   ("telefono", mkSeries Float64 [NaN; Int 600000000])].

(** Eleven words, the first in every row, the second in every row but
    the last, and so on: the k-th word occurs 12 - k times.  The third row
    has a tab and two spaces between its words. *)
Definition words_by_rank : DataFrame :=
  [("direccion",
    mkSeries Object
      [Str "De Calle la MAYOR el Plaza sol a Norte sur este";
       Str "de calle LA mayor el plaza Sol a norte SUR";
       Str ("de" ++ String "009" "calle  la mayor el plaza sol a norte");
       NaN;
       Str "de calle la mayor el plaza sol a";
       Str "de calle la mayor el plaza sol";
       Str "de calle la mayor el plaza";
       Str "de calle la mayor el";
       Str "de calle la mayor";
       Str "de calle la";
       Str " DE CALLE ";
       Str "de"])].

(** A column without a valid cell, and one whose cells are blank. *)
Definition no_valid_cell : DataFrame :=
  [("direccion", mkSeries Float64 [NaN; NaN]);
   ("notas", mkSeries Object [Str "  "; Str ""])].

(** A column of 1234 missing cells. *)
Definition many_rows : DataFrame :=
  [("direccion", mkSeries Float64 (repeat NaN 1234))].

(** A sheet with a year as a label. *)
Definition sheet_with_a_year : Sheet :=
  [(Name "direccion", mkSeries Object [Str "Calle Mayor 5"]);
   (Number 2024, mkSeries Int64 [Int 1])].

(** Names of columns, some of them address-like. *)
Definition some_names : list string :=
  ["CALLE 1"; "Home Address"; "street"; "direcion";
   "Ubicaci" ++ String "243" "n"; "DOMICILIO"].

Definition sheet_of_names (names : list string) : Sheet :=
  text_labels (map one_text_column names).

(** A morning of March 2024, and the same second later on. *)
Definition a_morning : datetime := mkDatetime 2024 3 7 9 5 0 123456.

Definition same_second_later : datetime := mkDatetime 2024 3 7 9 5 0 999999.

(* ================================================================= *)
(** * Part III: properties *)
(* ================================================================= *)

(** ** Substrings *)

Lemma string_app_assoc (a b c : string) : (a ++ b) ++ c = a ++ (b ++ c).
Proof.
  induction a as [| x a IH]; simpl; [reflexivity | now rewrite IH].
Qed.

Lemma string_app_nil_r (a : string) : a ++ EmptyString = a.
Proof.
  induction a as [| x a IH]; simpl; [reflexivity | now rewrite IH].
Qed.

Lemma prefix_iff (p s : string) :
  prefix p s = true <-> exists rest, s = p ++ rest.
Proof.
  revert s; induction p as [| a p IH]; intros s.
  - split; [intros _; now exists s | now destruct s].
  - destruct s as [| b s]; simpl.
    + split; [discriminate | intros [rest H]; discriminate].
    + destruct (ascii_dec a b) as [-> | Hab].
      * rewrite IH. split; intros [rest H]; exists rest.
        -- now rewrite H.
        -- now injection H.
      * split; [discriminate |].
        intros [rest H]. injection H as H1 _. now elim Hab.
Qed.

Lemma contains_iff (sub s : string) :
  Text.contains sub s = true <-> Substring sub s.
Proof.
  unfold Substring. induction s as [| c s IH].
  - cbn [Text.contains]. rewrite orb_false_r, prefix_iff. split.
    + intros [rest H]. now exists EmptyString, rest.
    + intros [[| x b] [a H]]; [now exists a | discriminate].
  - cbn [Text.contains]. rewrite orb_true_iff, IH, prefix_iff. split.
    + intros [[rest H] | [b [a H]]].
      * now exists EmptyString, rest.
      * exists (String c b), a. simpl. now rewrite H.
    + intros [[| x b] [a H]].
      * left. now exists a.
      * right. injection H as _ H. now exists b, a.
Qed.

(** ** The address column detector *)

Lemma lower_char_spells (c k : ascii) :
  is_small k = true -> (Text.lower_char c = k <-> spells c k).
Proof.
  unfold is_small, spells, Text.lower_char, Text.is_upper, Text.code.
  intros Hk. apply andb_prop in Hk. destruct Hk as [K1 K2].
  apply N.leb_le in K1, K2.
  pose proof (N_ascii_bounded c) as Hc.
  destruct (N.leb_spec 65 (N_of_ascii c)) as [A1 | A1];
    destruct (N.leb_spec (N_of_ascii c) 90) as [A2 | A2];
    destruct (N.leb_spec 192 (N_of_ascii c)) as [A3 | A3];
    destruct (N.leb_spec (N_of_ascii c) 222) as [A4 | A4];
    destruct (N.eqb_spec (N_of_ascii c) 215) as [A5 | A5];
    cbn [andb orb negb]; try lia.
  all: split;
    [ intros E
    | intros [E | [_ E]];
      [ subst k; try lia; try reflexivity
      | try lia; try (rewrite <- E; apply ascii_N_embedding) ] ].
  all: try (left; exact E).
  all: try (right; split; [lia |]; rewrite <- E; apply N_ascii_embedding; lia).
  all: try (exfalso; rewrite <- E, N_ascii_embedding in K2; lia).
Qed.

Lemma lower_spelled (text word : string) :
  all_small word = true -> (Text.lower text = word <-> SpelledAs text word).
Proof.
  revert word. induction text as [| c text IH]; intros [| k word] Hw;
    cbn [Text.lower SpelledAs]; try (split; [discriminate | contradiction]).
  - split; auto.
  - cbn [all_small] in Hw. apply andb_prop in Hw. destruct Hw as [Hk Hw].
    rewrite <- (IH word Hw), <- (lower_char_spells c k Hk).
    split; [intros H; injection H; auto | intros [-> ->]; reflexivity].
Qed.

Lemma lower_app (a b : string) :
  Text.lower (a ++ b) = Text.lower a ++ Text.lower b.
Proof. induction a as [| c a IH]; simpl; [reflexivity | now rewrite IH]. Qed.

Lemma lower_app_inv (s x y : string) :
  Text.lower s = x ++ y ->
  exists a b, s = a ++ b /\ Text.lower a = x /\ Text.lower b = y.
Proof.
  revert s. induction x as [| k x IH]; intros s H.
  - exists EmptyString, s. auto.
  - destruct s as [| c s]; [discriminate |]. simpl in H.
    injection H as Hc H. destruct (IH s H) as [a [b [-> [Ha Hb]]]].
    exists (String c a), b. simpl. now rewrite Hc, Ha.
Qed.

Lemma keywords_small : Forall (fun word => all_small word = true)
                              address_keywords.
Proof. repeat constructor. Qed.

Lemma is_address_name_iff (col : string) :
  is_address_name col = true <-> AddressLike col.
Proof.
  unfold is_address_name, AddressLike. rewrite existsb_exists.
  pose proof keywords_small as Hs. rewrite Forall_forall in Hs.
  split; intros [w [Hw H]]; exists w; (split; [exact Hw |]).
  - apply contains_iff in H. destruct H as [before [after H]].
    apply lower_app_inv in H. destruct H as [b [rest [-> [_ H]]]].
    apply lower_app_inv in H. destruct H as [block [a [-> [H _]]]].
    exists b, block, a. split; [reflexivity |].
    now apply lower_spelled; [apply Hs |].
  - destruct H as [b [block [a [-> H]]]]. apply contains_iff.
    exists (Text.lower b), (Text.lower a). rewrite !lower_app.
    apply lower_spelled in H; [| now apply Hs]. now rewrite H.
Qed.

Lemma spells_lower (c d : ascii) :
  spells c d \/ spells d c -> Text.lower_char c = Text.lower_char d.
Proof.
  assert (forall x y, spells x y -> Text.lower_char x = Text.lower_char y)
    as Hone.
  { intros x y [-> | [Hx Hy]]; [reflexivity |].
    unfold Text.lower_char, Text.is_upper. unfold Text.code in *.
    rewrite Hy.
    replace ((65 <=? N_of_ascii x) && (N_of_ascii x <=? 90))%N with true
      by (symmetry; apply andb_true_intro; split; apply N.leb_le; lia).
    replace ((65 <=? N_of_ascii x + 32) && (N_of_ascii x + 32 <=? 90))%N
      with false
      by (symmetry; apply andb_false_intro2; apply N.leb_gt; lia).
    replace (192 <=? N_of_ascii x + 32)%N with false
      by (symmetry; apply N.leb_gt; lia).
    cbn [andb orb]. rewrite <- Hy. apply ascii_N_embedding. }
  intros [H | H]; [| symmetry]; now apply Hone.
Qed.

Lemma same_up_to_case_lower (a b : string) :
  SameUpToCase a b -> Text.lower a = Text.lower b.
Proof.
  revert b. induction a as [| c a IH]; intros [| d b] H;
    cbn [SameUpToCase] in H; try contradiction; [reflexivity |].
  destruct H as [Hc H]. simpl. now rewrite (spells_lower c d Hc), (IH b H).
Qed.

Lemma lower_char_idem (c : ascii) :
  Text.lower_char (Text.lower_char c) = Text.lower_char c.
Proof.
  destruct c as [[] [] [] [] [] [] [] []]; reflexivity.
Qed.

Lemma lower_idem (s : string) : Text.lower (Text.lower s) = Text.lower s.
Proof.
  induction s as [| c s IH]; simpl; [reflexivity |].
  now rewrite lower_char_idem, IH.
Qed.

Lemma filter_ext_iff {A : Type} (f g : A -> bool) (l : list A) :
  (forall x, f x = true <-> g x = true) -> filter f l = filter g l.
Proof.
  intros H. apply filter_ext. intros x. specialize (H x).
  destruct (f x), (g x); intuition congruence.
Qed.

Lemma address_columns_of_names (names : list string) :
  address_columns (map Name names)
  = Ok (map Name (filter is_address_name names)).
Proof.
  induction names as [| n names IH]; [reflexivity |].
  cbn [map address_columns is_address_label bind filter]. rewrite IH.
  cbn [bind]. now destruct (is_address_name n).
Qed.

Lemma labels_all_text (cols : list label) :
  Forall is_text cols -> exists names, cols = map Name names.
Proof.
  induction 1 as [| [n | z] cols Hc _ [names ->]]; [now exists [] | |].
  - now exists (n :: names).
  - contradiction.
Qed.

Lemma flagged_names (names : list string) :
  filter flagged_label (map Name names)
  = map Name (filter is_address_name names).
Proof.
  induction names as [| n names IH]; [reflexivity |].
  simpl. rewrite IH. now destruct (is_address_name n).
Qed.

Lemma map_Name_inj (a b : list string) : map Name a = map Name b -> a = b.
Proof.
  revert b. induction a as [| x a IH]; intros [| y b] H; try discriminate;
    [reflexivity |].
  injection H as -> H. now rewrite (IH b H).
Qed.

(** A label that is not text stops the detector. *)
Lemma address_columns_need_text (cols : list label) :
  ~ Forall is_text cols -> address_columns cols = Raises AttributeError.
Proof.
  induction cols as [| [n | z] cols IH]; intros H.
  - exfalso. apply H. constructor.
  - cbn [address_columns is_address_label bind]. rewrite IH; [reflexivity |].
    intros Hc. apply H. constructor; [exact I | exact Hc].
  - reflexivity.
Qed.

(** C7.  For every sheet whose labels are the names [names],
    [process_addresses] returns the names that are address-like, those and
    no others, in the order of the sheet: a name is address-like when one
    of the five keywords is spelled in it, capitals or not, as a block of
    consecutive characters.  The answer is the same for two names that
    differ only in the case of their letters, and the keyword list is the
    fixed one of the specification. *)
Theorem process_addresses_exact_subset (names : list string) (df : Sheet) :
  labels df = map Name names ->
  exists flagged,
    process_addresses (Some df) = Ok (Some (map Name flagged))
    /\ (forall col, In col flagged <-> In col names /\ AddressLike col)
    /\ (forall keeps : string -> bool,
           (forall col, keeps col = true <-> AddressLike col) ->
           flagged = filter keeps names)
    /\ (forall a b, SameUpToCase a b -> (AddressLike a <-> AddressLike b))
    /\ address_keywords
       = ["direccion"; "address"; "ubicacion"; "domicilio"; "calle"].
Proof.
  intros Hl. exists (filter is_address_name names).
  split; [| split; [| split; [| split; [| reflexivity]]]].
  - unfold process_addresses. now rewrite Hl, address_columns_of_names.
  - intros col. now rewrite filter_In, is_address_name_iff.
  - intros keeps Hk. apply filter_ext_iff. intros col.
    now rewrite is_address_name_iff, Hk.
  - intros a b H. rewrite <- !is_address_name_iff. unfold is_address_name.
    now rewrite (same_up_to_case_lower a b H).
Qed.

Lemma process_addresses_exact_subset_witness :
  process_addresses (Some (sheet_of_names some_names))
  = Ok (Some [Name "CALLE 1"; Name "Home Address"; Name "DOMICILIO"])
  /\ AddressLike "CALLE 1" /\ AddressLike "Home Address"
  /\ ~ AddressLike "street" /\ ~ AddressLike "direcion"
  /\ (AddressLike "Calle 1" <-> AddressLike "cALLE 1").
Proof.
  destruct (process_addresses_exact_subset some_names
              (sheet_of_names some_names) eq_refl)
    as [flagged [E [Hin [_ [Hcase _]]]]].
  assert (flagged = ["CALLE 1"; "Home Address"; "DOMICILIO"]) as Ef.
  { assert (process_addresses (Some (sheet_of_names some_names))
            = Ok (Some (map Name ["CALLE 1"; "Home Address"; "DOMICILIO"])))
      as E' by (vm_compute; reflexivity).
    rewrite E in E'. injection E' as E'. now apply map_Name_inj. }
  subst flagged.
  split; [exact E |].
  split; [apply Hin; simpl; tauto |].
  split; [apply Hin; simpl; tauto |].
  split; [intros H; assert (In "street" some_names /\ AddressLike "street")
            as X by (split; [simpl; tauto | exact H]);
          apply Hin in X; simpl in X; intuition discriminate |].
  split; [intros H;
          assert (In "direcion" some_names /\ AddressLike "direcion")
            as X by (split; [simpl; tauto | exact H]);
          apply Hin in X; simpl in X; intuition discriminate |].
  apply Hcase. simpl. unfold spells. simpl.
  repeat split; auto; try (left; left; reflexivity);
    try (left; right; split; [lia | reflexivity]);
    try (right; right; split; [lia | reflexivity]).
Defined.

(** C2.  On a sheet whose columns are the accented DIRECCION_ENVIO,
    [street] and the unaccented [DIRECCION_ENVIO], the detector flags the
    unaccented label only: lowercasing keeps the accents (o acute is
    U+00F3, i acute U+00ED), so the accented label does not contain
    [direccion].  The help text of the page (line 336) names the accented
    spellings among the labels an address column may have. *)
Theorem accented_label_not_flagged :
  Text.lower direccion_envio_accented
  = "direcci" ++ String "243" ("n_env" ++ String "237" "o")
  /\ process_addresses
       (Some (text_labels [one_text_column direccion_envio_accented;
                           one_text_column "street";
                           one_text_column "DIRECCION_ENVIO"]))
     = Ok (Some [Name "DIRECCION_ENVIO"]).
Proof. split; reflexivity. Qed.

Lemma address_columns_flagged (cols found : list label) :
  address_columns cols = Ok found -> found = filter flagged_label cols.
Proof.
  revert found. induction cols as [| [n | z] cols IH]; intros found H.
  - now injection H as <-.
  - cbn [address_columns is_address_label bind] in H.
    destruct (address_columns cols) as [more | e |]; try discriminate.
    cbn [bind] in H. injection H as <-. cbn [filter flagged_label].
    now rewrite (IH more eq_refl).
  - discriminate.
Qed.

(** No sheet has its accented label flagged. *)
Lemma accented_label_never_flagged (df : Sheet) (flagged : list label) :
  process_addresses (Some df) = Ok (Some flagged) ->
  ~ In (Name direccion_envio_accented) flagged
  /\ ~ In (Name "street") flagged.
Proof.
  unfold process_addresses. intros H.
  destruct (address_columns (labels df)) as [found | e |] eqn:E;
    try discriminate.
  cbn [bind] in H. injection H as <-.
  rewrite (address_columns_flagged _ _ E).
  split; intros Hin; apply filter_In in Hin; destruct Hin as [_ Hin];
    vm_compute in Hin; discriminate.
Qed.

(** ** Counting values *)

Section CountingFacts.

Context {A : Type} (eqb : A -> A -> bool).
Hypothesis eqb_eq : forall x y, eqb x y = true <-> x = y.

Let differs (x y : A) : bool := negb (eqb x y).

Lemma eqb_same (x : A) : eqb x x = true.
Proof. now apply eqb_eq. Qed.

Lemma count_cons (x y : A) (l : list A) :
  count eqb x (y :: l) = ((if eqb x y then 1 else 0) + count eqb x l)%nat.
Proof. unfold count. simpl. now destruct (eqb x y). Qed.

Lemma count_pos_iff (x : A) (l : list A) :
  (0 < count eqb x l)%nat <-> In x l.
Proof.
  induction l as [| y l IH]; [unfold count; simpl; split; [lia | tauto] |].
  rewrite count_cons. simpl. destruct (eqb x y) eqn:E.
  - apply eqb_eq in E. split; [now left | lia].
  - rewrite IH. split; [tauto | intros [H | H]; [| exact H]].
    subst y. now rewrite eqb_same in E.
Qed.

Lemma count_le_length (x : A) (l : list A) : (count eqb x l <= length l)%nat.
Proof. apply filter_length_le. Qed.

Lemma count_differs (x y : A) (l : list A) :
  x <> y -> count eqb y (filter (differs x) l) = count eqb y l.
Proof.
  intros Hxy. induction l as [| z l IH]; [reflexivity |].
  simpl. unfold differs at 1. destruct (eqb x z) eqn:E; simpl.
  - apply eqb_eq in E. subst z. rewrite IH, count_cons.
    destruct (eqb y x) eqn:E'; [| reflexivity].
    apply eqb_eq in E'. now elim Hxy.
  - now rewrite !count_cons, IH.
Qed.

Lemma length_split_by (x : A) (l : list A) :
  length l = (count eqb x l + length (filter (differs x) l))%nat.
Proof.
  induction l as [| y l IH]; [reflexivity |].
  rewrite count_cons. simpl. unfold differs at 1.
  destruct (eqb x y); simpl; lia.
Qed.

Lemma filter_comm (f g : A -> bool) (l : list A) :
  filter f (filter g l) = filter g (filter f l).
Proof.
  induction l as [| y l IH]; [reflexivity |].
  simpl. destruct (f y) eqn:F, (g y) eqn:G; simpl;
    rewrite ?F, ?G, IH; reflexivity.
Qed.

Lemma unique_filter (f : A -> bool) (l : list A) :
  unique eqb (filter f l) = filter f (unique eqb l).
Proof.
  induction l as [| y l IH]; [reflexivity |].
  simpl. destruct (f y) eqn:Fy; simpl.
  - now rewrite IH, filter_comm.
  - rewrite IH. clear IH. induction (unique eqb l) as [| z u IHu];
      [reflexivity |].
    simpl. destruct (f z) eqn:F; simpl.
    + destruct (eqb y z) eqn:E; simpl; rewrite ?F.
      * apply eqb_eq in E. subst z. congruence.
      * now rewrite IHu.
    + destruct (eqb y z); simpl; rewrite ?F; exact IHu.
Qed.

Lemma unique_In (x : A) (l : list A) : In x (unique eqb l) <-> In x l.
Proof.
  induction l as [| y l IH]; [reflexivity |].
  simpl. rewrite filter_In, IH. split.
  - tauto.
  - intros [H | H]; [now left |].
    destruct (eqb y x) eqn:E.
    + apply eqb_eq in E. now left.
    + right. now split.
Qed.

Lemma unique_NoDup (l : list A) : NoDup (unique eqb l).
Proof.
  induction l as [| y l IH]; simpl; constructor.
  - rewrite filter_In. intros [_ H]. now rewrite eqb_same in H.
  - now apply NoDup_filter.
Qed.

Lemma unique_length_le (l : list A) : (length (unique eqb l) <= length l)%nat.
Proof.
  induction l as [| y l IH]; simpl; [lia |].
  pose proof (filter_length_le (fun z => negb (eqb y z)) (unique eqb l)). lia.
Qed.

(** Every element is counted once: the counts of the distinct values add
    up to the length of the list. *)
Lemma counts_add_up (l : list A) :
  list_sum (map (fun x => count eqb x l) (unique eqb l)) = length l.
Proof.
  remember (length l) as n eqn:Hn. revert l Hn.
  induction n as [n IH] using lt_wf_ind. intros [| x l] Hn;
    [now subst |].
  simpl unique. cbn [map list_sum fold_right].
  change (fun y => negb (eqb x y)) with (differs x).
  rewrite <- unique_filter.
  rewrite (map_ext_in _ (fun y => count eqb y (filter (differs x) l))).
  - rewrite (IH (length (filter (differs x) l))); [| | reflexivity].
    + rewrite Hn, count_cons, eqb_same. simpl.
      pose proof (length_split_by x l). lia.
    + subst n. simpl. pose proof (filter_length_le (differs x) l). lia.
  - intros y Hy. apply unique_In, filter_In in Hy. destruct Hy as [_ Hy].
    assert (x <> y) as Hxy.
    { intros ->. unfold differs in Hy. now rewrite eqb_same in Hy. }
    rewrite count_cons, count_differs by exact Hxy.
    destruct (eqb y x) eqn:E; [| reflexivity].
    apply eqb_eq in E. now elim Hxy.
Qed.

(** *** The sort *)

Lemma insert_desc_perm (x : A * nat) (l : list (A * nat)) :
  Permutation (insert_desc x l) (x :: l).
Proof.
  induction l as [| y l IH]; simpl; [reflexivity |].
  destruct (snd y <=? snd x)%nat; [reflexivity |].
  rewrite IH. apply perm_swap.
Qed.

Lemma sort_desc_perm (l : list (A * nat)) : Permutation (sort_desc l) l.
Proof.
  induction l as [| x l IH]; simpl; [reflexivity |].
  now rewrite insert_desc_perm, IH.
Qed.

Lemma insert_desc_sorted (x : A * nat) (l : list (A * nat)) :
  StronglySorted by_count_desc l ->
  StronglySorted by_count_desc (insert_desc x l).
Proof.
  induction 1 as [| y l Hl IH Hy]; simpl; [repeat constructor |].
  destruct (snd y <=? snd x)%nat eqn:E.
  - apply Nat.leb_le in E. constructor; [now constructor |].
    constructor; [exact E |].
    eapply Forall_impl; [| exact Hy]. unfold by_count_desc. intros; lia.
  - apply Nat.leb_gt in E. constructor; [exact IH |].
    apply (Permutation_Forall (Permutation_sym (insert_desc_perm x l))).
    constructor; [unfold by_count_desc; lia | exact Hy].
Qed.

Lemma sort_desc_sorted (l : list (A * nat)) :
  StronglySorted by_count_desc (sort_desc l).
Proof.
  induction l as [| x l IH]; simpl; [constructor |].
  now apply insert_desc_sorted.
Qed.

(** *** [value_counts] *)

Lemma value_counts_In (x : A) (n : nat) (l : list A) :
  In (x, n) (value_counts_of eqb l) <-> In x l /\ n = count eqb x l.
Proof.
  unfold value_counts_of. split.
  - intros H. apply (Permutation_in _ (sort_desc_perm _)) in H.
    apply in_map_iff in H. destruct H as [y [E Hy]].
    injection E as <- <-. split; [now apply unique_In | reflexivity].
  - intros [Hx ->]. apply (Permutation_in _ (Permutation_sym (sort_desc_perm _))).
    apply in_map_iff. exists x. split; [reflexivity | now apply unique_In].
Qed.

Lemma value_counts_keys (l : list A) :
  Permutation (map fst (value_counts_of eqb l)) (unique eqb l).
Proof.
  unfold value_counts_of. rewrite sort_desc_perm, map_map. simpl.
  now rewrite map_id.
Qed.

Lemma value_counts_NoDup (l : list A) :
  NoDup (map fst (value_counts_of eqb l)).
Proof.
  apply (Permutation_NoDup (Permutation_sym (value_counts_keys l))).
  apply unique_NoDup.
Qed.

Lemma value_counts_length (l : list A) :
  length (value_counts_of eqb l) = length (unique eqb l).
Proof.
  rewrite <- (length_map fst). apply Permutation_length, value_counts_keys.
Qed.

Lemma value_counts_sorted (l : list A) :
  StronglySorted by_count_desc (value_counts_of eqb l).
Proof. apply sort_desc_sorted. Qed.

Lemma list_sum_perm (l l' : list nat) :
  Permutation l l' -> list_sum l = list_sum l'.
Proof. induction 1; simpl; lia. Qed.

Lemma value_counts_total (l : list A) :
  list_sum (map snd (value_counts_of eqb l)) = length l.
Proof.
  unfold value_counts_of.
  rewrite (list_sum_perm _ _ (Permutation_map snd (sort_desc_perm _))).
  rewrite map_map. simpl. apply counts_add_up.
Qed.

End CountingFacts.

Lemma scalar_eqb_eq (a b : scalar) : scalar_eqb a b = true <-> a = b.
Proof.
  destruct a, b; simpl; try (split; [discriminate | congruence]).
  - tauto.
  - rewrite String.eqb_eq. split; congruence.
  - rewrite Z.eqb_eq. split; congruence.
Qed.

(** ** Floats

    The facts about the nearest float that the properties below rest on:
    rounding is monotone, it keeps the integers up to [2 ^ 53], and it
    moves a number by at most half a unit of its last place. *)

Section FloatFacts.

Import Float64.

Local Open Scope Q_scope.

Lemma two_nonzero : ~ 2 == 0.
Proof. discriminate. Qed.

Lemma pow2_pos (e : Z) : 0 < 2 ^ e.
Proof. apply Qpower_0_lt. reflexivity. Qed.

Lemma pow2_le (a b : Z) : (a <= b)%Z -> 2 ^ a <= 2 ^ b.
Proof. intros H. apply Qpower_le_compat_l; [exact H | discriminate]. Qed.

Lemma pow2_lt (a b : Z) : (a < b)%Z -> 2 ^ a < 2 ^ b.
Proof. intros H. apply Qpower_lt_compat_l; [exact H | reflexivity]. Qed.

Lemma pow2_add (a b : Z) : 2 ^ (a + b) == 2 ^ a * 2 ^ b.
Proof. apply Qpower_plus, two_nonzero. Qed.

Lemma pow2_sub (a b : Z) : 2 ^ (a - b) == 2 ^ a / 2 ^ b.
Proof. apply Qpower_minus, two_nonzero. Qed.

Lemma pow2_Z (a : Z) : (0 <= a)%Z -> inject_Z (2 ^ a) == 2 ^ a.
Proof. intros H. now rewrite Zpower_Qpower. Qed.

Lemma Q_as_quotient (q : Q) : q == inject_Z (Qnum q) / inject_Z (Zpos (Qden q)).
Proof. destruct q as [n d]. unfold Qeq, Qdiv, Qmult, Qinv, inject_Z. simpl. lia. Qed.

Lemma div_lt (n d A B : Q) :
  0 < n -> 0 < d -> 0 < B -> n < A -> B <= d -> n / d < A / B.
Proof.
  intros Hn Hd HB HnA HBd.
  apply Qlt_shift_div_l; [exact HB |].
  assert (n / d * B == n * B / d) as -> by (field; lra).
  apply Qlt_shift_div_r; [exact Hd |]. nra.
Qed.

Lemma div_le (n d A B : Q) :
  0 < A -> 0 < d -> 0 < B -> A <= n -> d <= B -> A / B <= n / d.
Proof.
  intros HA Hd HB HnA HBd.
  apply Qle_shift_div_r; [exact HB |].
  assert (n / d * B == n * B / d) as -> by (field; lra).
  apply Qle_shift_div_l; [exact Hd |]. nra.
Qed.

Lemma inject_Z_pos (z : Z) : (0 < z)%Z -> 0 < inject_Z z.
Proof. intros H. change 0 with (inject_Z 0). now rewrite <- Zlt_Qlt. Qed.

Lemma binade_spec (q : Q) :
  0 < q -> 2 ^ binade q <= q < 2 ^ (binade q + 1).
Proof.
  intros Hq. unfold binade.
  set (n := Qnum q). set (d := Zpos (Qden q)).
  assert (0 < n)%Z as Hn.
  { destruct q as [qn qd]. unfold Qlt in Hq. simpl in *. subst n. lia. }
  assert (0 < d)%Z as Hd by (subst d; lia).
  destruct (Z.log2_spec n Hn) as [Ha1 Ha2].
  destruct (Z.log2_spec d Hd) as [Hb1 Hb2].
  pose proof (Z.log2_nonneg n) as Ha0. pose proof (Z.log2_nonneg d) as Hb0.
  set (a := Z.log2 n) in *. set (b := Z.log2 d) in *.
  assert (inject_Z n / inject_Z d == q) as Eq
      by (symmetry; apply Q_as_quotient).
  pose proof (inject_Z_pos d Hd) as HdQ.
  pose proof (inject_Z_pos n Hn) as HnQ.
  assert (q < 2 ^ (a - b + 1)) as Hup.
  { replace (a - b + 1)%Z with ((a + 1) - b)%Z by ring.
    rewrite pow2_sub, <- !pow2_Z by lia. rewrite <- Eq.
    apply div_lt; auto.
    - apply inject_Z_pos. lia.
    - rewrite <- Zlt_Qlt. lia.
    - now rewrite <- Zle_Qle. }
  assert (2 ^ (a - b - 1) <= q) as Hlow.
  { replace (a - b - 1)%Z with (a - (b + 1))%Z by ring.
    rewrite pow2_sub, <- !pow2_Z by lia. rewrite <- Eq.
    apply div_le; auto.
    - apply inject_Z_pos. lia.
    - apply inject_Z_pos. lia.
    - now rewrite <- Zle_Qle.
    - rewrite <- Zle_Qle. lia. }
  destruct (Qle_bool (2 ^ (a - b)) q) eqn:E.
  - apply Qle_bool_iff in E. split; assumption.
  - replace (a - b - 1 + 1)%Z with (a - b)%Z by ring.
    split; [exact Hlow |].
    apply Qnot_le_lt. intros H. apply Qle_bool_iff in H. congruence.
Qed.

(** *** Rounding to an integer *)

Lemma round_half_even_near (q : Q) :
  (q - (1 # 2) <= inject_Z (round_half_even q) <= q + (1 # 2))%Q.
Proof.
  unfold round_half_even.
  pose proof (Qfloor_le q) as Hlo. pose proof (Qlt_floor q) as Hhi.
  rewrite inject_Z_plus in Hhi. change (inject_Z 1) with 1%Q in Hhi.
  destruct (Qcompare_spec (q - inject_Z (Qfloor q)) (1 # 2)) as [E | L | G].
  - destruct (Z.even (Qfloor q)); rewrite ?inject_Z_plus;
      change (inject_Z 1) with 1%Q; split; lra.
  - split; lra.
  - rewrite inject_Z_plus. change (inject_Z 1) with 1%Q. split; lra.
Qed.

Lemma round_half_even_bounds (q : Q) :
  (Qfloor q <= round_half_even q <= Qfloor q + 1)%Z.
Proof.
  unfold round_half_even.
  destruct (q - inject_Z (Qfloor q) ?= 1 # 2); [destruct (Z.even _) | |]; lia.
Qed.

Lemma round_half_even_int (z : Z) : round_half_even (inject_Z z) = z.
Proof.
  unfold round_half_even. rewrite Qfloor_Z.
  destruct (Qcompare_spec (inject_Z z - inject_Z z) (1 # 2)) as [E | L | G].
  - exfalso. lra.
  - reflexivity.
  - exfalso. lra.
Qed.

Lemma round_half_even_eq (q : Q) (z : Z) :
  q == inject_Z z -> round_half_even q = z.
Proof.
  intros E. rewrite <- (round_half_even_int z). unfold round_half_even.
  assert (Qfloor q = Qfloor (inject_Z z)) as -> by now rewrite E.
  assert ((q - inject_Z (Qfloor (inject_Z z)) ?= 1 # 2)
          = (inject_Z z - inject_Z (Qfloor (inject_Z z)) ?= 1 # 2)) as ->
      by now rewrite E.
  reflexivity.
Qed.

Lemma round_half_even_mono (x y : Q) :
  x <= y -> (round_half_even x <= round_half_even y)%Z.
Proof.
  intros Hxy. pose proof (Qfloor_resp_le x y Hxy) as Hf.
  pose proof (round_half_even_bounds x) as Hx.
  pose proof (round_half_even_bounds y) as Hy.
  destruct (Z.eq_dec (Qfloor x) (Qfloor y)) as [E | N]; [| lia].
  unfold round_half_even. rewrite <- E.
  destruct (Qcompare_spec (x - inject_Z (Qfloor x)) (1 # 2)) as [Ex | Lx | Gx];
    destruct (Qcompare_spec (y - inject_Z (Qfloor x)) (1 # 2))
      as [Ey | Ly | Gy];
    try destruct (Z.even (Qfloor x)); try lia; exfalso; lra.
Qed.

Lemma round_half_even_comp (x y : Q) :
  x == y -> round_half_even x = round_half_even y.
Proof.
  intros E. unfold round_half_even.
  assert (Qfloor x = Qfloor y) as -> by now rewrite E.
  assert ((x - inject_Z (Qfloor y) ?= 1 # 2)
          = (y - inject_Z (Qfloor y) ?= 1 # 2)) as -> by now rewrite E.
  reflexivity.
Qed.

Lemma inject_Z_sub (a b : Z) : inject_Z (a - b) == inject_Z a - inject_Z b.
Proof. unfold Z.sub. rewrite inject_Z_plus, inject_Z_opp. reflexivity. Qed.

Lemma round_half_even_opp (x : Q) :
  round_half_even (- x) = (- round_half_even x)%Z.
Proof.
  pose proof (Qfloor_le x) as Fx. pose proof (Qlt_floor x) as Gx.
  pose proof (Qfloor_le (- x)) as Fn. pose proof (Qlt_floor (- x)) as Gn.
  rewrite inject_Z_plus in Gx, Gn. change (inject_Z 1) with 1 in Gx, Gn.
  unfold round_half_even.
  set (f := Qfloor x) in *. set (g := Qfloor (- x)) in *.
  assert (g = (- f)%Z \/ g = (- f - 1)%Z) as Hg.
  { assert (inject_Z (- f - 2) < inject_Z g) as H1
        by (rewrite inject_Z_sub, inject_Z_opp; change (inject_Z 2) with 2; lra).
    assert (inject_Z g < inject_Z (- f + 1)) as H2
        by (rewrite inject_Z_plus, inject_Z_opp; change (inject_Z 1) with 1; lra).
    rewrite <- Zlt_Qlt in H1, H2. lia. }
  destruct Hg as [Hg | Hg]; rewrite Hg in *.
  - rewrite inject_Z_opp in *.
    destruct (Qcompare_spec (- x - - inject_Z f) (1 # 2)) as [E | L | G];
      try (exfalso; lra).
    destruct (Qcompare_spec (x - inject_Z f) (1 # 2)) as [E' | L' | G'];
      try (exfalso; lra). reflexivity.
  - rewrite inject_Z_sub, inject_Z_opp in *. change (inject_Z 1) with 1 in *.
    assert (Z.even (- f - 1) = negb (Z.even f)) as Hev.
    { replace (- f - 1)%Z with (- (f + 1))%Z by ring.
      rewrite Z.even_opp, Z.even_add. simpl. now destruct (Z.even f). }
    destruct (Qcompare_spec (- x - (- inject_Z f - 1)) (1 # 2)) as [E | L | G];
      destruct (Qcompare_spec (x - inject_Z f) (1 # 2)) as [E' | L' | G'];
      try (exfalso; lra); rewrite ?Hev; try destruct (Z.even f); simpl; lia.
Qed.

(** *** The nearest float *)

Lemma pow2_lt_inv (a b : Z) : 2 ^ a < 2 ^ b -> (a < b)%Z.
Proof. intros H. apply (Qpower_lt_compat_l_inv 2); [exact H | reflexivity]. Qed.

Lemma pow2_le_inv (a b : Z) : 2 ^ a <= 2 ^ b -> (a <= b)%Z.
Proof. intros H. apply (Qpower_le_compat_l_inv 2); [exact H | reflexivity]. Qed.

Lemma binade_unique (q : Q) (k : Z) :
  0 < q -> 2 ^ k <= q < 2 ^ (k + 1) -> binade q = k.
Proof.
  intros Hq [H1 H2]. destruct (binade_spec q Hq) as [B1 B2].
  assert (binade q < k + 1)%Z
    by (apply pow2_lt_inv; eapply Qle_lt_trans; eassumption).
  assert (k < binade q + 1)%Z
    by (apply pow2_lt_inv; eapply Qle_lt_trans; eassumption).
  lia.
Qed.

Lemma binade_comp (x y : Q) : 0 < x -> x == y -> binade x = binade y.
Proof.
  intros Hx E. symmetry. apply binade_unique; [now rewrite <- E |].
  rewrite <- E. now apply binade_spec.
Qed.

Lemma Qabs_pos_nonzero (q : Q) : ~ q == 0 -> 0 < Qabs q.
Proof.
  intros H. apply Qabs_case; intros H0.
  - destruct (Qlt_le_dec 0 q) as [L | G]; [exact L |].
    elim H. now apply Qle_antisym.
  - destruct (Qlt_le_dec q 0) as [L | G]; [lra |].
    elim H. now apply Qle_antisym.
Qed.

Lemma ulp_exponent_comp (x y : Q) :
  ~ x == 0 -> x == y -> ulp_exponent x = ulp_exponent y.
Proof.
  intros Hx E. unfold ulp_exponent.
  rewrite (binade_comp (Qabs x) (Qabs y)); [reflexivity | | now rewrite E].
  now apply Qabs_pos_nonzero.
Qed.

Lemma round_comp (x y : Q) : x == y -> round x = round y.
Proof.
  intros E. unfold round.
  destruct (Qeq_bool x 0) eqn:Ex.
  - apply Qeq_bool_iff in Ex.
    assert (Qeq_bool y 0 = true) as -> by (apply Qeq_bool_iff; now rewrite <- E).
    reflexivity.
  - assert (~ x == 0) as Hx by (intros H; apply Qeq_bool_iff in H; congruence).
    assert (Qeq_bool y 0 = false) as ->.
    { destruct (Qeq_bool y 0) eqn:Ey; [| reflexivity].
      apply Qeq_bool_iff in Ey. elim Hx. now rewrite E. }
    cbv zeta. rewrite (ulp_exponent_comp x y Hx E).
    rewrite (round_half_even_comp (x / 2 ^ ulp_exponent y)
                                  (y / 2 ^ ulp_exponent y)); [reflexivity |].
    now rewrite E.
Qed.

Lemma round_zero : round 0 = 0.
Proof. reflexivity. Qed.

Lemma round_value (q : Q) :
  ~ q == 0 ->
  round q == inject_Z (round_half_even (q / 2 ^ ulp_exponent q))
             * 2 ^ ulp_exponent q.
Proof.
  intros H. unfold round.
  destruct (Qeq_bool q 0) eqn:E; [apply Qeq_bool_iff in E; now elim H |].
  cbv zeta. apply Qred_correct.
Qed.

Lemma ulp_exponent_opp (q : Q) : ulp_exponent (- q) = ulp_exponent q.
Proof.
  unfold ulp_exponent.
  assert (Qabs (- q) = Qabs q) as ->; [| reflexivity].
  destruct q as [[| p | p] d]; reflexivity.
Qed.

Lemma round_opp (q : Q) : round (- q) == - round q.
Proof.
  destruct (Qeq_dec q 0) as [E | N].
  - rewrite (round_comp (- q) 0), (round_comp q 0); [reflexivity | exact E |].
    rewrite E. reflexivity.
  - rewrite !round_value; [| exact N | intros H; apply N; lra].
    rewrite ulp_exponent_opp.
    rewrite (round_half_even_comp (- q / 2 ^ ulp_exponent q)
                                  (- (q / 2 ^ ulp_exponent q)))
      by (unfold Qdiv; ring).
    rewrite round_half_even_opp, inject_Z_opp. ring.
Qed.

Lemma div_pow2 (q : Q) (e : Z) : q / 2 ^ e * 2 ^ e == q.
Proof. field. apply Qpower_not_0, two_nonzero. Qed.

Lemma ulp_exponent_pos (q : Q) :
  0 < q -> ulp_exponent q = Z.max (binade q - 52) (-1074).
Proof.
  intros H. unfold ulp_exponent.
  rewrite (binade_comp (Qabs q) q); [reflexivity | | apply Qabs_pos; lra].
  apply Qabs_pos_nonzero. lra.
Qed.

Lemma round_nonneg (q : Q) : 0 <= q -> 0 <= round q.
Proof.
  intros H. destruct (Qeq_dec q 0) as [E | N].
  - rewrite (round_comp q 0 E). discriminate.
  - rewrite (round_value q N).
    apply Qmult_le_0_compat; [| apply Qlt_le_weak, pow2_pos].
    change 0 with (inject_Z 0). rewrite <- Zle_Qle.
    rewrite <- (round_half_even_int 0). apply round_half_even_mono.
    apply Qle_shift_div_l; [apply pow2_pos |]. now rewrite Qmult_0_l.
Qed.

(** A positive number rounds to at most the next power of two, and to no
    less than the previous one when it is not subnormal. *)
Lemma round_pos_upper (q : Q) :
  0 < q -> round q <= 2 ^ Z.max (binade q + 1) (ulp_exponent q).
Proof.
  intros H. assert (~ q == 0) as N by lra.
  destruct (binade_spec q H) as [_ Hup].
  rewrite (round_value q N).
  set (e := ulp_exponent q). set (b := binade q) in *.
  set (t := Z.max (b + 1 - e) 0).
  assert (Z.max (b + 1) e = t + e)%Z as -> by lia.
  rewrite pow2_add. apply Qmult_le_compat_r; [| apply Qlt_le_weak, pow2_pos].
  rewrite <- (pow2_Z t) by lia. rewrite <- Zle_Qle.
  rewrite <- (round_half_even_int (2 ^ t)). apply round_half_even_mono.
  rewrite (pow2_Z t) by lia.
  apply Qle_shift_div_r; [apply pow2_pos |].
  rewrite <- pow2_add. apply Qlt_le_weak.
  eapply Qlt_le_trans; [exact Hup |]. apply pow2_le. lia.
Qed.

Lemma round_pos_lower (q : Q) :
  0 < q -> ulp_exponent q = (binade q - 52)%Z -> 2 ^ binade q <= round q.
Proof.
  intros H He. assert (~ q == 0) as N by lra.
  destruct (binade_spec q H) as [Hlow _].
  rewrite (round_value q N), He.
  set (b := binade q) in *.
  assert (2 ^ b == inject_Z (2 ^ 52) * 2 ^ (b - 52)) as ->.
  { rewrite (pow2_Z 52) by lia. rewrite <- pow2_add.
    now replace (52 + (b - 52))%Z with b by ring. }
  apply Qmult_le_compat_r; [| apply Qlt_le_weak, pow2_pos].
  rewrite <- Zle_Qle.
  rewrite <- (round_half_even_int (2 ^ 52)) at 1. apply round_half_even_mono.
  rewrite (pow2_Z 52) by lia.
  apply Qle_shift_div_l; [apply pow2_pos |].
  rewrite <- pow2_add. now replace (52 + (b - 52))%Z with b by ring.
Qed.

Lemma round_mono_pos (x y : Q) : 0 < x -> x <= y -> round x <= round y.
Proof.
  intros Hx Hxy. assert (0 < y) as Hy by lra.
  assert (~ x == 0) as Nx by lra. assert (~ y == 0) as Ny by lra.
  destruct (binade_spec x Hx) as [Bx1 Bx2].
  destruct (binade_spec y Hy) as [By1 By2].
  assert (binade x <= binade y)%Z as Hb.
  { assert (binade x < binade y + 1)%Z; [| lia].
    apply pow2_lt_inv. lra. }
  pose proof (ulp_exponent_pos x Hx) as Ex.
  pose proof (ulp_exponent_pos y Hy) as Ey.
  destruct (Z.eq_dec (ulp_exponent x) (ulp_exponent y)) as [E | N].
  - rewrite (round_value x Nx), (round_value y Ny), E.
    apply Qmult_le_compat_r; [| apply Qlt_le_weak, pow2_pos].
    rewrite <- Zle_Qle. apply round_half_even_mono.
    apply Qmult_le_compat_r; [exact Hxy |].
    apply Qlt_le_weak, Qinv_lt_0_compat, pow2_pos.
  - eapply Qle_trans; [apply (round_pos_upper x Hx) |].
    eapply Qle_trans; [| apply (round_pos_lower y Hy); lia].
    apply pow2_le. lia.
Qed.

Lemma round_nonpos (q : Q) : q <= 0 -> round q <= 0.
Proof.
  intros H. assert (0 <= round (- q)) as H' by (apply round_nonneg; lra).
  rewrite round_opp in H'. lra.
Qed.

Lemma round_mono (x y : Q) : x <= y -> round x <= round y.
Proof.
  intros Hxy.
  destruct (Qlt_le_dec 0 x) as [Hx | Hx]; [now apply round_mono_pos |].
  destruct (Qlt_le_dec y 0) as [Hy | Hy].
  - assert (round (- y) <= round (- x)) as H
        by (apply round_mono_pos; lra).
    rewrite !round_opp in H. lra.
  - pose proof (round_nonpos x Hx). pose proof (round_nonneg y Hy). lra.
Qed.

(** The integers up to [2 ^ 53] are floats. *)
Lemma round_int_pos (z : Z) :
  (0 < z < 2 ^ 53)%Z -> round (inject_Z z) == inject_Z z.
Proof.
  intros [H0 H1]. pose proof (inject_Z_pos z H0) as Hq.
  assert (~ inject_Z z == 0) as N by lra.
  destruct (binade_spec _ Hq) as [B1 B2].
  assert (0 <= binade (inject_Z z) < 53)%Z as Hb.
  { split.
    - assert (2 ^ 0 < 2 ^ (binade (inject_Z z) + 1)) as H.
      { eapply Qle_lt_trans; [| exact B2]. change (2 ^ 0) with (inject_Z 1).
        rewrite <- Zle_Qle. lia. }
      apply pow2_lt_inv in H. lia.
    - apply pow2_lt_inv. eapply Qle_lt_trans; [exact B1 |].
      rewrite <- (pow2_Z 53) by lia. now rewrite <- Zlt_Qlt. }
  rewrite (round_value _ N), (ulp_exponent_pos _ Hq).
  set (b := binade (inject_Z z)) in *.
  replace (Z.max (b - 52) (-1074)) with (- (52 - b))%Z by lia.
  assert (inject_Z z / 2 ^ (- (52 - b)) == inject_Z (z * 2 ^ (52 - b))) as E.
  { rewrite inject_Z_mult, (pow2_Z (52 - b)) by lia.
    rewrite Qpower_opp. field. apply Qpower_not_0, two_nonzero. }
  rewrite (round_half_even_eq _ _ E).
  rewrite inject_Z_mult, (pow2_Z (52 - b)) by lia.
  rewrite Qpower_opp. field. apply Qpower_not_0, two_nonzero.
Qed.

Lemma round_int (z : Z) :
  (Z.abs z <= 2 ^ 53)%Z -> round (inject_Z z) == inject_Z z.
Proof.
  intros H.
  assert (forall p, (0 < p <= 2 ^ 53)%Z -> round (inject_Z p) == inject_Z p)
    as Hpos.
  { intros p Hp. destruct (Z.eq_dec p (2 ^ 53)) as [-> | Hne].
    - vm_compute. reflexivity.
    - apply round_int_pos. lia. }
  destruct (Z.lt_trichotomy z 0) as [L | [-> | G]].
  - rewrite (round_comp (inject_Z z) (- inject_Z (- z)))
      by (rewrite inject_Z_opp; ring).
    rewrite round_opp, Hpos by lia. rewrite inject_Z_opp. ring.
  - reflexivity.
  - apply Hpos. lia.
Qed.

(** The error of a rounding: half a unit of the last place. *)
Lemma round_near (q : Q) :
  Qabs (round q - q) <= 2 ^ (ulp_exponent q - 1).
Proof.
  destruct (Qeq_dec q 0) as [E | N].
  - rewrite (round_comp q 0 E).
    assert (round 0 - q == 0) as -> by (rewrite E; reflexivity).
    apply Qlt_le_weak, pow2_pos.
  - rewrite (round_value q N).
    set (e := ulp_exponent q).
    pose proof (round_half_even_near (q / 2 ^ e)) as [H1 H2].
    pose proof (pow2_pos e) as He.
    set (m := inject_Z (round_half_even (q / 2 ^ e))) in *.
    assert (2 ^ (e - 1) == 2 ^ e * (1 # 2)) as ->.
    { unfold Z.sub. rewrite pow2_add. reflexivity. }
    assert (m * 2 ^ e - q == (m - q / 2 ^ e) * 2 ^ e) as ->
        by (field; apply Qpower_not_0, two_nonzero).
    assert (- (1 # 2) <= m - q / 2 ^ e <= 1 # 2) as Hd by (split; lra).
    revert Hd He. generalize (m - q / 2 ^ e) as d, (2 ^ e) as p.
    intros d p Hd Hp. apply Qabs_case; intros _; nra.
Qed.

Lemma ulp_exponent_le (q : Q) (k : Z) :
  ~ q == 0 -> Qabs q <= 2 ^ k -> (-1022 <= k)%Z ->
  (ulp_exponent q <= k - 52)%Z.
Proof.
  intros N Hq Hk. unfold ulp_exponent.
  destruct (binade_spec _ (Qabs_pos_nonzero q N)) as [B1 _].
  assert (binade (Qabs q) <= k)%Z by (apply pow2_le_inv; lra).
  lia.
Qed.

Lemma round_error (q : Q) (k : Z) :
  Qabs q <= 2 ^ k -> (-1022 <= k)%Z -> Qabs (round q - q) <= 2 ^ (k - 53).
Proof.
  intros Hq Hk. destruct (Qeq_dec q 0) as [E | N].
  - rewrite (round_comp q 0 E).
    assert (round 0 - q == 0) as -> by (rewrite E; reflexivity).
    apply Qlt_le_weak, pow2_pos.
  - eapply Qle_trans; [apply round_near |]. apply pow2_le.
    pose proof (ulp_exponent_le q k N Hq Hk). lia.
Qed.

(** *** Counts, shares and percentages in floats *)

Lemma round_in_range (q : Q) (c k : Z) :
  (0 <= c <= 2 ^ 53)%Z -> inject_Z c <= 2 ^ k -> (-1022 <= k)%Z ->
  0 <= q <= inject_Z c ->
  0 <= round q <= inject_Z c /\ Qabs (round q - q) <= 2 ^ (k - 53).
Proof.
  intros Hc Hk Hk' [H0 H1]. split; [split |].
  - now apply round_nonneg.
  - rewrite <- (round_int c) by (rewrite Z.abs_eq; lia). now apply round_mono.
  - apply round_error; [| exact Hk'].
    rewrite Qabs_pos by exact H0. lra.
Qed.

Lemma Qnat_le (a b : nat) : (a <= b)%nat -> Qnat a <= Qnat b.
Proof. intros H. unfold Qnat. rewrite <- Zle_Qle. lia. Qed.

Lemma Qnat_pos (a : nat) : (0 < a)%nat -> 0 < Qnat a.
Proof. intros H. apply inject_Z_pos. lia. Qed.

Lemma Qnat_nonneg (a : nat) : 0 <= Qnat a.
Proof. unfold Qnat. change 0 with (inject_Z 0). rewrite <- Zle_Qle. lia. Qed.

Lemma of_count_le (a b : nat) : (a <= b)%nat -> of_count a <= of_count b.
Proof. intros H. apply round_mono. now apply Qnat_le. Qed.

Lemma of_count_nonneg (a : nat) : 0 <= of_count a.
Proof. apply round_nonneg, Qnat_nonneg. Qed.

Lemma of_count_pos (a : nat) : (0 < a)%nat -> 1 <= of_count a.
Proof.
  intros H. change 1 with (round (inject_Z 1)). apply round_mono.
  rewrite <- Zle_Qle. lia.
Qed.

Lemma of_count_is_zero (n : nat) : Qeq_bool (of_count n) 0 = (n =? 0)%nat.
Proof.
  destruct n as [| n]; [reflexivity |].
  pose proof (of_count_pos (S n) ltac:(lia)) as H.
  destruct (Qeq_bool (of_count (S n)) 0) eqn:E; [| reflexivity].
  apply Qeq_bool_iff in E. lra.
Qed.

Lemma of_count_exact (n : nat) :
  (Z.of_nat n <= 2 ^ 53)%Z -> of_count n == Qnat n.
Proof. intros H. apply round_int. rewrite Z.abs_eq; lia. Qed.

Lemma quotient_range (a b : Q) : 0 <= a -> a <= b -> 0 < b -> 0 <= a / b <= 1.
Proof.
  intros Ha Hab Hb. split.
  - apply Qle_shift_div_l; [exact Hb | lra].
  - apply Qle_shift_div_r; [exact Hb | lra].
Qed.

(** The share of a count, as a float: between 0 and 1. *)
Lemma float_share_range (a b : nat) :
  (a <= b)%nat -> (0 < b)%nat ->
  0 <= Float64.div (of_count a) (of_count b) <= 1.
Proof.
  intros Hab Hb.
  pose proof (of_count_le a b Hab) as Hle.
  pose proof (of_count_nonneg a) as Hnn.
  pose proof (of_count_pos b Hb) as Hpos.
  destruct (quotient_range (of_count a) (of_count b)) as [H0 H1]; try lra.
  unfold Float64.div. split.
  - now apply round_nonneg.
  - change 1 with (round 1). now apply round_mono.
Qed.

Lemma float_share_near (a b : nat) :
  (a <= b)%nat -> (0 < b)%nat -> (Z.of_nat b <= 2 ^ 53)%Z ->
  Qabs (Float64.div (of_count a) (of_count b) - Qnat a / Qnat b)
  <= 2 ^ (- 53).
Proof.
  intros Hab Hb Hexact. unfold Float64.div.
  rewrite (round_comp (of_count a / of_count b) (Qnat a / Qnat b))
    by (rewrite !of_count_exact by lia; reflexivity).
  pose proof (Qnat_le a b Hab). pose proof (Qnat_nonneg a).
  pose proof (Qnat_pos b Hb).
  apply (round_in_range _ 1 0); [lia | discriminate | lia |].
  now apply quotient_range.
Qed.

Lemma completeness_float_range (rows cols missing : nat) :
  (missing <= rows * cols)%nat -> (0 < rows * cols)%nat ->
  0 <= completeness_float rows cols missing <= 100.
Proof.
  intros Hm Hn. unfold completeness_float.
  destruct (float_share_range missing (rows * cols) Hm Hn) as [H0 H1].
  set (x := Float64.div _ _) in *.
  assert (0 <= Float64.sub 1 x <= 1) as [Hy0 Hy1].
  { unfold Float64.sub. split.
    - apply round_nonneg. lra.
    - change 1 with (round 1) at 2. apply round_mono. lra. }
  unfold Float64.mul. split.
  - apply round_nonneg. lra.
  - change 100 with (round 100) at 2. apply round_mono. lra.
Qed.

Lemma Qabs_le_iff (x e : Q) : Qabs x <= e <-> - e <= x <= e.
Proof. apply Qabs_Qle_condition. Qed.

Lemma pow2_m53 : 2 ^ (- 53) == 1 # 9007199254740992.
Proof. reflexivity. Qed.

Lemma pow2_m46 : 2 ^ (7 - 53) == 1 # 70368744177664.
Proof. reflexivity. Qed.

Lemma pow2_m39 : 2 ^ (14 - 53) == 1 # 549755813888.
Proof. reflexivity. Qed.

Ltac in_range_side :=
  match goal with |- context [inject_Z ?c] => change (inject_Z c) with (c # 1) end;
  split; lra.

(** The completeness in floats is the exact one, up to the rounding of
    its three operations. *)
Lemma completeness_float_near (rows cols missing : nat) :
  (missing <= rows * cols)%nat -> (0 < rows * cols)%nat ->
  (Z.of_nat (rows * cols) <= 2 ^ 53)%Z ->
  Qabs (completeness_float rows cols missing
        - completeness_spec rows cols missing)
  <= 1 # 1000000000000.
Proof.
  intros Hm Hn Hexact. unfold completeness_float, completeness_spec.
  destruct (float_share_range missing (rows * cols) Hm Hn) as [H0 H1].
  pose proof (float_share_near missing (rows * cols) Hm Hn Hexact) as Hx.
  rewrite pow2_m53 in Hx. apply Qabs_le_iff in Hx.
  generalize dependent (Float64.div (of_count missing)
                                    (of_count (rows * cols))).
  generalize (Qnat missing / Qnat (rows * cols)) as exact.
  intros exact x H0 H1 Hx.
  destruct (round_in_range (1 - x) 1 0) as [[Hy0 Hy1] Hy];
    [lia | discriminate | lia | in_range_side |].
  rewrite pow2_m53 in Hy. apply Qabs_le_iff in Hy.
  change (inject_Z 1) with 1 in Hy1. fold (Float64.sub 1 x) in *.
  generalize dependent (Float64.sub 1 x). intros y Hy0 Hy1 Hy.
  destruct (round_in_range (y * 100) 100 7) as [_ Hz];
    [lia | discriminate | lia | in_range_side |].
  rewrite pow2_m46 in Hz. apply Qabs_le_iff in Hz.
  fold (Float64.mul y 100) in *.
  generalize dependent (Float64.mul y 100). intros z Hz.
  apply Qabs_le_iff. split; lra.
Qed.

(** A percentage of the frequency table: the float nearest to a whole
    number of hundredths, which is the share of the count up to half a
    hundredth and the rounding of the operations. *)
Lemma percentage_near (count rows : nat) :
  (count <= rows)%nat -> (0 < rows)%nat -> (Z.of_nat rows <= 2 ^ 53)%Z ->
  exists k : Z,
    (0 <= k <= 10000)%Z
    /\ percentage count rows = round (inject_Z k / 100)
    /\ Qabs (inject_Z k / 100 - (Qnat count / Qnat rows * 100))
       <= (1 # 200) + (1 # 1000000000000)
    /\ Qabs (percentage count rows - (Qnat count / Qnat rows * 100))
       <= (1 # 200) + (1 # 1000000000000)
    /\ 0 <= percentage count rows <= 100.
Proof.
  intros Hm Hn Hexact. unfold percentage, round2.
  destruct (float_share_range count rows Hm Hn) as [H0 H1].
  pose proof (float_share_near count rows Hm Hn Hexact) as Hx.
  rewrite pow2_m53 in Hx. apply Qabs_le_iff in Hx.
  generalize dependent (Float64.div (of_count count) (of_count rows)).
  generalize (Qnat count / Qnat rows) as exact.
  intros exact x H0 H1 Hx.
  destruct (round_in_range (x * 100) 100 7) as [[Hy0 Hy1] Hy];
    [lia | discriminate | lia | in_range_side |].
  rewrite pow2_m46 in Hy. apply Qabs_le_iff in Hy.
  change (inject_Z 100) with 100 in Hy1. fold (Float64.mul x 100) in *.
  generalize dependent (Float64.mul x 100). intros y Hy0 Hy1 Hy.
  destruct (round_in_range (y * 100) 10000 14) as [[Ht0 Ht1] Ht];
    [lia | discriminate | lia | in_range_side |].
  rewrite pow2_m39 in Ht. apply Qabs_le_iff in Ht.
  change (inject_Z 10000) with 10000 in Ht1. fold (Float64.mul y 100) in *.
  generalize dependent (Float64.mul y 100). intros t Ht0 Ht1 Ht.
  pose proof (round_half_even_near t) as [Hr0 Hr1].
  assert (0 <= round_half_even t <= 10000)%Z as Hk.
  { split.
    - rewrite <- (round_half_even_int 0). now apply round_half_even_mono.
    - rewrite <- (round_half_even_int 10000). now apply round_half_even_mono. }
  generalize dependent (round_half_even t). intros k Hr0 Hr1 Hk.
  assert (0 <= inject_Z k <= 10000) as [Hk0 Hk1].
  { split; [change 0 with (inject_Z 0) | change 10000 with (inject_Z 10000)];
      rewrite <- Zle_Qle; lia. }
  assert (inject_Z k / 100 * 100 == inject_Z k) as Hq by field.
  destruct (round_in_range (inject_Z k / 100) 100 7) as [[Hp0 Hp1] Hp];
    [lia | discriminate | lia | |].
  { change (inject_Z 100) with 100. split.
    - apply Qle_shift_div_l; [reflexivity | lra].
    - apply Qle_shift_div_r; [reflexivity | lra]. }
  rewrite pow2_m46 in Hp. apply Qabs_le_iff in Hp.
  change (inject_Z 100) with 100 in Hp1.
  exists k. split; [exact Hk |]. split; [reflexivity |].
  fold (Float64.div (inject_Z k) 100) in *.
  generalize dependent (Float64.div (inject_Z k) 100).
  generalize dependent (inject_Z k / 100). generalize dependent (inject_Z k).
  intros kq Hr0 Hr1 Hk0 Hk1 h Hq p Hp0 Hp1 Hp.
  split; [apply Qabs_le_iff; split; lra |].
  split; [apply Qabs_le_iff; split; lra |].
  split; assumption.
Qed.

End FloatFacts.

(** [Float64] computes what the specification of IEEE 754 computes: on
    every quotient of two counts up to 60, and on integers beyond
    [2^53]. *)
Lemma float64_by_the_book :
  forallb (fun b => forallb (fun a => floats_agree a b) (0%Z :: up_to 60))
          (up_to 60) = true
  /\ floats_agree 9007199254740993 3 = true
  /\ floats_agree 1 9007199254740993 = true
  /\ floats_agree 123456789012345678 987654321 = true.
Proof. vm_compute. auto. Qed.

(** ** The summary: completeness *)

Lemma rows_need_columns (df : DataFrame) :
  (0 < len df)%nat -> (0 < length (columns df))%nat.
Proof. destruct df; simpl; lia. Qed.

Lemma completeness_with_rows (df : DataFrame) :
  (0 < len df)%nat ->
  completeness df
  = Ok (Some (completeness_float (len df) (length (columns df))
                                 (missing_count df))).
Proof.
  intros Hrows. pose proof (rows_need_columns df Hrows) as Hcols.
  unfold completeness, divide.
  destruct (Nat.ltb_spec 0 (len df)) as [_ | ?]; [| lia].
  rewrite of_count_is_zero.
  destruct (Nat.eqb_spec (len df * length (columns df)) 0) as [E | _];
    [nia | reflexivity].
Qed.

Lemma completeness_without_rows (df : DataFrame) :
  len df = 0%nat -> completeness df = Ok None.
Proof. intros E. unfold completeness. now rewrite E. Qed.

Lemma missing_count_le (df : DataFrame) (n : nat) :
  Forall (fun c => length (values (snd c)) = n) df ->
  (missing_count df <= n * length (columns df))%nat.
Proof.
  unfold missing_count, columns, null_count.
  induction 1 as [| c df Hc _ IH]; simpl; [lia |].
  pose proof (filter_length_le isnull (values (snd c))). lia.
Qed.

(** C3, as the code has it.  A frame with at least one row gets the
    completeness [(1 - missing / (rows * columns)) * 100] with each of the
    three operations on floats; for a well-formed frame of at most [2^53]
    cells this float is within [10^-12] of the exact value of the formula.
    A frame for which [rows * columns] is zero gets no completeness at all,
    so that no division by zero takes place; and a frame of 10 rows and 2
    columns with 3 missing cells shows [85.0%]. *)
Theorem completeness_formula_guarded (df : DataFrame) :
  ((0 < len df)%nat ->
   completeness df
   = Ok (Some (completeness_float (len df) (length (columns df))
                                  (missing_count df))))
  /\ (well_formed df -> (0 < len df)%nat ->
      (Z.of_nat (len df * length (columns df)) <= 2 ^ 53)%Z ->
      (Qabs (completeness_float (len df) (length (columns df))
                                (missing_count df)
             - completeness_spec (len df) (length (columns df))
                                 (missing_count df))
       <= 1 # 1000000000000)%Q)
  /\ ((len df * length (columns df) = 0)%nat -> completeness df = Ok None)
  /\ completeness df <> Raises DivisionByZero
  /\ (len df = 10%nat -> length (columns df) = 2%nat ->
      missing_count df = 3%nat ->
      completeness_metric df = Ok (Some "85.0%")).
Proof.
  split; [apply completeness_with_rows |]. split; [| split; [| split]].
  - intros [_ [Hlen _]] Hrows Hcells.
    pose proof (rows_need_columns df Hrows).
    apply completeness_float_near;
      [now apply missing_count_le | nia | exact Hcells].
  - intros E. apply completeness_without_rows.
    destruct (Nat.eq_dec (len df) 0) as [E0 | N0]; [exact E0 |].
    pose proof (rows_need_columns df ltac:(lia)). nia.
  - destruct (Nat.eq_dec (len df) 0) as [E0 | N0].
    + now rewrite completeness_without_rows.
    + rewrite completeness_with_rows by lia. discriminate.
  - intros Hr Hc Hm. unfold completeness_metric.
    rewrite completeness_with_rows by lia. rewrite Hr, Hc, Hm.
    vm_compute. reflexivity.
Qed.

Lemma completeness_formula_guarded_witness :
  completeness ten_by_two = Ok (Some 85%Q)
  /\ completeness_metric ten_by_two = Ok (Some "85.0%")
  /\ (Qabs (completeness_float 10 2 3 - completeness_spec 10 2 3)
      <= 1 # 1000000000000)%Q
  /\ completeness [] = Ok None.
Proof.
  assert (well_formed ten_by_two) as Hwf
      by (split; [| split]; repeat constructor; simpl; intuition discriminate).
  destruct (completeness_formula_guarded ten_by_two)
    as [Hv [Hnear [_ [_ Hshown]]]].
  split; [| split; [| split]].
  - rewrite Hv by (simpl; lia). vm_compute. reflexivity.
  - apply Hshown; reflexivity.
  - apply (Hnear Hwf); [simpl; lia | vm_compute; discriminate].
  - apply (proj1 (proj2 (proj2 (completeness_formula_guarded [])))).
    reflexivity.
Defined.

(** The float is not the exact value: with 29 of 80 cells missing the
    formula gives 63.75, the floats give a number just below it, and the
    page shows 63.7 where the exact value would show 63.8. *)
Lemma completeness_is_a_float :
  exists v,
    completeness gaps_29_of_80 = Ok (Some v)
    /\ len gaps_29_of_80 = 20%nat
    /\ length (columns gaps_29_of_80) = 4%nat
    /\ missing_count gaps_29_of_80 = 29%nat
    /\ (completeness_spec 20 4 29 == 6375 # 100)%Q
    /\ (v < completeness_spec 20 4 29)%Q
    /\ completeness_metric gaps_29_of_80 = Ok (Some "63.7%")
    /\ format_1f (completeness_spec 20 4 29) = "63.8".
Proof.
  eexists. split; [vm_compute; reflexivity |].
  repeat (split; [reflexivity |]). reflexivity.
Qed.

(** X2.  The completeness of a well-formed frame is a percentage: it
    lies between 0 and 100. *)
Lemma completeness_range (df : DataFrame) (q : Q) :
  well_formed df -> completeness df = Ok (Some q) -> (0 <= q <= 100)%Q.
Proof.
  intros [_ [Hlen _]] H.
  destruct (Nat.eq_dec (len df) 0) as [E0 | N0].
  - unfold completeness in H. rewrite E0 in H. discriminate.
  - rewrite completeness_with_rows in H by lia.
    injection H as <-.
    pose proof (rows_need_columns df ltac:(lia)).
    apply completeness_float_range; [now apply missing_count_le | nia].
Qed.

Lemma completeness_range_witness :
  (0 <= completeness_float 10 2 3 <= 100)%Q.
Proof.
  apply (completeness_range ten_by_two); [| reflexivity].
  split; [| split]; repeat constructor; simpl; intuition discriminate.
Defined.

(** ** The address analysis: valid, unique and duplicated values *)

(** X3.  The duplicate count is never negative: a column has at most as
    many distinct values as cells that are not missing. *)
Lemma duplicates_nonneg (s : Series) : (0 <= duplicates (analyze_series s))%Z.
Proof.
  simpl. unfold nunique.
  pose proof (unique_length_le scalar_eqb (dropna (values s))). lia.
Qed.

(** C6.  For every frame and every column analysed, the unique count and
    the duplicate count add up to the valid count: the valid count is the
    number of cells that are not missing, the unique count the number of
    distinct values among them, and the duplicate count their
    difference. *)
Theorem unique_plus_duplicates_is_valid
        (df : DataFrame) (col : string) (a : column_analysis) :
  analyze_column df col = Ok a ->
  (unique_values a + duplicates a = total a)%Z
  /\ duplicates a = (total a - unique_values a)%Z
  /\ exists s, get_column df col = Ok s
               /\ total a = Z.of_nat (length (dropna (values s)))
               /\ unique_values a = Z.of_nat (nunique s).
Proof.
  unfold analyze_column. destruct (get_column df col) as [s | e |] eqn:E;
    simpl; try discriminate.
  intros H. injection H as <-. simpl. split; [lia |]. split; [reflexivity |].
  now exists s.
Qed.

Lemma unique_plus_duplicates_is_valid_witness :
  exists a,
    analyze_column repeated_addresses "direccion" = Ok a
    /\ total a = 3%Z /\ unique_values a = 2%Z /\ duplicates a = 1%Z
    /\ (unique_values a + duplicates a = total a)%Z.
Proof.
  eexists. split; [reflexivity |]. repeat (split; [reflexivity |]).
  apply (unique_plus_duplicates_is_valid repeated_addresses "direccion").
  reflexivity.
Defined.

(** ** The search filter *)

(** The search with the expressions of the fragment, spelled out. *)
Lemma str_contains_eq (pat : string) (texts : list string) :
  str_contains pat texts
  = match Re.compile pat with
    | Re.Compiled r => Ok (map (Re.search r) texts)
    | Re.Error => Raises ReError
    | Re.Beyond => Unmodelled
    end.
Proof.
  unfold str_contains, str_contains_by, fragment.
  now destruct (Re.compile pat).
Qed.

Lemma search_mask_cons (term name : string) (s : Series) (rest : DataFrame)
      (m : mask) :
  search_mask term ((name, s) :: rest) m
  = (bits <- str_contains term (map (astype_str (dtype_of s)) (values s)) ;;
     search_mask term rest (mask_or m bits)).
Proof. reflexivity. Qed.

Lemma search_rows_eq (display_df : DataFrame) (search_term : string) :
  search_rows display_df search_term
  = if String.eqb search_term EmptyString then Ok display_df
    else
      m <- search_mask search_term (select_dtypes_object display_df) MFalse ;;
      select_rows display_df m.
Proof. reflexivity. Qed.

Lemma display_frame_eq (df : DataFrame) (columns_to_show : list string)
      (search_term : string) :
  display_frame df columns_to_show search_term
  = (display_df <- show_columns df columns_to_show ;;
     search_rows display_df search_term).
Proof. reflexivity. Qed.

(** C9.  On the frame whose address column holds [Calle Mayor 5] and
    [Av. Libertad], the search term [mayor] keeps the first row and only
    it, whatever the case of the term and whether the column is shown by
    default or picked. *)
Theorem search_mayor_keeps_first_row (label : string) :
  display_frame (two_addresses label) [] "mayor" = Ok (first_address label)
  /\ display_frame (two_addresses label) [] "MAYOR" = Ok (first_address label)
  /\ display_frame (two_addresses label) [label] "mayor"
     = Ok (first_address label).
Proof.
  rewrite !display_frame_eq. unfold show_columns, two_addresses; simpl.
  rewrite String.eqb_refl. repeat split.
Qed.

(** C1.  Three inputs on which the search filter departs from the claim.
    The term [nan] keeps the row whose address is missing, and drops the
    other one: [astype(str)] has turned the missing cell into the text
    [nan] before [na=False] could exclude it.  On a frame on display
    without text columns [mask] is still [False] after the loop, and
    [display_df[False]] raises [KeyError].  The term [(] is not a regular
    expression, and [str.contains] raises [re.error]. *)
Theorem search_filter_departures :
  display_frame address_and_gap [] "nan"
  = Ok [("direccion", mkSeries Object [NaN])]
  /\ display_frame numbers_only [] "28001" = Raises KeyError
  /\ display_frame address_and_gap [] "(" = Raises ReError.
Proof. repeat split. Qed.

(** The second and the third departure, in general. *)
Lemma search_without_text_columns (display_df : DataFrame) (term : string) :
  term <> EmptyString -> select_dtypes_object display_df = [] ->
  search_rows display_df term = Raises KeyError.
Proof.
  intros Hterm Hnone. rewrite search_rows_eq.
  destruct (String.eqb_spec term EmptyString) as [E | _]; [now elim Hterm |].
  now rewrite Hnone.
Qed.

Lemma search_with_bad_pattern (display_df : DataFrame) (term : string) :
  term <> EmptyString -> select_dtypes_object display_df <> [] ->
  Re.compile term = Re.Error ->
  search_rows display_df term = Raises ReError.
Proof.
  intros Hterm Hsome Hbad. rewrite search_rows_eq.
  destruct (String.eqb_spec term EmptyString) as [E | _]; [now elim Hterm |].
  destruct (select_dtypes_object display_df) as [| [name s] cols];
    [now elim Hsome |].
  rewrite search_mask_cons, str_contains_eq. now rewrite Hbad.
Qed.

(** ** Display and export *)

Lemma head_rows_len (n : nat) (df : DataFrame) :
  len (head_rows n df) = Nat.min n (len df).
Proof.
  destruct df as [| [name s] df]; simpl; [now rewrite Nat.min_0_r |].
  apply length_firstn.
Qed.

Lemma csv_records_length (df : DataFrame) :
  length (csv_records df) = S (len df).
Proof. unfold csv_records. simpl. now rewrite length_map, length_seq. Qed.

(** ** Tokens *)

Lemma run_is_token (x : ascii) (cur : list ascii) :
  Forall token_char (x :: cur) ->
  Token (string_of_list_ascii (rev (x :: cur))).
Proof.
  intros H. split.
  - intros E. apply (f_equal list_ascii_of_string) in E.
    rewrite list_ascii_of_string_of_list_ascii in E.
    apply (f_equal (@length _)) in E. rewrite length_rev in E. discriminate.
  - unfold chars. rewrite list_ascii_of_string_of_list_ascii.
    now apply Forall_rev.
Qed.

Lemma split_from_tokens (cur : list ascii) (s : string) :
  Forall token_char cur ->
  Forall (fun c => Text.lower_char c = c) (chars s) ->
  Forall Token (Text.split_from cur s).
Proof.
  revert cur. induction s as [| c s IH]; intros cur Hcur Hs.
  - destruct cur as [| x cur]; cbn [Text.split_from]; constructor;
      [now apply run_is_token | constructor].
  - inversion Hs as [| ? ? Hc Hs']; subst. cbn [Text.split_from].
    destruct (Text.is_space c) eqn:Sp.
    + destruct cur as [| x cur]; [now apply IH |].
      constructor; [now apply run_is_token | now apply IH].
    + apply IH; [| exact Hs']. constructor; [now split | exact Hcur].
Qed.

Lemma lower_chars (s : string) :
  Forall (fun c => Text.lower_char c = c) (chars (Text.lower s)).
Proof.
  induction s as [| c s IH]; simpl; constructor; [| exact IH].
  apply lower_char_idem.
Qed.

Lemma token_lower (t : string) : Token t -> Text.lower t = t.
Proof.
  intros [_ H]. induction t as [| c t IH]; [reflexivity |].
  inversion H as [| ? ? [_ Hc] Ht]; subst. simpl. now rewrite Hc, IH.
Qed.

Lemma split_from_app (cur : list ascii) (a b : string) :
  Text.split_from cur (a ++ String " " b)
  = (Text.split_from cur a ++ Text.split b)%list.
Proof.
  revert cur. induction a as [| c a IH]; intros cur.
  - simpl. now destruct cur.
  - simpl. destruct (Text.is_space c).
    + destruct cur; now rewrite IH.
    + apply IH.
Qed.

(** The tokens of the joined text are the tokens of the parts. *)
Lemma split_join (parts : list string) :
  Text.split (Text.join " " parts) = flat_map Text.split parts.
Proof.
  unfold Text.join. induction parts as [| a parts IH]; [reflexivity |].
  destruct parts as [| b parts].
  - simpl. now rewrite app_nil_r.
  - change (String.concat " " (a :: b :: parts))
      with (a ++ String " " (String.concat " " (b :: parts))).
    unfold Text.split at 1. rewrite split_from_app. now rewrite IH.
Qed.

Lemma tokens_by_value (s : Series) :
  tokens s
  = flat_map (fun v => Text.split (Text.lower (astype_str (dtype_of s) v)))
             (dropna (values s)).
Proof.
  unfold tokens. rewrite split_join, map_map.
  induction (dropna (values s)) as [| v l IH]; simpl; congruence.
Qed.

Lemma tokens_are_tokens (s : Series) : Forall Token (tokens s).
Proof.
  rewrite tokens_by_value. apply Forall_flat_map, Forall_forall.
  intros v _. apply split_from_tokens; [constructor | apply lower_chars].
Qed.

(** ** The head of a sorted list *)

Lemma head_length {A : Type} (n : nat) (l : list A) :
  length (head n l) = Nat.min n (length l).
Proof. apply length_firstn. Qed.

Lemma head_In {A : Type} (n : nat) (l : list A) (x : A) :
  In x (head n l) -> In x l.
Proof.
  intros H. rewrite <- (firstn_skipn n l). apply in_or_app. now left.
Qed.

Lemma head_sorted {A : Type} (R : A -> A -> Prop) (n : nat) (l : list A) :
  StronglySorted R l -> StronglySorted R (head n l).
Proof.
  intros H. revert n. induction H as [| x l Hl IH Hx]; intros [| n]; simpl;
    try constructor.
  - apply IH.
  - rewrite Forall_forall in *. intros y Hy. apply Hx.
    now apply head_In in Hy.
Qed.

(** What the head leaves out comes after all that it keeps. *)
Lemma head_top {A : Type} (R : A -> A -> Prop) (n : nat) (l : list A) :
  StronglySorted R l ->
  forall x y, In x (head n l) -> In y l -> ~ In y (head n l) -> R x y.
Proof.
  intros H. revert n. induction H as [| z l Hl IH Hz]; intros n x y Hx Hy Hn.
  - destruct n; contradiction.
  - destruct n as [| n]; [contradiction |].
    simpl in Hx, Hn. destruct Hy as [-> | Hy]; [tauto |].
    destruct Hx as [-> | Hx].
    + rewrite Forall_forall in Hz. now apply Hz.
    + apply (IH n); tauto.
Qed.

Lemma head_NoDup {A : Type} (n : nat) (l : list A) :
  NoDup l -> NoDup (head n l).
Proof.
  intros H. rewrite <- (firstn_skipn n l) in H.
  now apply NoDup_app_remove_r in H.
Qed.

Lemma head_sum_le (n : nat) (l : list nat) :
  (list_sum (head n l) <= list_sum l)%nat.
Proof.
  rewrite <- (firstn_skipn n l) at 2. rewrite list_sum_app.
  unfold head. lia.
Qed.

Lemma head_map {A B : Type} (f : A -> B) (n : nat) (l : list A) :
  map f (head n l) = head n (map f l).
Proof. symmetry. apply firstn_map. Qed.

(** ** The most common words *)

(** C5.  For every frame and every column analysed, the tokens are the
    lowercase, white-space delimited words of the cells that are not
    missing.  [common_words] holds at most ten of them, all of them when
    there are no more than ten distinct ones: each with the number of
    times it occurs, no word twice, most frequent first, and no word left
    out occurs more often than a word kept.  Words of one or two
    characters are counted and take their places among the ten; the list
    written out is the ten without them, in the same order, and the
    chart is handed the first five of the ten.  It shows them as its bars
    when the column has a token; when it has none (every cell is missing
    or blank) the five are none and [px.bar] raises [ValueError]. *)
Theorem common_words_top_ten
        (df : DataFrame) (col : string) (a : column_analysis) :
  analyze_column df col = Ok a ->
  exists s,
    get_column df col = Ok s
    /\ tokens s
       = flat_map (fun v => Text.split (Text.lower (astype_str (dtype_of s) v)))
                  (dropna (values s))
    /\ Forall Token (tokens s)
    /\ length (common_words a)
       = Nat.min 10 (length (unique String.eqb (tokens s)))
    /\ NoDup (map fst (common_words a))
    /\ StronglySorted by_count_desc (common_words a)
    /\ (forall w n, In (w, n) (common_words a) ->
                    In w (tokens s) /\ n = count String.eqb w (tokens s))
    /\ (forall w w' n, In w (tokens s) -> ~ In w (map fst (common_words a)) ->
                       In (w', n) (common_words a) ->
                       (count String.eqb w (tokens s) <= n)%nat)
    /\ listed_words a
       = filter (fun wc => (2 <? String.length (fst wc))%nat) (common_words a)
    /\ (forall w n, In (w, n) (listed_words a)
                    <-> In (w, n) (common_words a)
                        /\ (2 < String.length w)%nat)
    /\ chart_words a = head 5 (common_words a)
    /\ length (chart_words a)
       = Nat.min 5 (length (unique String.eqb (tokens s)))
    /\ (tokens s <> [] -> chart a = Ok (chart_words a))
    /\ (tokens s = [] ->
        common_words a = [] /\ listed_words a = [] /\ chart_words a = []
        /\ chart a = Raises ValueError).
Proof.
  unfold analyze_column. destruct (get_column df col) as [s | e |] eqn:E;
    cbn [bind]; try discriminate.
  intros H. injection H as <-. exists s. cbn [common_words listed_words
    chart_words chart analyze_series].
  pose proof String.eqb_eq as Heq.
  set (vc := value_counts_of String.eqb (tokens s)).
  assert (length (head 10 vc)
          = Nat.min 10 (length (unique String.eqb (tokens s)))) as Hlen
      by (now rewrite head_length; unfold vc; rewrite value_counts_length).
  assert (length (head 5 (head 10 vc))
          = Nat.min 5 (length (unique String.eqb (tokens s)))) as H5
      by (rewrite head_length, Hlen; lia).
  split; [reflexivity |]. split; [apply tokens_by_value |].
  split; [apply tokens_are_tokens |].
  split; [exact Hlen |].
  split; [rewrite head_map; apply head_NoDup, value_counts_NoDup, Heq |].
  split; [apply head_sorted, value_counts_sorted |].
  split; [| split; [| split; [reflexivity | split;
    [| split; [reflexivity | split; [exact H5 | split]]]]]].
  - intros w n Hin. apply head_In in Hin.
    now apply (value_counts_In _ Heq) in Hin.
  - intros w w' n Hw Hout Hin.
    apply (head_top by_count_desc 10 vc (value_counts_sorted _ _)
                    (w', n) (w, count String.eqb w (tokens s))).
    + exact Hin.
    + now apply (value_counts_In _ Heq).
    + intros Hin'. apply Hout. apply in_map_iff.
      now exists (w, count String.eqb w (tokens s)).
  - intros w n. unfold is_long. rewrite filter_In. simpl.
    now rewrite Nat.ltb_lt.
  - intros Htok.
    destruct (head 5 (head 10 vc)) as [| bar bars]; [| reflexivity].
    exfalso. destruct (tokens s) as [| t ts]; [now apply Htok |].
    cbn [unique length] in H5. lia.
  - intros Htok. unfold vc. rewrite Htok. repeat split; reflexivity.
Qed.

Lemma common_words_top_ten_witness :
  (exists a,
      analyze_column words_by_rank "direccion" = Ok a
      /\ common_words a
         = [("de", 11); ("calle", 10); ("la", 9); ("mayor", 8); ("el", 7);
            ("plaza", 6); ("sol", 5); ("a", 4); ("norte", 3); ("sur", 2)]%nat
      /\ listed_words a
         = [("calle", 10); ("mayor", 8); ("plaza", 6); ("sol", 5);
            ("norte", 3); ("sur", 2)]%nat
      /\ chart a
         = Ok [("de", 11); ("calle", 10); ("la", 9); ("mayor", 8);
               ("el", 7)]%nat
      /\ (forall n, In ("la", n) (listed_words a)
                    <-> In ("la", n) (common_words a)
                        /\ (2 < String.length "la")%nat)
      /\ exists s, get_column words_by_rank "direccion" = Ok s
                   /\ length (unique String.eqb (tokens s)) = 11%nat
                   /\ length (common_words a)
                      = Nat.min 10 (length (unique String.eqb (tokens s))))
  /\ (exists a,
         analyze_column no_valid_cell "direccion" = Ok a
         /\ total a = 0%Z
         /\ chart a = Raises ValueError)
  /\ (exists a,
         analyze_column no_valid_cell "notas" = Ok a
         /\ total a = 2%Z
         /\ chart a = Raises ValueError)
  /\ (exists a,
         analyze_column six_columns "telefono" = Ok a
         /\ common_words a = [("600000000.0", 1%nat)]
         /\ chart a = Ok [("600000000.0", 1%nat)]).
Proof.
  split; [| split; [| split]].
  - eexists. split; [reflexivity |]. do 3 (split; [reflexivity |]).
    destruct (common_words_top_ten words_by_rank "direccion" _ eq_refl)
      as [s [Hs [_ [_ [Hlen [_ [_ [_ [_ [_ [Hlisted _]]]]]]]]]]].
    split; [intros n; apply Hlisted |].
    exists s. split; [exact Hs |]. split; [| exact Hlen].
    vm_compute in Hs. injection Hs as <-. reflexivity.
  - eexists. split; [reflexivity |]. split; [reflexivity |].
    destruct (common_words_top_ten no_valid_cell "direccion" _ eq_refl)
      as [s [Hs [_ [_ [_ [_ [_ [_ [_ [_ [_ [_ [_ [_ Hnone]]]]]]]]]]]]]].
    apply Hnone. vm_compute in Hs. injection Hs as <-. reflexivity.
  - eexists. split; [reflexivity |]. split; [reflexivity |].
    destruct (common_words_top_ten no_valid_cell "notas" _ eq_refl)
      as [s [Hs [_ [_ [_ [_ [_ [_ [_ [_ [_ [_ [_ [_ Hnone]]]]]]]]]]]]]].
    apply Hnone. vm_compute in Hs. injection Hs as <-. reflexivity.
  - eexists. split; [reflexivity |]. split; [reflexivity |].
    destruct (common_words_top_ten six_columns "telefono" _ eq_refl)
      as [s [Hs [_ [_ [_ [_ [_ [_ [_ [_ [_ [_ [_ [Hbars _]]]]]]]]]]]]]].
    rewrite Hbars; [reflexivity |].
    vm_compute in Hs. injection Hs as <-. discriminate.
Defined.

(** ** The frequency table *)

Lemma get_column_In (df : DataFrame) (col : string) (s : Series) :
  NoDup (columns df) -> In (col, s) df -> get_column df col = Ok s.
Proof.
  induction df as [| [name s'] df IH]; simpl; [tauto |].
  intros Hnd [E | Hin].
  - injection E as -> ->. now rewrite String.eqb_refl.
  - inversion Hnd as [| ? ? Hnot Hnd']; subst.
    destruct (String.eqb_spec name col) as [-> | _].
    + elim Hnot. unfold columns. apply in_map_iff. now exists (col, s).
    + now apply IH.
Qed.

Lemma count_dropna (v : scalar) (l : list scalar) :
  v <> NaN -> count scalar_eqb v (dropna l) = count scalar_eqb v l.
Proof.
  intros Hv. unfold count, dropna. induction l as [| x l IH]; [reflexivity |].
  destruct x as [| t | z]; simpl.
  - destruct v; simpl; [congruence | exact IH | exact IH].
  - destruct (scalar_eqb v (Str t)); simpl; now rewrite IH.
  - destruct (scalar_eqb v (Int z)); simpl; now rewrite IH.
Qed.

Lemma dropna_In (v : scalar) (l : list scalar) :
  In v (dropna l) <-> In v l /\ v <> NaN.
Proof.
  unfold dropna. rewrite filter_In. destruct v; simpl; intuition congruence.
Qed.

Lemma Qsum_exact (rows : nat) (l : list freq_row) :
  (Qsum (map (exact_percentage rows) l)
   == Qnat (list_sum (map frecuencia l)) / Qnat rows * 100)%Q.
Proof.
  induction l as [| r l IH]; simpl.
  - unfold Qnat. simpl. unfold Qdiv. now rewrite !Qmult_0_l.
  - rewrite IH. unfold exact_percentage, Qnat.
    rewrite Nat2Z.inj_add, inject_Z_plus. unfold Qdiv. ring.
Qed.

Lemma Qsum_rounded (rows : nat) (delta : Q) (l : list freq_row) :
  Forall (fun r => (porcentaje r <= exact_percentage rows r + delta)%Q) l ->
  (Qsum (map porcentaje l)
   <= Qsum (map (exact_percentage rows) l) + delta * Qnat (length l))%Q.
Proof.
  induction 1 as [| r l Hr _ IH]; simpl.
  - change (Qnat 0) with 0%Q. lra.
  - assert (Qnat (S (length l)) == Qnat (length l) + 1)%Q as ->.
    { unfold Qnat. rewrite Nat2Z.inj_succ, <- Z.add_1_r, inject_Z_plus.
      reflexivity. }
    lra.
Qed.

Lemma freq_table_counted (rows : nat) (s : Series) :
  map counted (freq_table_of rows s) = head 20 (value_counts s).
Proof.
  unfold freq_table_of. generalize (head 20 (value_counts s)) as l.
  intros l. rewrite map_map. unfold counted. simpl.
  induction l as [| [v n] l IH]; simpl; congruence.
Qed.

Lemma freq_table_percentages (rows : nat) (s : Series) :
  Forall (fun r => porcentaje r = percentage (frecuencia r) rows)
         (freq_table_of rows s).
Proof.
  unfold freq_table_of. apply Forall_forall. intros r Hr.
  apply in_map_iff in Hr. destruct Hr as [vc [<- _]]. reflexivity.
Qed.

Lemma value_counts_le_rows (s : Series) :
  (list_sum (map snd (head 20 (value_counts s))) <= length (values s))%nat.
Proof.
  rewrite head_map. etransitivity; [apply head_sum_le |].
  unfold value_counts. rewrite (value_counts_total _ scalar_eqb_eq).
  apply filter_length_le.
Qed.

(** C4, as the code has it.  For every well-formed frame of at most
    [2^53] rows and every categorical column of it, the frequency table
    lists twenty values of the column, or all of them when there are fewer:
    none missing and none twice, most frequent first, each with the number
    of its occurrences, and no value left out occurs more often than a
    value listed.  Each percentage is computed in floats from the count and
    the number of rows of the frame: it is the float nearest to a whole
    number of hundredths, within half a hundredth and [10^-12] of the exact
    share.  The counts add up to at most the number of rows, so the exact
    shares add up to at most 100; the percentages add up to at most 100 and
    half a hundredth (and [10^-12]) for each value listed. *)
Theorem freq_table_top_twenty
        (df : DataFrame) (col : string) (s : Series) (rows : list freq_row) :
  well_formed df ->
  In (col, s) (select_dtypes_object df) ->
  (Z.of_nat (len df) <= 2 ^ 53)%Z ->
  freq_table df col = Ok rows ->
  length rows = Nat.min 20 (nunique s)
  /\ NoDup (map value rows)
  /\ StronglySorted by_count_desc (map counted rows)
  /\ (forall r, In r rows ->
        In (value r) (values s) /\ value r <> NaN
        /\ frecuencia r = count scalar_eqb (value r) (values s))
  /\ (forall v r, In v (values s) -> v <> NaN -> ~ In v (map value rows) ->
                  In r rows ->
                  (count scalar_eqb v (values s) <= frecuencia r)%nat)
  /\ (forall r, In r rows ->
        porcentaje r = percentage (frecuencia r) (len df)
        /\ (exists k : Z,
               (0 <= k <= 10000)%Z
               /\ porcentaje r = Float64.round (inject_Z k / 100)
               /\ (Qabs (inject_Z k / 100 - exact_percentage (len df) r)
                   <= (1 # 200) + (1 # 1000000000000))%Q)
        /\ (Qabs (porcentaje r - exact_percentage (len df) r)
            <= (1 # 200) + (1 # 1000000000000))%Q
        /\ (0 <= porcentaje r <= 100)%Q)
  /\ (list_sum (map frecuencia rows) <= len df)%nat
  /\ (Qsum (map (exact_percentage (len df)) rows) <= 100)%Q
  /\ (Qsum (map porcentaje rows)
      <= 100 + ((1 # 200) + (1 # 1000000000000)) * Qnat (length rows))%Q.
Proof.
  intros [Hnd [Hlen _]] Hcol Hexact Hrows.
  apply filter_In in Hcol. destruct Hcol as [Hin _].
  unfold freq_table in Hrows. rewrite (get_column_In df col s Hnd Hin) in Hrows.
  simpl in Hrows. injection Hrows as <-.
  rewrite Forall_forall in Hlen. specialize (Hlen _ Hin). simpl in Hlen.
  pose proof (freq_table_counted (len df) s) as Hc.
  pose proof (freq_table_percentages (len df) s) as Hr.
  set (rows := freq_table_of (len df) s) in *.
  assert (map value rows = map fst (head 20 (value_counts s))) as Hv.
  { rewrite <- Hc, map_map. reflexivity. }
  assert (map frecuencia rows = map snd (head 20 (value_counts s))) as Hf.
  { rewrite <- Hc, map_map. reflexivity. }
  assert (forall r, In r rows -> In (counted r) (value_counts s)) as Hvc.
  { intros r H. apply (head_In 20). rewrite <- Hc. now apply in_map. }
  assert (forall r, In r rows ->
            In (value r) (values s) /\ value r <> NaN
            /\ frecuencia r = count scalar_eqb (value r) (values s))
    as Hlisted.
  { intros r H. apply Hvc in H.
    apply (value_counts_In _ scalar_eqb_eq) in H.
    destruct H as [H1 H2]. apply dropna_In in H1.
    destruct H1 as [H1 H3].
    repeat split; auto. rewrite <- count_dropna; auto. }
  assert (list_sum (map frecuencia rows) <= len df)%nat as Hsum.
  { rewrite Hf, <- Hlen. apply value_counts_le_rows. }
  assert (Qsum (map (exact_percentage (len df)) rows) <= 100)%Q as Hsumexact.
  { rewrite Qsum_exact. destruct (Nat.eq_dec (len df) 0) as [E | N].
    - rewrite E in *. assert (list_sum (map frecuencia rows) = 0)%nat as ->
        by lia.
      vm_compute. discriminate.
    - destruct (quotient_range (Qnat (list_sum (map frecuencia rows)))
                               (Qnat (len df)));
        [apply Qnat_nonneg | now apply Qnat_le | apply Qnat_pos; lia | lra]. }
  assert (forall r, In r rows ->
            (frecuencia r <= len df)%nat /\ (0 < len df)%nat) as Hshare.
  { intros r H. destruct (Hlisted r H) as [H1 [_ H2]].
    rewrite H2, <- Hlen. split; [apply count_le_length |].
    destruct (values s); [contradiction | simpl; lia]. }
  assert (forall r, In r rows ->
            porcentaje r = percentage (frecuencia r) (len df)
            /\ (exists k : Z,
                   (0 <= k <= 10000)%Z
                   /\ porcentaje r = Float64.round (inject_Z k / 100)
                   /\ (Qabs (inject_Z k / 100 - exact_percentage (len df) r)
                       <= (1 # 200) + (1 # 1000000000000))%Q)
            /\ (Qabs (porcentaje r - exact_percentage (len df) r)
                <= (1 # 200) + (1 # 1000000000000))%Q
            /\ (0 <= porcentaje r <= 100)%Q) as Hper.
  { intros r H. rewrite Forall_forall in Hr. rewrite (Hr r H).
    destruct (Hshare r H) as [Hle Hpos].
    destruct (percentage_near (frecuencia r) (len df) Hle Hpos Hexact)
      as [k [Hk [Ek [Hnear [Hp Hrange]]]]].
    split; [reflexivity |]. split; [now exists k |]. split; assumption. }
  split. { rewrite <- (length_map counted), Hc, head_length.
           unfold value_counts. now rewrite value_counts_length. }
  split. { rewrite Hv, head_map.
           apply head_NoDup, value_counts_NoDup, scalar_eqb_eq. }
  split. { rewrite Hc. apply head_sorted, value_counts_sorted. }
  split; [exact Hlisted |].
  split. { intros v r Hv1 Hv2 Hout H.
           rewrite <- count_dropna by exact Hv2.
           apply (head_top by_count_desc 20 (value_counts s)
                    (value_counts_sorted _ _) (counted r)
                    (v, count scalar_eqb v (dropna (values s)))).
           - rewrite <- Hc. now apply in_map.
           - apply (value_counts_In _ scalar_eqb_eq). split; [| reflexivity].
             now apply dropna_In.
           - rewrite <- Hc. intros H'. apply Hout.
             apply in_map_iff in H'. destruct H' as [r' [E H']].
             apply in_map_iff. exists r'. split; [| exact H'].
             unfold counted in E. now injection E. }
  split; [exact Hper |].
  split; [exact Hsum |]. split; [exact Hsumexact |].
  assert (Forall (fun r => (porcentaje r
                            <= exact_percentage (len df) r
                               + ((1 # 200) + (1 # 1000000000000)))%Q) rows)
    as Hup.
  { apply Forall_forall. intros r H.
    destruct (Hper r H) as [_ [_ [Hp _]]].
    apply Qabs_Qle_condition in Hp. lra. }
  pose proof (Qsum_rounded (len df) _ rows Hup). lra.
Qed.

(** Two departures from the specification.  Each of the seven cities is
    14.29 per cent of the rows, which adds up to more than 100.  And 23
    rows of 160
    are exactly 14.375 per cent, which rounds to 14.38, while the floats
    give 14.37: the product [23 / 160 * 100] is a float just below
    14.375. *)
Lemma rounded_percentages_exceed_100 :
  (exists rows,
      freq_table seven_cities "ciudad" = Ok rows
      /\ length rows = 7%nat
      /\ Forall (fun r => porcentaje r = Float64.round (1429 # 100)) rows
      /\ ~ (Qsum (map porcentaje rows) <= 100)%Q)
  /\ (exists madrid,
         freq_table cities_of_160 "ciudad"
         = Ok [mkFreqRow (Str "Sevilla") 137 (Float64.round (8562 # 100));
               madrid]
         /\ madrid = mkFreqRow (Str "Madrid") 23 (Float64.round (1437 # 100))
         /\ (exact_percentage (len cities_of_160) madrid == 14375 # 1000)%Q
         /\ round_half_even (exact_percentage (len cities_of_160) madrid
                             * 100)
            = 1438%Z).
Proof.
  split.
  - eexists. split; [vm_compute; reflexivity |]. split; [reflexivity |].
    split; [repeat constructor |].
    vm_compute. intros H. now apply H.
  - eexists. split; [vm_compute; reflexivity |].
    split; [reflexivity |]. split; reflexivity.
Qed.

Lemma freq_table_top_twenty_witness :
  freq_table cities "ciudad" = Ok cities_table
  /\ length cities_table = Nat.min 20 (nunique cities_ciudad)
  /\ (list_sum (map frecuencia cities_table) <= len cities)%nat
  /\ (Qsum (map porcentaje cities_table)
      <= 100 + ((1 # 200) + (1 # 1000000000000))
               * Qnat (length cities_table))%Q.
Proof.
  assert (freq_table cities "ciudad" = Ok cities_table) as Ht
      by (vm_compute; reflexivity).
  assert (well_formed cities) as Hwf.
  { split; [| split]; repeat constructor; simpl; intuition discriminate. }
  assert (Z.of_nat (len cities) <= 2 ^ 53)%Z as Hexact
      by (vm_compute; discriminate).
  destruct (freq_table_top_twenty cities "ciudad" cities_ciudad cities_table
              Hwf (or_introl eq_refl) Hexact Ht)
    as [Hn [_ [_ [_ [_ [_ [Hsum [_ Hrounded]]]]]]]].
  split; [exact Ht |]. split; [exact Hn |].
  split; [exact Hsum | exact Hrounded].
Defined.

(** ** The CSV text and its reading *)

Section CsvFacts.

Import Csv CsvReader.

Variable universal : bool.

Lemma special_parts (c : ascii) :
  is_special c = false ->
  Ascii.eqb c newline = false /\ Ascii.eqb c comma = false
  /\ Ascii.eqb c dquote = false.
Proof.
  unfold is_special. intros H.
  apply orb_false_elim in H. destruct H as [H H3].
  apply orb_false_elim in H. destruct H as [H1 H2]. auto.
Qed.

Lemma ends_line_plain (c : ascii) :
  Ascii.eqb c newline = false ->
  (universal = true -> Ascii.eqb c cr = false) ->
  ends_line universal c = false.
Proof.
  unfold ends_line. intros -> H. destruct universal; [| reflexivity].
  now rewrite H.
Qed.

Lemma text_of_chars (f : string) (acc : list ascii) :
  string_of_list_ascii (rev (rev (chars f) ++ acc))
  = (string_of_list_ascii (rev acc) ++ f)%string.
Proof.
  rewrite rev_app_distr, rev_involutive. unfold chars.
  generalize (rev acc) as l. intros l.
  induction l as [| x l IH]; simpl.
  - apply string_of_list_ascii_of_string.
  - now rewrite IH.
Qed.

Lemma has_cr_parts (c : ascii) (f : string) :
  (universal = true -> has_cr (String c f) = false) ->
  (universal = true -> Ascii.eqb c cr = false)
  /\ (universal = true -> has_cr f = false).
Proof.
  intros H. split; intros U; specialize (H U); simpl in H;
    apply orb_false_elim in H; tauto.
Qed.

(** Reading the characters of a field that needs no quotes. *)
Lemma read_plain (f : string) (acc : list ascii) (record : list string)
      (tail : string) :
  needs_quotes f = false ->
  (universal = true -> has_cr f = false) ->
  read universal InField acc record (f ++ tail)
  = read universal InField (rev (chars f) ++ acc) record tail.
Proof.
  revert acc. induction f as [| c f IH]; intros acc H Hcr; [reflexivity |].
  simpl in H. apply orb_false_elim in H. destruct H as [Hc Hf].
  destruct (special_parts c Hc) as [H1 [H2 _]].
  destruct (has_cr_parts c f Hcr) as [Hc' Hf'].
  cbn [append read]. rewrite (ends_line_plain c H1 Hc'), H2, (IH _ Hf Hf').
  cbn [chars list_ascii_of_string rev]. now rewrite <- app_assoc.
Qed.

(** Reading a quoted field up to its closing quote. *)
Lemma read_escaped (f : string) (acc : list ascii) (record : list string)
      (tail : string) :
  read universal InQuoted acc record (escape f ++ String dquote tail)
  = read universal QuoteInQuoted (rev (chars f) ++ acc) record tail.
Proof.
  revert acc. induction f as [| c f IH]; intros acc; [reflexivity |].
  simpl. destruct (Ascii.eqb c dquote) eqn:E.
  - apply Ascii.eqb_eq in E. subst c. simpl. rewrite IH.
    now rewrite <- app_assoc.
  - simpl. rewrite E, IH. now rewrite <- app_assoc.
Qed.

Lemma write_field_written (f : string) :
  readable universal f -> written universal (write_field f) f.
Proof.
  unfold written, write_field, readable, bare_cr.
  destruct (needs_quotes f); [now left |]. intros H. right.
  repeat split. intros U. now apply H.
Qed.

Lemma ends_line_newline : ends_line universal newline = true.
Proof. reflexivity. Qed.

Lemma ends_line_comma : ends_line universal comma = false.
Proof. unfold ends_line. now destruct universal. Qed.

Lemma read_written (st : state) (w f : string) (sep : ascii)
      (record : list string) (rest : string) :
  st = StartRecord \/ st = StartField ->
  sep = comma \/ sep = newline ->
  written universal w f ->
  (w = EmptyString -> st = StartRecord -> sep = comma) ->
  read universal st [] record (w ++ String sep rest)
  = after_field universal sep f record rest.
Proof.
  intros Hst Hsep [-> | [-> [Hplain Hcr]]] Hstart.
  - (* a quoted field *)
    unfold quoted. cbn [append]. rewrite string_app_assoc. cbn [append].
    assert (read universal st [] record
                 (String dquote (escape f ++ String dquote (String sep rest)))
            = read universal InQuoted [] record
                   (escape f ++ String dquote (String sep rest))) as ->.
    { destruct Hst as [-> | ->]; cbn [read]; now rewrite ends_line_plain. }
    rewrite read_escaped. unfold after_field.
    destruct Hsep as [-> | ->]; cbn [read];
      [rewrite ends_line_comma | rewrite ends_line_newline];
      simpl; unfold finish_field; now rewrite text_of_chars.
  - (* a field written as it is *)
    destruct f as [| c f].
    + unfold after_field.
      destruct Hst as [-> | ->], Hsep as [-> | ->]; cbn [append read];
        try rewrite ends_line_comma; try rewrite ends_line_newline;
        try reflexivity.
      specialize (Hstart eq_refl eq_refl). discriminate.
    + simpl in Hplain. apply orb_false_elim in Hplain.
      destruct Hplain as [Hc Hf].
      destruct (special_parts c Hc) as [H1 [H2 H3]].
      destruct (has_cr_parts c f Hcr) as [Hc' Hf'].
      assert (read universal st [] record ((String c f) ++ String sep rest)
              = read universal InField [c] record (f ++ String sep rest))
        as ->.
      { destruct Hst as [-> | ->]; cbn [append read];
          now rewrite (ends_line_plain c H1 Hc'), H2, H3. }
      rewrite (read_plain _ _ _ _ Hf Hf'). unfold after_field.
      destruct Hsep as [-> | ->]; cbn [read];
        [rewrite ends_line_comma | rewrite ends_line_newline];
        simpl; unfold finish_field; now rewrite text_of_chars.
Qed.

Lemma read_fields (more : list string) (f : string) (record : list string)
      (rest : string) :
  Forall (readable universal) (f :: more) ->
  read universal StartField [] record
       (write_fields (f :: more) ++ String newline rest)
  = cons_record (rev (f :: more) ++ record)
                (read universal StartRecord [] [] rest).
Proof.
  revert f record. induction more as [| g more IH]; intros f record Hr;
    inversion Hr as [| ? ? Hf Hmore]; subst.
  - cbn [write_fields].
    rewrite (read_written StartField (write_field f) f newline).
    + reflexivity.
    + now right.
    + now right.
    + now apply write_field_written.
    + discriminate.
  - change (write_fields (f :: g :: more))
      with (write_field f ++ String comma (write_fields (g :: more)))%string.
    rewrite string_app_assoc. cbn [append].
    rewrite (read_written StartField (write_field f) f comma).
    + unfold after_field. simpl (Ascii.eqb comma newline). cbv iota.
      rewrite (IH _ _ Hmore). f_equal. simpl. now rewrite <- !app_assoc.
    + now right.
    + now left.
    + now apply write_field_written.
    + discriminate.
Qed.

Lemma write_field_empty (f : string) :
  write_field f = EmptyString -> f = EmptyString.
Proof.
  unfold write_field. destruct (needs_quotes f); [discriminate | auto].
Qed.

Lemma write_record_single (f : string) :
  readable universal f ->
  exists w, write_record [f] = (w ++ String newline EmptyString)%string
            /\ written universal w f /\ w <> EmptyString.
Proof.
  intros Hr. destruct f as [| c f].
  - exists (quoted EmptyString). split; [reflexivity |].
    split; [now left | discriminate].
  - exists (write_field (String c f)). split; [reflexivity |].
    split; [now apply write_field_written |].
    intros E. apply write_field_empty in E. discriminate.
Qed.

Lemma write_record_several (f g : string) (more : list string) :
  write_record (f :: g :: more)
  = (write_field f
     ++ String comma (write_fields (g :: more) ++ String newline EmptyString))%string.
Proof.
  unfold write_record.
  assert (match f :: g :: more with
          | [EmptyString] => quoted EmptyString
          | _ => write_fields (f :: g :: more)
          end = write_fields (f :: g :: more)) as -> by now destruct f.
  cbn [write_fields]. now rewrite string_app_assoc.
Qed.

Lemma read_record (fs : list string) (rest : string) :
  Forall (readable universal) fs ->
  read universal StartRecord [] [] (write_record fs ++ rest)
  = option_map (cons fs) (read universal StartRecord [] [] rest).
Proof.
  intros Hr. destruct fs as [| f [| g more]].
  - reflexivity.
  - inversion Hr as [| ? ? Hf _]; subst.
    destruct (write_record_single f Hf) as [w [-> [Hw Hne]]].
    rewrite string_app_assoc. cbn [append].
    rewrite (read_written StartRecord w f newline).
    + reflexivity.
    + now left.
    + now right.
    + exact Hw.
    + intros E. now elim Hne.
  - inversion Hr as [| ? ? Hf Hmore]; subst.
    rewrite write_record_several, string_app_assoc. cbn [append].
    rewrite string_app_assoc. cbn [append].
    rewrite (read_written StartRecord (write_field f) f comma).
    + unfold after_field. simpl (Ascii.eqb comma newline). cbv iota.
      rewrite (read_fields _ _ _ _ Hmore). unfold cons_record. do 2 f_equal.
      rewrite rev_app_distr. simpl. rewrite rev_app_distr, rev_involutive.
      reflexivity.
    + now left.
    + now left.
    + now apply write_field_written.
    + reflexivity.
Qed.

(** Reading what was written gives the records back. *)
Lemma read_write_records (records : list (list string)) :
  Forall (Forall (readable universal)) records ->
  read_csv universal (write_records records) = Some records.
Proof.
  unfold read_csv. induction 1 as [| r records Hr _ IH]; [reflexivity |].
  cbn [write_records]. now rewrite (read_record _ _ Hr), IH.
Qed.

End CsvFacts.

(** Every field is readable when the lines end at a line feed only. *)
Lemma all_readable (records : list (list string)) :
  Forall (Forall (readable false)) records.
Proof.
  apply Forall_forall. intros r _. apply Forall_forall. intros f _.
  discriminate.
Qed.

(** The writer loses nothing: equal texts come from equal records. *)
Lemma write_records_injective (a b : list (list string)) :
  Csv.write_records a = Csv.write_records b -> a = b.
Proof.
  intros H. apply (f_equal (CsvReader.read_csv false)) in H.
  rewrite !(read_write_records false) in H by apply all_readable.
  congruence.
Qed.

(** ** The lines of the export *)

Section CsvLines.

Import Csv.

Lemma line_count_app (a b : string) :
  line_count (a ++ b) = (line_count a + line_count b)%nat.
Proof.
  induction a as [| c a IH]; simpl; [reflexivity |]. rewrite IH. lia.
Qed.

Lemma line_count_escape (f : string) : line_count (escape f) = line_count f.
Proof.
  induction f as [| c f IH]; simpl; [reflexivity |].
  destruct (Ascii.eqb c dquote) eqn:E; simpl.
  - apply Ascii.eqb_eq in E. subst c. simpl. exact IH.
  - now rewrite IH.
Qed.

Lemma line_count_quoted (f : string) : line_count (quoted f) = line_count f.
Proof.
  unfold quoted. simpl. rewrite line_count_app, line_count_escape. simpl. lia.
Qed.

Lemma line_count_field (f : string) :
  line_count (write_field f) = line_count f.
Proof.
  unfold write_field. destruct (needs_quotes f);
    [apply line_count_quoted | reflexivity].
Qed.

Lemma line_count_fields (fs : list string) :
  line_count (write_fields fs) = line_feeds_in fs.
Proof.
  unfold line_feeds_in. induction fs as [| f fs IH]; [reflexivity |].
  destruct fs as [| g more].
  - simpl. rewrite line_count_field. lia.
  - change (write_fields (f :: g :: more))
      with (write_field f ++ String comma (write_fields (g :: more)))%string.
    rewrite line_count_app, line_count_field.
    change (line_count (String comma (write_fields (g :: more))))
      with (line_count (write_fields (g :: more))).
    rewrite IH. simpl. lia.
Qed.

Lemma line_count_record (fs : list string) :
  line_count (write_record fs) = S (line_feeds_in fs).
Proof.
  unfold write_record. rewrite line_count_app. simpl (line_count (String _ _)).
  assert (line_count match fs with
                     | [EmptyString] => quoted EmptyString
                     | _ => write_fields fs
                     end = line_feeds_in fs) as ->; [| lia].
  destruct fs as [| [| c f] [| g more]]; try apply line_count_fields.
  reflexivity.
Qed.

Lemma line_count_records (records : list (list string)) :
  line_count (write_records records)
  = (length records + list_sum (map line_feeds_in records))%nat.
Proof.
  induction records as [| r records IH]; [reflexivity |].
  cbn [write_records]. rewrite line_count_app, line_count_record, IH.
  simpl. lia.
Qed.

End CsvLines.

Lemma csv_records_width (df : DataFrame) :
  Forall (fun record => length record = length (columns df)) (csv_records df).
Proof.
  unfold csv_records. constructor; [reflexivity |].
  apply Forall_forall. intros r Hr. apply in_map_iff in Hr.
  destruct Hr as [i [<- _]]. unfold csv_row, columns. now rewrite !length_map.
Qed.

Lemma csv_records_row (df : DataFrame) (i : nat) :
  (i < len df)%nat ->
  nth (S i) (csv_records df) []
  = map (fun c => csv_cell (dtype_of (snd c)) (nth i (values (snd c)) NaN)) df.
Proof.
  intros Hi. unfold csv_records. cbn [nth].
  rewrite (nth_indep _ [] (csv_row df 0)) by now rewrite length_map, length_seq.
  rewrite map_nth, seq_nth by exact Hi. reflexivity.
Qed.

Lemma no_bare_cr_readable (universal : bool) (df : DataFrame) :
  (universal = true -> no_bare_cr df) ->
  Forall (Forall (readable universal)) (csv_records df).
Proof.
  destruct universal; [| intros _; apply all_readable].
  intros H. specialize (H eq_refl). unfold no_bare_cr in H.
  eapply Forall_impl; [| exact H]. intros r Hr.
  eapply Forall_impl; [| exact Hr]. intros f Hf _. exact Hf.
Qed.

(** C8, as the code has it.  Read back, the export of a frame gives one
    record for the labels and one for each row, in the order of the rows:
    the first record holds the labels in the order of the columns, the
    record of a row holds the texts of its cells in that order (empty for
    a missing cell), and no record has a field for the index.  This holds
    for a reader whose lines end at a line feed only, and for a reader
    whose lines end at a carriage return as well when no label or cell has
    a bare carriage return.  The text has one line for each record and one
    more for each line feed inside a label or a cell, so that a record is
    a line exactly when its fields hold no line feed. *)
Theorem export_round_trip (universal : bool) (df : DataFrame) :
  (universal = true -> no_bare_cr df) ->
  (exists records,
      CsvReader.read_csv universal (to_csv df) = Some records
      /\ length records = S (len df)
      /\ hd [] records = columns df
      /\ Forall (fun record => length record = length (columns df)) records
      /\ (forall i, (i < len df)%nat ->
            nth (S i) records []
            = map (fun c => csv_cell (dtype_of (snd c))
                                     (nth i (values (snd c)) NaN)) df)
      /\ forall other,
            to_csv other = to_csv df -> csv_records other = records)
  /\ Csv.line_count (to_csv df) = (S (len df) + embedded_line_feeds df)%nat.
Proof.
  intros Hcr. split.
  - exists (csv_records df).
    split; [apply read_write_records, no_bare_cr_readable, Hcr |].
    split; [apply csv_records_length |]. split; [reflexivity |].
    split; [apply csv_records_width |]. split; [apply csv_records_row |].
    intros other H. now apply write_records_injective.
  - unfold to_csv. rewrite line_count_records, csv_records_length.
    reflexivity.
Qed.

Lemma export_round_trip_witness :
  CsvReader.read_csv true (to_csv awkward_addresses)
  = Some [["direccion"; "cp"];
          ["Calle Mayor, 5"; "28001.0"];
          ["Bar " ++ String Csv.dquote ("Sol" ++ String Csv.dquote " 3"); ""];
          ["Av. Libertad" ++ String Csv.newline "2 B"; "28003.0"];
          ["Plaza, 1" ++ String CsvReader.cr "bajo"; "28004.0"]]
  /\ Csv.line_count (to_csv awkward_addresses) = 6%nat.
Proof.
  assert (no_bare_cr awkward_addresses) as Hcr
      by (repeat constructor).
  destruct (export_round_trip true awkward_addresses (fun _ => Hcr))
    as [[records [Hread [_ [_ [_ [_ Hsame]]]]]] Hlines].
  split; [| exact Hlines].
  rewrite Hread, <- (Hsame awkward_addresses eq_refl). reflexivity.
Defined.

(** Two departures from the specification.  The export of a frame with
    one row whose address is in two lines has three lines: the header and
    two lines for the one row.  And an address with a bare carriage return is
    written without quotes, so that a reader whose lines end at a carriage
    return reads the one row as two records. *)
Lemma export_of_two_line_address :
  (len two_line_address = 1%nat
   /\ to_csv two_line_address
      = "direccion" ++ String Csv.newline
          (String Csv.dquote
             ("Calle Mayor 5" ++ String Csv.newline
                ("2 B" ++ String Csv.dquote (String Csv.newline EmptyString))))
   /\ Csv.line_count (to_csv two_line_address) = 3%nat
   /\ Csv.line_count (to_csv two_line_address) <> S (len two_line_address))
  /\ (len carriage_return_address = 1%nat
      /\ to_csv carriage_return_address
         = "direccion" ++ String Csv.newline
             ("Calle Mayor 5" ++ String CsvReader.cr
                ("2 B" ++ String Csv.newline EmptyString))
      /\ csv_records carriage_return_address
         = [["direccion"]; ["Calle Mayor 5" ++ String CsvReader.cr "2 B"]]
      /\ CsvReader.read_csv true (to_csv carriage_return_address)
         = Some [["direccion"]; ["Calle Mayor 5"]; ["2 B"]]
      /\ CsvReader.read_csv true (to_csv carriage_return_address)
         <> Some (csv_records carriage_return_address)).
Proof. repeat split; discriminate. Qed.

(** X4.  The export determines its records: two frames with the same export
    have the same labels and the same cell texts, row by row. *)
Lemma export_determines_records (df df' : DataFrame) :
  to_csv df = to_csv df' -> csv_records df = csv_records df'.
Proof.
  intros H. unfold to_csv in H. now apply write_records_injective.
Qed.

(** A missing cell and an empty text are one and the same in the export. *)
Lemma export_determines_records_witness :
  to_csv address_and_gap = to_csv address_and_empty
  /\ csv_records address_and_gap = csv_records address_and_empty
  /\ address_and_gap <> address_and_empty.
Proof.
  split; [reflexivity |].
  split; [apply (export_determines_records address_and_gap address_and_empty);
          reflexivity | discriminate].
Defined.

(** ** The rows the search keeps *)

Lemma list_as_nth (m : list bool) :
  m = map (fun i => nth i m false) (seq 0 (length m)).
Proof.
  apply (nth_ext _ _ false false).
  - now rewrite length_map, length_seq.
  - intros i Hi. set (g := fun i => nth i m false).
    transitivity (nth i (map g (seq 0 (length m))) (g 0%nat)).
    + now rewrite map_nth, seq_nth.
    + apply nth_indep. now rewrite length_map, length_seq.
Qed.

Lemma nth_mask_or (a b : list bool) (i : nat) :
  length a = length b ->
  nth i (map (fun p => fst p || snd p) (combine a b)) false
  = nth i a false || nth i b false.
Proof.
  revert b i. induction a as [| x a IH]; intros [| y b] [| i] H;
    try discriminate; try reflexivity.
  simpl. apply IH. simpl in H. lia.
Qed.

Lemma nth_hits (r : Re.regex) (c : string * Series) (i : nat) :
  (i < length (values (snd c)))%nat ->
  nth i (map (Re.search r)
             (map (astype_str (dtype_of (snd c))) (values (snd c)))) false
  = cell_matches r i c.
Proof.
  intros Hi. unfold cell_matches. rewrite map_map.
  rewrite (nth_indep _ false
             (Re.search r (astype_str (dtype_of (snd c)) NaN)))
    by now rewrite length_map.
  apply (map_nth (fun v => Re.search r (astype_str (dtype_of (snd c)) v))).
Qed.

Lemma search_mask_bits (term : string) (r : Re.regex) (cols : DataFrame)
      (m : list bool) :
  Re.compile term = Re.Compiled r ->
  Forall (fun c => length (values (snd c)) = length m) cols ->
  search_mask term cols (MSeries m)
  = Ok (MSeries (map (fun i => nth i m false || existsb (cell_matches r i) cols)
                     (seq 0 (length m)))).
Proof.
  intros Hr Hlen. revert m Hlen.
  induction cols as [| [name s] cols IH]; intros m Hlen.
  - change (search_mask term [] (MSeries m)) with (Ok (MSeries m)).
    rewrite (list_as_nth m) at 1. do 2 f_equal.
    apply map_ext. intros i. now rewrite orb_false_r.
  - inversion Hlen as [| ? ? Hs Hrest]; subst. simpl in Hs.
    rewrite search_mask_cons, str_contains_eq, Hr. cbn [bind mask_or].
    set (hits := map (Re.search r) (map (astype_str (dtype_of s)) (values s))).
    assert (length hits = length m) as Hh
        by (unfold hits; now rewrite !length_map).
    set (m' := map (fun p => fst p || snd p) (combine m hits)).
    assert (length m' = length m) as Hm'.
    { unfold m'. rewrite length_map, length_combine. lia. }
    rewrite IH by now rewrite Hm'.
    rewrite Hm'. do 2 f_equal. apply map_ext_in. intros i Hi.
    apply in_seq in Hi. unfold m'. rewrite nth_mask_or by now symmetry.
    unfold hits. rewrite (nth_hits r (name, s)) by (simpl; lia).
    cbn [existsb]. now rewrite orb_assoc.
Qed.

Lemma keep_at_positions {A : Type} (f : nat -> bool) (l : list A) :
  keep (map f (seq 0 (length l))) l = at_positions f l.
Proof.
  unfold at_positions. generalize 0%nat as a.
  induction l as [| x l IH]; intros a; [reflexivity |].
  simpl. destruct (f a); simpl; now rewrite IH.
Qed.

(** The search, when it succeeds.  On a frame with at least one text
    column, a term that is a regular expression of the fragment keeps the
    rows in which the text of some text column matches it, those and no
    others; the text of a missing cell is [nan]. *)
Lemma search_keeps_matching_rows
      (display_df : DataFrame) (search_term : string) (r : Re.regex) :
  Forall (fun c => length (values (snd c)) = len display_df) display_df ->
  search_term <> EmptyString ->
  Re.compile search_term = Re.Compiled r ->
  select_dtypes_object display_df <> [] ->
  search_rows display_df search_term
  = Ok (map (fun c => (fst c,
                       mkSeries (dtype_of (snd c))
                                (at_positions (row_matches r display_df)
                                              (values (snd c)))))
            display_df).
Proof.
  intros Hlen Hterm Hr Htext. rewrite search_rows_eq.
  destruct (String.eqb_spec search_term EmptyString) as [E | _];
    [now elim Hterm |].
  assert (Forall (fun c => length (values (snd c)) = len display_df)
                 (select_dtypes_object display_df)) as Hlen'.
  { apply Forall_forall. intros c Hc. apply filter_In in Hc.
    rewrite Forall_forall in Hlen. now apply Hlen. }
  unfold row_matches.
  destruct (select_dtypes_object display_df) as [| [name s] cols] eqn:E;
    [now elim Htext |].
  inversion Hlen' as [| ? ? Hs Hrest]; subst. simpl in Hs.
  rewrite search_mask_cons, str_contains_eq, Hr. cbn [bind mask_or].
  set (hits := map (Re.search r) (map (astype_str (dtype_of s)) (values s))).
  assert (length hits = len display_df) as Hh
      by (unfold hits; now rewrite !length_map).
  rewrite (search_mask_bits search_term r cols hits Hr) by now rewrite Hh.
  cbn [bind select_rows]. f_equal. apply map_ext_in. intros c Hc.
  rewrite Forall_forall in Hlen. specialize (Hlen c Hc).
  f_equal. f_equal. rewrite <- keep_at_positions, Hlen, Hh. f_equal.
  apply map_ext_in. intros i Hi. apply in_seq in Hi.
  unfold hits. rewrite (nth_hits r (name, s)) by (simpl; lia).
  reflexivity.
Qed.

(** ** The matcher and the patterns of plain terms *)

Lemma string_app_empty (a b : string) :
  a ++ b = EmptyString -> a = EmptyString /\ b = EmptyString.
Proof. destruct a; [auto | discriminate]. Qed.

Lemma matches_cat (r1 r2 : Re.regex) (s : string) :
  Matches (Re.Cat r1 r2) s
  <-> exists s1 s2, s = s1 ++ s2 /\ Matches r1 s1 /\ Matches r2 s2.
Proof.
  split.
  - intros H. inversion H; subst. eauto.
  - intros [s1 [s2 [-> [H1 H2]]]]. now constructor.
Qed.

Lemma matches_alt (r1 r2 : Re.regex) (s : string) :
  Matches (Re.Alt r1 r2) s <-> Matches r1 s \/ Matches r2 s.
Proof.
  split.
  - intros H. inversion H; subst; auto.
  - intros [H | H]; [now apply MAltL | now apply MAltR].
Qed.

Lemma matches_lit (a : ascii) (s : string) :
  Matches (Re.Lit a) s
  <-> exists c, s = String c EmptyString
                /\ Text.lower_char a = Text.lower_char c.
Proof.
  split.
  - intros H. inversion H; subst. eauto.
  - intros [c [-> H]]. now constructor.
Qed.

Lemma matches_any (s : string) :
  Matches Re.AnyChar s
  <-> exists c, s = String c EmptyString /\ Text.code c <> 10%N.
Proof.
  split.
  - intros H. inversion H; subst. eauto.
  - intros [c [-> H]]. now constructor.
Qed.

Lemma matches_eps (s : string) : Matches Re.Eps s <-> s = EmptyString.
Proof.
  split; [intros H; now inversion H | intros ->; constructor].
Qed.

Lemma matches_void (s : string) : Matches Re.Void s <-> False.
Proof. split; [intros H; inversion H | tauto]. Qed.

Lemma nullable_iff (r : Re.regex) :
  Re.nullable r = true <-> Matches r EmptyString.
Proof.
  induction r as [| | a | | r1 IH1 r2 IH2 | r1 IH1 r2 IH2 | r IH]; simpl.
  - rewrite matches_void. split; [discriminate | tauto].
  - rewrite matches_eps. tauto.
  - rewrite matches_lit. split; [discriminate |].
    intros [c [E _]]. discriminate.
  - rewrite matches_any. split; [discriminate |].
    intros [c [E _]]. discriminate.
  - rewrite andb_true_iff, IH1, IH2, matches_cat. split.
    + intros [H1 H2]. now exists EmptyString, EmptyString.
    + intros [s1 [s2 [E [H1 H2]]]]. symmetry in E.
      apply string_app_empty in E. destruct E as [-> ->]. auto.
  - now rewrite orb_true_iff, IH1, IH2, matches_alt.
  - split; [constructor | reflexivity].
Qed.

(** A match of a starred pattern that is not empty starts with a match of
    the pattern that is not empty. *)
Lemma star_first (r : Re.regex) (c : ascii) (s : string) :
  Matches (Re.Star r) (String c s) ->
  exists s1 s2, s = s1 ++ s2 /\ Matches r (String c s1)
                /\ Matches (Re.Star r) s2.
Proof.
  intros H. remember (Re.Star r) as r' eqn:Er.
  remember (String c s) as t eqn:Et. revert c s Et.
  induction H as [| | | | | | | r0 s1 s2 H1 _ H2 IH2]; intros c0 s0 Et;
    try discriminate.
  injection Er as ->. destruct s1 as [| x s1].
  - simpl in Et. now apply IH2.
  - simpl in Et. injection Et as -> <-. now exists s1, s2.
Qed.

Lemma deriv_iff (r : Re.regex) (c : ascii) (s : string) :
  Matches (Re.deriv c r) s <-> Matches r (String c s).
Proof.
  revert s.
  induction r as [| | a | | r1 IH1 r2 IH2 | r1 IH1 r2 IH2 | r IH];
    intros s; simpl.
  - now rewrite !matches_void.
  - rewrite matches_void, matches_eps. split; [tauto | discriminate].
  - rewrite matches_lit.
    destruct (Ascii.eqb_spec (Text.lower_char a) (Text.lower_char c))
      as [E | N].
    + rewrite matches_eps. split.
      * intros ->. now exists c.
      * intros [x [Ex _]]. now injection Ex.
    + rewrite matches_void. split; [tauto |].
      intros [x [Ex Hx]]. injection Ex as -> _. now elim N.
  - rewrite matches_any. destruct (N.eqb_spec (Text.code c) 10) as [E | N].
    + rewrite matches_void. split; [tauto |].
      intros [x [Ex Hx]]. injection Ex as -> _. now elim Hx.
    + rewrite matches_eps. split.
      * intros ->. now exists c.
      * intros [x [Ex _]]. now injection Ex.
  - assert (Matches (Re.Cat (Re.deriv c r1) r2) s
            <-> exists s1 s2, s = s1 ++ s2 /\ Matches r1 (String c s1)
                              /\ Matches r2 s2) as Hcat.
    { rewrite matches_cat. split; intros [s1 [s2 [E [H1 H2]]]];
        exists s1, s2; (split; [exact E |]); (split; [| exact H2]);
        now apply IH1. }
    assert (Matches (Re.Cat r1 r2) (String c s)
            <-> (exists s1 s2, s = s1 ++ s2 /\ Matches r1 (String c s1)
                               /\ Matches r2 s2)
                \/ (Matches r1 EmptyString /\ Matches r2 (String c s))) as Hall.
    { rewrite matches_cat. split.
      - intros [[| x s1] [s2 [E [H1 H2]]]]; simpl in E.
        + right. subst s2. auto.
        + left. injection E as <- ->. now exists s1, s2.
      - intros [[s1 [s2 [-> [H1 H2]]]] | [H1 H2]].
        + now exists (String c s1), s2.
        + now exists EmptyString, (String c s). }
    rewrite Hall. destruct (Re.nullable r1) eqn:Nu.
    + rewrite matches_alt, Hcat, IH2. apply nullable_iff in Nu. tauto.
    + rewrite Hcat. split; [now left |].
      intros [H | [H _]]; [exact H |].
      apply nullable_iff in H. congruence.
  - now rewrite !matches_alt, IH1, IH2.
  - rewrite matches_cat. split.
    + intros [s1 [s2 [-> [H1 H2]]]].
      apply (MStarMore _ (String c s1) s2); [now apply IH | exact H2].
    + intros H. apply star_first in H. destruct H as [s1 [s2 [-> [H1 H2]]]].
      exists s1, s2. split; [reflexivity |]. split; [now apply IH | exact H2].
Qed.

Lemma match_here_iff (r : Re.regex) (s : string) :
  Re.match_here r s = true
  <-> exists block after, s = block ++ after /\ Matches r block.
Proof.
  revert r. induction s as [| c s IH]; intros r; cbn [Re.match_here].
  - rewrite orb_false_r, nullable_iff. split.
    + intros H. now exists EmptyString, EmptyString.
    + intros [b [a [E H]]]. symmetry in E. apply string_app_empty in E.
      destruct E as [-> _]. exact H.
  - rewrite orb_true_iff, nullable_iff, IH. split.
    + intros [H | [b [a [-> H]]]].
      * now exists EmptyString, (String c s).
      * exists (String c b), a. split; [reflexivity | now apply deriv_iff].
    + intros [[| x b] [a [E H]]].
      * now left.
      * right. simpl in E. injection E as <- ->. exists b, a.
        split; [reflexivity | now apply deriv_iff].
Qed.

(** The matcher finds a block that matches, if there is one. *)
Lemma search_iff (r : Re.regex) (s : string) :
  Re.search r s = true <-> Found r s.
Proof.
  unfold Found. induction s as [| c s IH]; cbn [Re.search].
  - rewrite orb_false_r, match_here_iff. split.
    + intros [b [a [E H]]]. now exists EmptyString, b, a.
    + intros [[| x p] [b [a [E H]]]]; [now exists b, a | discriminate].
  - rewrite orb_true_iff, match_here_iff, IH. split.
    + intros [[b [a [E H]]] | [p [b [a [E H]]]]].
      * now exists EmptyString, b, a.
      * exists (String c p), b, a. simpl. now rewrite E.
    + intros [[| x p] [b [a [E H]]]].
      * left. now exists b, a.
      * right. simpl in E. injection E as _ ->. now exists p, b, a.
Qed.

(** *** Plain terms *)

Lemma not_meta (c : ascii) :
  is_meta c = false ->
  Ascii.eqb c Re.backslash = false /\ Re.one_of c "[{^$" = false
  /\ Ascii.eqb c "." = false /\ Ascii.eqb c "(" = false
  /\ Ascii.eqb c ")" = false /\ Ascii.eqb c "|" = false
  /\ Re.one_of c "*+?" = false.
Proof.
  unfold is_meta, Re.one_of. simpl. intros H.
  repeat (apply orb_false_elim in H; destruct H as [? H]).
  repeat match goal with E : _ = false |- _ => rewrite E; clear E end.
  repeat split.
Qed.

Lemma parse_literal (c : ascii) (prev : Re.previous) (top : Re.frame)
      (stack : list Re.frame) (rest : string) :
  prev <> Re.PBackslash -> is_meta c = false ->
  Re.parse prev top stack (String c rest)
  = Re.parse Re.POther (Re.push_item (Re.Lit c) top) stack rest.
Proof.
  intros Hprev Hc.
  destruct (not_meta c Hc) as [H1 [H2 [H3 [H4 [H5 [H6 H7]]]]]].
  destruct prev; [| | | now elim Hprev]; cbn [Re.parse];
    now rewrite H1, H2, H3, H4, H5, H6, H7.
Qed.

Lemma parse_plain (term : string) (prev : Re.previous) (top : Re.frame) :
  prev <> Re.PBackslash -> plain term = true ->
  Re.parse prev top [] term
  = Re.Compiled
      (Re.close_frame
         (Re.mkFrame (Re.alternatives top)
                     (rev (map (fun c => (Re.Lit c, false)) (chars term))
                      ++ Re.items top))).
Proof.
  revert prev top. induction term as [| c term IH]; intros prev top Hprev Hp.
  - destruct top as [alts its]. now destruct prev.
  - simpl in Hp. apply andb_true_iff in Hp. destruct Hp as [Hc Hp].
    apply negb_true_iff in Hc.
    rewrite (parse_literal c prev top [] term Hprev Hc).
    rewrite IH by (discriminate || exact Hp).
    simpl. now rewrite <- app_assoc.
Qed.

Lemma sequence_literals (term : string) :
  Re.sequence (rev (map (fun c => (Re.Lit c, false)) (chars term)))
  = literals term.
Proof.
  unfold Re.sequence. induction term as [| c term IH]; [reflexivity |].
  simpl. rewrite fold_left_app. simpl. now rewrite IH.
Qed.

(** A plain term compiles to the sequence of its characters. *)
Lemma compile_plain (term : string) :
  plain term = true -> Re.compile term = Re.Compiled (literals term).
Proof.
  intros Hp. unfold Re.compile.
  rewrite parse_plain by (discriminate || exact Hp).
  unfold Re.close_frame. simpl. rewrite app_nil_r.
  now rewrite sequence_literals.
Qed.

(** The pattern of a plain term matches the texts that are the term up to
    the case of the letters. *)
Lemma matches_literals (term block : string) :
  Matches (literals term) block <-> Text.lower block = Text.lower term.
Proof.
  revert block. induction term as [| c term IH]; intros block; simpl.
  - rewrite matches_eps. split; [now intros -> | now destruct block].
  - rewrite matches_cat. split.
    + intros [s1 [s2 [-> [H1 H2]]]]. apply matches_lit in H1.
      destruct H1 as [x [-> Hx]]. apply IH in H2. simpl. now rewrite Hx, H2.
    + destruct block as [| x block]; [discriminate |]. simpl.
      intros H. injection H as Hx H.
      exists (String x EmptyString), block. split; [reflexivity |].
      split; [apply matches_lit; now exists x | now apply IH].
Qed.

Lemma found_literals (term s : string) :
  Found (literals term) s <-> Substring (Text.lower term) (Text.lower s).
Proof.
  unfold Found, Substring. split.
  - intros [p [m [a [-> H]]]]. apply matches_literals in H.
    exists (Text.lower p), (Text.lower a). now rewrite !lower_app, H.
  - intros [p' [a' H]]. apply lower_app_inv in H.
    destruct H as [p [rest [-> [_ H]]]]. apply lower_app_inv in H.
    destruct H as [m [a [-> [Hm _]]]]. exists p, m, a.
    split; [reflexivity | now apply matches_literals].
Qed.

(** For a plain term, [str.contains] is containment up to case. *)
Lemma str_contains_plain (term : string) (texts : list string) :
  plain term = true ->
  str_contains term texts
  = Ok (map (fun s => Text.contains (Text.lower term) (Text.lower s)) texts).
Proof.
  intros Hp. rewrite str_contains_eq, (compile_plain term Hp).
  f_equal. apply map_ext. intros s.
  pose proof (search_iff (literals term) s) as H1.
  pose proof (found_literals term s) as H2.
  pose proof (contains_iff (Text.lower term) (Text.lower s)) as H3.
  destruct (Re.search (literals term) s),
           (Text.contains (Text.lower term) (Text.lower s));
    intuition congruence.
Qed.

(** ** The search for a plain term *)

Lemma cell_matches_plain (term : string) (i : nat) (c : string * Series) :
  cell_matches (literals term) i c
  = Text.contains (Text.lower term)
                  (Text.lower (astype_str (dtype_of (snd c))
                                          (nth i (values (snd c)) NaN))).
Proof.
  unfold cell_matches.
  set (s := astype_str (dtype_of (snd c)) (nth i (values (snd c)) NaN)).
  pose proof (search_iff (literals term) s) as H1.
  pose proof (found_literals term s) as H2.
  pose proof (contains_iff (Text.lower term) (Text.lower s)) as H3.
  destruct (Re.search (literals term) s),
           (Text.contains (Text.lower term) (Text.lower s));
    intuition congruence.
Qed.

Lemma row_matches_plain (term : string) (df : DataFrame) (i : nat) :
  row_matches (literals term) df i = row_contains term df i.
Proof.
  unfold row_matches, row_contains.
  induction (select_dtypes_object df) as [| c l IH]; [reflexivity |].
  cbn [existsb]. now rewrite cell_matches_plain, IH.
Qed.

Lemma at_positions_ext {A : Type} (f g : nat -> bool) (l : list A) :
  (forall i, f i = g i) -> at_positions f l = at_positions g l.
Proof.
  intros H. unfold at_positions. f_equal. apply filter_ext. intros p. apply H.
Qed.

(** X1.  On a frame with at least one text column, a term without special
    characters keeps the rows in which the text of some text column
    contains the term, whatever the case of the letters, those and no
    others; the text of a missing cell is [nan]. *)
Lemma plain_search_keeps_containing_rows
      (display_df : DataFrame) (search_term : string) :
  Forall (fun c => length (values (snd c)) = len display_df) display_df ->
  search_term <> EmptyString ->
  plain search_term = true ->
  select_dtypes_object display_df <> [] ->
  search_rows display_df search_term
  = Ok (map (fun c => (fst c,
                       mkSeries (dtype_of (snd c))
                                (at_positions (row_contains search_term
                                                            display_df)
                                              (values (snd c)))))
            display_df).
Proof.
  intros Hlen Hterm Hp Htext.
  rewrite (search_keeps_matching_rows display_df search_term
             (literals search_term) Hlen Hterm (compile_plain _ Hp) Htext).
  f_equal. apply map_ext. intros c. do 2 f_equal.
  apply at_positions_ext. intros i. apply row_matches_plain.
Qed.

Lemma plain_search_keeps_containing_rows_witness :
  search_rows address_and_gap "MAYOR" = Ok (first_address "direccion")
  /\ search_rows address_and_gap "an"
     = Ok [("direccion", mkSeries Object [NaN])].
Proof.
  assert (Forall (fun c => length (values (snd c)) = len address_and_gap)
                 address_and_gap) as Hlen by (repeat constructor).
  split.
  - rewrite (plain_search_keeps_containing_rows address_and_gap "MAYOR" Hlen);
      [reflexivity | discriminate | reflexivity | discriminate].
  - rewrite (plain_search_keeps_containing_rows address_and_gap "an" Hlen);
      [reflexivity | discriminate | reflexivity | discriminate].
Defined.

(* ================================================================= *)
(** * Part IV: further properties of the page *)
(* ================================================================= *)

(** ** Looking columns up by their labels *)

Lemma columns_In (df : DataFrame) (col : string) :
  In col (columns df) <-> exists s, In (col, s) df.
Proof.
  unfold columns. rewrite in_map_iff. split.
  - intros [[name s] [E H]]. simpl in E. subst. now exists s.
  - intros [s H]. now exists (col, s).
Qed.

Lemma get_column_found (df : DataFrame) (col : string) :
  In col (columns df) ->
  exists s, get_column df col = Ok s /\ In (col, s) df.
Proof.
  induction df as [| [name s] df IH]; simpl; [tauto |].
  intros H. destruct (String.eqb_spec name col) as [-> | N].
  - exists s. auto.
  - destruct H as [H | H]; [now elim N |].
    destruct (IH H) as [s' [E Hin]]. exists s'. auto.
Qed.

Lemma get_column_missing (df : DataFrame) (col : string) :
  get_column df col = Raises KeyError <-> ~ In col (columns df).
Proof.
  induction df as [| [name s] df IH]; simpl; [tauto |].
  destruct (String.eqb_spec name col) as [-> | N].
  - split; [discriminate | intros H; elim H; now left].
  - rewrite IH. tauto.
Qed.

Lemma get_column_outcome (df : DataFrame) (col : string) :
  (exists s, get_column df col = Ok s /\ In (col, s) df)
  \/ (get_column df col = Raises KeyError /\ ~ In col (columns df)).
Proof.
  induction df as [| [name s] df IH]; simpl; [right; tauto |].
  destruct (String.eqb_spec name col) as [-> | N].
  - left. exists s. auto.
  - destruct IH as [[s' [E H]] | [E H]].
    + left. exists s'. auto.
    + right. split; [exact E | tauto].
Qed.

(** X5.  On a frame with distinct labels, selecting columns by a list of
    labels raises [KeyError] exactly when one of the labels is not a label
    of the frame, and raises nothing else.  When it succeeds the result has the labels asked for, in the
    order asked, each with the column the frame has under that label; and
    since whole columns are taken, a selection that is not empty keeps
    the number of rows of a frame whose columns have one length. *)
Theorem select_columns_by_label (df : DataFrame) (cols : list string) :
  NoDup (columns df) ->
  (select_columns df cols = Raises KeyError
   <-> exists col, In col cols /\ ~ In col (columns df))
  /\ (forall e, select_columns df cols = Raises e -> e = KeyError)
  /\ select_columns df cols <> Unmodelled
  /\ (forall out,
        select_columns df cols = Ok out ->
        columns out = cols
        /\ (forall col s, In (col, s) out ->
                          get_column df col = Ok s /\ In (col, s) df)
        /\ (Forall (fun c => length (values (snd c)) = len df) df ->
            cols <> [] -> len out = len df)).
Proof.
  intros _. induction cols as [| c cols [IH1 [IH2 [IH3 IH4]]]].
  - simpl. split; [| split; [| split]]; try discriminate.
    + split; [discriminate | intros [col [[] _]]].
    + intros out H. injection H as <-.
      split; [reflexivity |]. split; [intros col s [] |].
      intros _ Hne. now elim Hne.
  - cbn [select_columns].
    destruct (get_column_outcome df c) as [[s [E Hin]] | [E Hout]];
      rewrite E; cbn [bind].
    + destruct (select_columns df cols) as [more | e |] eqn:Em; cbn [bind].
      * split; [| split; [| split]]; try discriminate.
        -- split; [discriminate |].
           intros [col [[<- | Hc] Hn]].
           ++ elim Hn. apply columns_In. now exists s.
           ++ assert (Ok more = Raises KeyError) as X
                 by (apply IH1; now exists col).
              discriminate.
        -- intros out H. injection H as <-.
           destruct (IH4 more eq_refl) as [H1 [H2 _]].
           split; [simpl; now rewrite H1 |]. split.
           ++ intros col s' [H | H]; [injection H as <- <-; auto | auto].
           ++ intros Hlen _. simpl. rewrite Forall_forall in Hlen.
              now apply (Hlen (c, s)).
      * assert (e = KeyError) as -> by now apply IH2.
        split; [| split; [| split]]; try discriminate.
        -- split; [| reflexivity]. intros _.
           destruct (proj1 IH1 eq_refl) as [col [H1 H2]].
           exists col. split; [now right | exact H2].
        -- intros e' H. now injection H.
      * now elim IH3.
    + split; [| split; [| split]]; try discriminate.
      * split; [intros _; exists c; split; [now left | exact Hout]
               | reflexivity].
      * intros e H. now injection H.
Qed.

Lemma select_columns_by_label_witness :
  select_columns six_columns ["cp"; "edad"] = Raises KeyError
  /\ forall out, select_columns six_columns ["cp"; "nombre"] = Ok out ->
                 columns out = ["cp"; "nombre"].
Proof.
  assert (NoDup (columns six_columns)) as Hnd
      by (repeat constructor; simpl; intuition discriminate).
  split.
  - apply (select_columns_by_label six_columns ["cp"; "edad"] Hnd).
    exists "edad". split; [now right; left | simpl; intuition discriminate].
  - intros out H.
    now apply (select_columns_by_label six_columns ["cp"; "nombre"] Hnd).
Defined.

Lemma select_own_columns (df part : DataFrame) :
  NoDup (columns df) -> incl part df ->
  select_columns df (columns part) = Ok part.
Proof.
  intros Hnd. induction part as [| [name s] part IH]; intros Hin;
    [reflexivity |].
  simpl. rewrite (get_column_In df name s Hnd) by (apply Hin; now left).
  cbn [bind]. rewrite IH; [reflexivity |].
  intros x Hx. apply Hin. now right.
Qed.

(** X6.  With the default choice of columns and no search term, the frame
    on display is the frame of the first five columns of the table (of all
    of them when there are fewer), with all their rows; nothing is raised
    when the labels are distinct. *)
Theorem default_view_first_five (df : DataFrame) :
  NoDup (columns df) ->
  display_frame df (default_columns df) EmptyString = Ok (head 5 df)
  /\ columns (head 5 df) = head 5 (columns df)
  /\ length (head 5 df) = Nat.min 5 (length df)
  /\ (df <> [] -> len (head 5 df) = len df).
Proof.
  intros Hnd. split; [| split; [| split]].
  - rewrite display_frame_eq. unfold default_columns, show_columns.
    assert (head 5 (columns df) = columns (head 5 df)) as ->
        by (unfold columns; symmetry; apply head_map).
    destruct (columns (head 5 df)) as [| c cs] eqn:E.
    + destruct df as [| x df]; [reflexivity | discriminate].
    + rewrite <- E, (select_own_columns df (head 5 df) Hnd);
        [reflexivity |].
      intros x Hx. now apply head_In in Hx.
  - unfold columns. apply head_map.
  - apply head_length.
  - intros Hne. destruct df as [| [name s] df]; [now elim Hne | reflexivity].
Qed.

Lemma default_view_first_five_witness :
  display_frame six_columns
                ["nombre"; "direccion"; "cp"; "ciudad"; "provincia"]
                EmptyString
  = Ok (head 5 six_columns)
  /\ len (head 5 six_columns) = 2%nat.
Proof.
  assert (NoDup (columns six_columns)) as Hnd
      by (repeat constructor; simpl; intuition discriminate).
  destruct (default_view_first_five six_columns Hnd) as [H [_ [_ Hrows]]].
  split; [exact H | apply Hrows; discriminate].
Defined.

(** ** What the search leaves of a frame *)

Lemma keep_all {A : Type} (l : list A) : keep (repeat true (length l)) l = l.
Proof. induction l as [| x l IH]; simpl; [reflexivity | now rewrite IH]. Qed.

Lemma keep_length_le {A : Type} (bits : list bool) (l : list A) :
  (length (keep bits l) <= length l)%nat.
Proof.
  revert l. induction bits as [| b bits IH]; intros [| x l]; simpl; try lia.
  specialize (IH l). destruct b; simpl; lia.
Qed.

Lemma keep_length_same {A B : Type} (bits : list bool) (l : list A)
      (l' : list B) :
  length l = length l' -> length (keep bits l) = length (keep bits l').
Proof.
  revert l l'. induction bits as [| b bits IH]; intros [| x l] [| y l'] H;
    try discriminate; try reflexivity.
  simpl in H. injection H as H. simpl. destruct b; simpl; auto.
Qed.

Lemma keep_forallb {A : Type} (f : A -> bool) (bits : list bool) (l : list A) :
  forallb f l = true -> forallb f (keep bits l) = true.
Proof.
  revert l. induction bits as [| b bits IH]; intros [| x l] H;
    try reflexivity.
  simpl in H. apply andb_true_iff in H. destruct H as [Hx Hl].
  simpl. destruct b; simpl; [rewrite Hx |]; now apply IH.
Qed.

Lemma mask_or_length (m : mask) (bits : list bool) (n : nat) :
  length bits = n ->
  (m = MFalse \/ exists old, m = MSeries old /\ length old = n) ->
  exists bits', mask_or m bits = MSeries bits' /\ length bits' = n.
Proof.
  intros Hb [-> | [old [-> Ho]]]; simpl.
  - now exists bits.
  - eexists. split; [reflexivity |].
    rewrite length_map, length_combine. lia.
Qed.

Lemma search_mask_length (compile : regex_engine) (term : string)
      (cols : DataFrame) (m m' : mask) (n : nat) :
  Forall (fun c => length (values (snd c)) = n) cols ->
  (m = MFalse \/ exists old, m = MSeries old /\ length old = n) ->
  search_mask_by compile term cols m = Ok m' ->
  (m' = MFalse /\ cols = [] /\ m = MFalse)
  \/ exists bits, m' = MSeries bits /\ length bits = n.
Proof.
  intros Hlen. revert m. induction Hlen as [| [name s] cols Hs _ IH];
    intros m Hm H.
  - simpl in H. injection H as <-.
    destruct Hm as [-> | [old [-> Ho]]]; [now left | right; now exists old].
  - cbn [search_mask_by] in H. unfold str_contains_by in H.
    destruct (compile term) as [found | |]; try discriminate.
    cbn [bind] in H. simpl in Hs.
    destruct (mask_or_length
                m (map found (map (astype_str (dtype_of s)) (values s))) n)
      as [bits' [E Hb]];
      [now rewrite !length_map | exact Hm |].
    rewrite E in H. apply IH in H; [| right; now exists bits'].
    destruct H as [[_ [_ H]] | H]; [discriminate | now right].
Qed.

(** With a term that compiles the loop raises nothing, and leaves the
    scalar [False] only when there is no column to go through. *)
Lemma search_mask_found (compile : regex_engine) (term : string)
      (found : matcher) (cols : DataFrame) (m : mask) :
  compile term = Ok found ->
  exists m', search_mask_by compile term cols m = Ok m'
             /\ (m' = MFalse -> cols = [] /\ m = MFalse).
Proof.
  intros Hc. revert m. induction cols as [| [name s] cols IH]; intros m.
  - exists m. split; [reflexivity | tauto].
  - cbn [search_mask_by]. unfold str_contains_by. rewrite Hc. cbn [bind].
    destruct (IH (mask_or m (map found (map (astype_str (dtype_of s))
                                            (values s)))))
      as [m' [E Hm']].
    exists m'. split; [exact E |]. intros ->.
    destruct (Hm' eq_refl) as [_ H]. destruct m; discriminate.
Qed.

Lemma restrict_all (df : DataFrame) :
  Forall (fun c => length (values (snd c)) = len df) df ->
  map (fun c => (fst c, mkSeries (dtype_of (snd c))
                                 (keep (repeat true (len df))
                                       (values (snd c))))) df
  = df.
Proof.
  generalize (len df) as n. intros n H.
  induction H as [| [name [d vs]] df Hc _ IH]; [reflexivity |].
  simpl in *. rewrite IH. subst n. now rewrite keep_all.
Qed.

Lemma search_rows_shape
      (compile : regex_engine) (display_df : DataFrame)
      (search_term : string) (out : DataFrame) :
  Forall (fun c => length (values (snd c)) = len display_df) display_df ->
  search_rows_by compile display_df search_term = Ok out ->
  exists bits,
    length bits = len display_df
    /\ out = map (fun c => (fst c, mkSeries (dtype_of (snd c))
                                            (keep bits (values (snd c)))))
                 display_df.
Proof.
  intros Hlen H. unfold search_rows_by in H.
  destruct (String.eqb search_term EmptyString).
  - injection H as <-. exists (repeat true (len display_df)).
    split; [apply repeat_length | symmetry; now apply restrict_all].
  - destruct (search_mask_by compile search_term
                             (select_dtypes_object display_df) MFalse)
      as [m | e |] eqn:Em; try discriminate.
    cbn [bind] in H.
    apply (search_mask_length _ _ _ _ _ (len display_df)) in Em.
    + destruct Em as [[-> _] | [bits [-> Hb]]]; [discriminate |].
      simpl in H. injection H as <-. now exists bits.
    + apply Forall_forall. intros c Hc. apply filter_In in Hc.
      rewrite Forall_forall in Hlen. now apply Hlen.
    + now left.
Qed.

Lemma restricted_lengths (bits : list bool) (df : DataFrame) :
  Forall (fun c => length (values (snd c)) = len df) df ->
  let restricted :=
    map (fun c => (fst c, mkSeries (dtype_of (snd c))
                                   (keep bits (values (snd c))))) df in
  Forall (fun c => length (values (snd c)) = len restricted) restricted.
Proof.
  intros Hlen restricted. apply Forall_forall. intros c Hc.
  unfold restricted in Hc. apply in_map_iff in Hc.
  destruct Hc as [c0 [<- Hc0]]. simpl.
  rewrite Forall_forall in Hlen.
  destruct df as [| [name s] df']; [contradiction |].
  simpl. apply keep_length_same. rewrite (Hlen c0 Hc0).
  symmetry. apply (Hlen (name, s)). now left.
Qed.

(** X7.  Whatever the regular-expression engine and whatever the term:
    when the search succeeds on a frame with distinct labels whose columns
    have one length, the result is the frame restricted to a set of row
    positions, the same in every column: the labels, their order and the
    types are unchanged, no row is added, the cells that stay keep their
    order, and a well-formed frame stays well formed.  The search fails
    only with the error of the engine, or with [KeyError] when the frame
    has no text column. *)
Theorem search_restricts_rows
        (compile : regex_engine) (display_df : DataFrame)
        (search_term : string) :
  NoDup (columns display_df) ->
  Forall (fun c => length (values (snd c)) = len display_df) display_df ->
  (forall out,
      search_rows_by compile display_df search_term = Ok out ->
      (exists bits,
          length bits = len display_df
          /\ out = map (fun c => (fst c, mkSeries (dtype_of (snd c))
                                                  (keep bits (values (snd c)))))
                       display_df)
      /\ columns out = columns display_df
      /\ map (fun c => dtype_of (snd c)) out
         = map (fun c => dtype_of (snd c)) display_df
      /\ (len out <= len display_df)%nat
      /\ (well_formed display_df -> well_formed out))
  /\ (forall found,
        compile search_term = Ok found ->
        (search_term = EmptyString
         \/ select_dtypes_object display_df <> []) ->
        exists out, search_rows_by compile display_df search_term = Ok out)
  /\ (forall e,
        search_rows_by compile display_df search_term = Raises e ->
        search_term <> EmptyString
        /\ ((e = KeyError /\ select_dtypes_object display_df = [])
            \/ (compile search_term = Raises e
                /\ select_dtypes_object display_df <> []))).
Proof.
  intros _ Hlen. split; [| split].
  - intros out H.
    destruct (search_rows_shape compile display_df search_term out Hlen H)
      as [bits [Hb ->]].
    pose proof (restricted_lengths bits display_df Hlen) as Hsame.
    cbv zeta in Hsame.
    set (restricted := map _ display_df) in *.
    assert (columns restricted = columns display_df) as Hcols.
    { unfold restricted, columns. rewrite map_map. reflexivity. }
    split; [now exists bits |]. split; [exact Hcols |].
    split; [unfold restricted; rewrite map_map; reflexivity |]. split.
    + destruct display_df as [| [name s] df']; [simpl; lia |].
      simpl. apply keep_length_le.
    + intros [Hnd [_ Hfit]]. split; [now rewrite Hcols |].
      split; [exact Hsame |].
      apply Forall_forall. intros c Hc. unfold restricted in Hc.
      apply in_map_iff in Hc. destruct Hc as [c0 [<- Hc0]]. simpl.
      apply keep_forallb. rewrite Forall_forall in Hfit. now apply Hfit.
  - intros found Hc Hcase. unfold search_rows_by.
    destruct (String.eqb_spec search_term EmptyString) as [E | N];
      [now exists display_df |].
    destruct Hcase as [E | Htext]; [now elim N |].
    destruct (search_mask_found compile search_term found
                (select_dtypes_object display_df) MFalse Hc)
      as [m [Em Hm]].
    rewrite Em. cbn [bind].
    destruct m as [| bits]; [now elim Htext; apply Hm | now eexists].
  - intros e H. unfold search_rows_by in H.
    destruct (String.eqb_spec search_term EmptyString) as [E | N];
      [discriminate |].
    split; [exact N |].
    destruct (select_dtypes_object display_df) as [| [name s] cols] eqn:Et.
    + simpl in H. injection H as <-. now left.
    + right. split; [| discriminate].
      cbn [search_mask_by] in H. unfold str_contains_by in H.
      destruct (compile search_term) as [found | e' |] eqn:Ec;
        cbn [bind] in H; [| congruence | discriminate].
      exfalso.
      destruct (search_mask_found compile search_term found cols
                  (mask_or MFalse
                           (map found
                                (map (astype_str (dtype_of s)) (values s))))
                  Ec) as [m [Em Hm]].
      rewrite Em in H. cbn [bind] in H.
      destruct m as [| bits]; [| discriminate].
      destruct (Hm eq_refl) as [_ Hfalse]. discriminate.
Qed.

Lemma search_restricts_rows_witness :
  search_rows address_and_gap "mayor" = Ok (first_address "direccion")
  /\ (len (first_address "direccion") <= len address_and_gap)%nat
  /\ well_formed (first_address "direccion").
Proof.
  assert (search_rows address_and_gap "mayor"
          = Ok (first_address "direccion")) as Hs by reflexivity.
  assert (well_formed address_and_gap) as Hwf
      by (split; [| split]; repeat constructor; simpl; intuition discriminate).
  destruct (search_restricts_rows fragment address_and_gap "mayor"
              (proj1 Hwf) (proj1 (proj2 Hwf))) as [Hok _].
  destruct (Hok (first_address "direccion") Hs) as [_ [_ [_ [Hle Hkeep]]]].
  split; [exact Hs |]. split; [exact Hle | exact (Hkeep Hwf)].
Defined.

(** ** The row cap *)

Lemma head_rows_all (n : nat) (df : DataFrame) :
  Forall (fun c => length (values (snd c)) = len df) df ->
  (len df <= n)%nat -> head_rows n df = df.
Proof.
  generalize (len df) as k. intros k H Hk. unfold head_rows.
  induction H as [| [name [d vs]] df Hc _ IH]; [reflexivity |].
  simpl in *. rewrite IH. unfold head. rewrite firstn_all2 by lia.
  reflexivity.
Qed.

Lemma select_columns_incl (df : DataFrame) (cols : list string)
      (out : DataFrame) :
  select_columns df cols = Ok out ->
  incl out df /\ (cols <> [] -> out <> []).
Proof.
  revert out. induction cols as [| c cols IH]; intros out H.
  - simpl in H. injection H as <-. split; [intros x [] | tauto].
  - cbn [select_columns] in H.
    destruct (get_column_outcome df c) as [[s [E Hin]] | [E _]];
      rewrite E in H; cbn [bind] in H; [| discriminate].
    destruct (select_columns df cols) as [more | e |]; try discriminate.
    cbn [bind] in H. injection H as <-.
    destruct (IH more eq_refl) as [Hincl _].
    split; [| discriminate].
    intros x [<- | Hx]; [exact Hin | now apply Hincl].
Qed.

Lemma display_frame_lengths
      (compile : regex_engine) (df : DataFrame)
      (columns_to_show : list string) (search_term : string)
      (filtered : DataFrame) :
  Forall (fun c => length (values (snd c)) = len df) df ->
  display_frame_by compile df columns_to_show search_term = Ok filtered ->
  Forall (fun c => length (values (snd c)) = len filtered) filtered.
Proof.
  intros Hlen H. unfold display_frame_by in H.
  destruct (show_columns df columns_to_show) as [shown | e |] eqn:Es;
    try discriminate.
  cbn [bind] in H.
  assert (Forall (fun c => length (values (snd c)) = len shown) shown)
    as Hshown.
  { unfold show_columns in Es. destruct columns_to_show as [| c cs].
    - injection Es as <-. exact Hlen.
    - destruct (select_columns_incl df (c :: cs) shown Es) as [Hincl Hne].
      rewrite Forall_forall in Hlen.
      assert (len shown = len df) as ->.
      { destruct shown as [| [name s] shown']; [now elim Hne |].
        simpl. apply (Hlen (name, s)). apply Hincl. now left. }
      apply Forall_forall. intros x Hx. apply Hlen. now apply Hincl. }
  destruct (search_rows_shape compile shown search_term filtered Hshown H)
    as [bits [_ ->]].
  now apply restricted_lengths.
Qed.

(** The slider of the row cap: it is there for tables of more than ten
    rows, and only for them. *)
Lemma slider_of_rows (rows : nat) (position : option nat) :
  (10 < rows)%nat ->
  match position with
  | None => True
  | Some p => (10 <= p <= rows)%nat
  end ->
  exists show_rows,
    slider 10 rows (Nat.min 100 rows) position = Ok show_rows
    /\ (10 <= show_rows <= rows)%nat
    /\ show_rows = match position with
                   | None => Nat.min 100 rows
                   | Some p => p
                   end.
Proof.
  intros Hrows Hp. unfold slider.
  assert (((10 <? rows) && (10 <=? Nat.min 100 rows)
           && (Nat.min 100 rows <=? rows))%nat = true) as ->.
  { rewrite !andb_true_iff, Nat.ltb_lt, !Nat.leb_le. lia. }
  destruct position as [p |].
  - assert (((10 <=? p) && (p <=? rows))%nat = true) as ->
        by (rewrite andb_true_iff, !Nat.leb_le; lia).
    exists p. repeat split; lia.
  - exists (Nat.min 100 rows). repeat split; lia.
Qed.

Lemma slider_of_few_rows (rows : nat) (position : option nat) :
  (rows <= 10)%nat ->
  slider 10 rows (Nat.min 100 rows) position = Raises StreamlitAPIException.
Proof.
  intros H. unfold slider.
  assert ((10 <? rows)%nat = false) as -> by (apply Nat.ltb_ge; lia).
  reflexivity.
Qed.

(** A table of ten rows or fewer has no data tab: the slider of the row
    cap raises before anything is filtered, shown or exported. *)
Lemma data_tab_needs_rows
      (compile : regex_engine) (df : DataFrame) (position : option nat)
      (columns_to_show : list string) (search_term : string) (button : bool) :
  (len df <= 10)%nat ->
  data_tab_by compile df position columns_to_show search_term button
  = Raises StreamlitAPIException.
Proof.
  intros H. unfold data_tab_by. now rewrite slider_of_few_rows.
Qed.



(** X8.  On a table with distinct labels whose columns have one length,
    whatever the regular-expression engine and the term.  A table of ten
    rows or fewer has no data tab: the slider of the row cap raises
    [StreamlitAPIException].  On a table of more than ten rows the cap is
    the position of the slider, from 10 to the number of rows of the
    table, and 100 or that number, whichever is less, while the slider is
    not touched; when the cap is at least the number of rows the filter
    keeps, the frame put on the page is the whole filtered frame, the very
    frame that is exported; a smaller cap shows its first rows only. *)
Theorem page_shows_all_under_cap
        (compile : regex_engine) (df : DataFrame)
        (columns_to_show : list string) (search_term : string)
        (position : option nat) (filtered : DataFrame) :
  NoDup (columns df) ->
  Forall (fun c => length (values (snd c)) = len df) df ->
  ((len df <= 10)%nat ->
   forall button,
     data_tab_by compile df position columns_to_show search_term button
     = Raises StreamlitAPIException)
  /\ ((10 < len df)%nat ->
      on_slider df position ->
      display_frame_by compile df columns_to_show search_term = Ok filtered ->
      exists view show_rows,
        data_tab_by compile df position columns_to_show search_term true
        = Ok view
        /\ (10 <= show_rows <= len df)%nat
        /\ show_rows = match position with
                       | None => Nat.min 100 (len df)
                       | Some p => p
                       end
        /\ ((len filtered <= show_rows)%nat ->
            displayed view = filtered
            /\ download view = Some (to_csv filtered))
        /\ ((show_rows < len filtered)%nat ->
            displayed view = head_rows show_rows filtered
            /\ len (displayed view) = show_rows)).
Proof.
  intros _ Hlen. split.
  { intros Hfew button. now apply data_tab_needs_rows. }
  intros Hrows Hp H. unfold data_tab_by.
  destruct (slider_of_rows (len df) position Hrows Hp)
    as [show_rows [Es [Hcap Hwhich]]].
  rewrite Es, H. cbn [bind]. eexists. exists show_rows.
  split; [reflexivity |]. split; [exact Hcap |]. split; [exact Hwhich |].
  cbn [displayed download]. split.
  - intros Hall. split; [| reflexivity].
    apply head_rows_all; [| exact Hall].
    now apply (display_frame_lengths compile df columns_to_show search_term).
  - intros Hfew. split; [reflexivity |]. rewrite head_rows_len. lia.
Qed.

Lemma page_shows_all_under_cap_witness :
  (exists view,
      data_tab twelve_addresses (Some 10%nat) ["direccion"] "calle" true
      = Ok view
      /\ len (displayed view) = 10%nat
      /\ exists whole,
           data_tab twelve_addresses None ["direccion"] "calle" true
           = Ok whole
           /\ displayed whole = twelve_addresses
           /\ download whole = Some (to_csv twelve_addresses))
  /\ len ten_by_two = 10%nat
  /\ data_tab ten_by_two None [] EmptyString true
     = Raises StreamlitAPIException.
Proof.
  assert (NoDup (columns twelve_addresses)) as Hnd
      by (repeat constructor; simpl; tauto).
  assert (Forall (fun c => length (values (snd c)) = len twelve_addresses)
                 twelve_addresses) as Hlen by (repeat constructor).
  assert (10 < len twelve_addresses)%nat as Hrows
      by (apply Nat.ltb_lt; reflexivity).
  assert (display_frame twelve_addresses ["direccion"] "calle"
          = Ok twelve_addresses) as Hd by (vm_compute; reflexivity).
  destruct (page_shows_all_under_cap fragment twelve_addresses ["direccion"]
              "calle" (Some 10%nat) twelve_addresses Hnd Hlen) as [_ Hcap10].
  destruct (Hcap10 Hrows) as [view [cap [E [_ [Hcap [_ Hfew]]]]]];
    [split; [lia | apply Nat.leb_le; reflexivity] | exact Hd |].
  destruct (page_shows_all_under_cap fragment twelve_addresses ["direccion"]
              "calle" None twelve_addresses Hnd Hlen) as [_ Hnone].
  destruct (Hnone Hrows I Hd) as [whole [cap' [E' [_ [Hcap' [Hall _]]]]]].
  split; [| split; [reflexivity |]].
  - exists view. split; [exact E |]. split.
    + subst cap. apply Hfew. apply Nat.ltb_lt. reflexivity.
    + exists whole. split; [exact E' |]. apply Hall. subst cap'.
      apply Nat.leb_le. reflexivity.
  - assert (NoDup (columns ten_by_two)) as Hnd'
        by (repeat constructor; simpl; intuition discriminate).
    assert (Forall (fun c => length (values (snd c)) = len ten_by_two)
                   ten_by_two) as Hlen' by (repeat constructor).
    destruct (page_shows_all_under_cap fragment ten_by_two [] EmptyString
                None ten_by_two Hnd' Hlen') as [Hraise _].
    apply Hraise. apply Nat.leb_le. reflexivity.
Defined.

(** ** The address panel *)

Lemma dropna_first (l : list scalar) (v : scalar) (rest : list scalar) :
  dropna l = v :: rest ->
  exists before after,
    l = (before ++ v :: after)%list /\ Forall (fun x => x = NaN) before
    /\ v <> NaN.
Proof.
  induction l as [| x l IH]; [discriminate |].
  unfold dropna. simpl. destruct x as [| t | z]; simpl.
  - intros H. destruct (IH H) as [before [after [-> [Hb Hv]]]].
    exists (NaN :: before), after. repeat split; auto.
  - intros H. injection H as <- _. exists [], l.
    repeat split; [constructor | discriminate].
  - intros H. injection H as <- _. exists [], l.
    repeat split; [constructor | discriminate].
Qed.

Lemma dropna_none (l : list scalar) :
  dropna l = [] <-> Forall (fun x => x = NaN) l.
Proof.
  unfold dropna. induction l as [| x l IH]; simpl.
  - split; constructor.
  - destruct x; simpl.
    + rewrite IH. split; [now constructor | intros H; now inversion H].
    + split; [discriminate | intros H; inversion H; discriminate].
    + split; [discriminate | intros H; inversion H; discriminate].
Qed.

Lemma example_of_meets (s : Series) : example_meets s (example_of s).
Proof.
  unfold example_of, iloc.
  destruct (dropna (values s)) as [| v rest] eqn:E; simpl.
  - now apply dropna_none.
  - now apply (dropna_first _ v rest).
Qed.

Lemma label_eqb_eq (a b : label) : label_eqb a b = true <-> a = b.
Proof.
  destruct a as [x | x], b as [y | y]; simpl;
    try (split; [discriminate | intros H; discriminate H]).
  - rewrite String.eqb_eq. split; [now intros -> | now intros [= ->]].
  - rewrite Z.eqb_eq. split; [now intros -> | now intros [= ->]].
Qed.

Lemma sheet_column_found (df : Sheet) (col : label) :
  In col (labels df) ->
  exists s, sheet_column df col = Ok s /\ In (col, s) df.
Proof.
  induction df as [| [name s] df IH]; [intros [] |].
  intros Hin. cbn [sheet_column].
  destruct (label_eqb name col) eqn:E.
  - apply label_eqb_eq in E. subst. exists s. split; [reflexivity | now left].
  - destruct Hin as [H | H].
    + simpl in H. subst. assert (label_eqb col col = true) as X
          by now apply label_eqb_eq.
      congruence.
    + destruct (IH H) as [s' [E' Hs]]. exists s'. split; [exact E' |].
      now right.
Qed.

Lemma example_lines_ok (df : Sheet) (cols : list label) :
  incl cols (labels df) ->
  exists lines,
    example_lines df cols = Ok lines
    /\ map fst lines = cols
    /\ forall col e, In (col, e) lines ->
         exists s, sheet_column df col = Ok s /\ In (col, s) df
                   /\ example_meets s e.
Proof.
  induction cols as [| c cols IH]; intros Hin.
  - exists []. repeat split. intros col e [].
  - destruct (sheet_column_found df c) as [s [E Hs]]; [apply Hin; now left |].
    destruct IH as [more [Em [Hfst Hall]]];
      [intros x Hx; apply Hin; now right |].
    exists ((c, example_of s) :: more). cbn [example_lines].
    rewrite E, Em. cbn [bind]. split; [reflexivity |].
    split; [simpl; now rewrite Hfst |].
    intros col e [H | H].
    + injection H as <- <-. exists s. repeat split; auto.
      apply example_of_meets.
    + now apply Hall.
Qed.

(** X9.  The address panel of the summary, on a sheet with distinct
    labels.  When every label is text the panel raises nothing: the flagged
    labels are labels of the sheet, and the first valid cell is read only
    where there is one.  It reports that nothing was detected exactly when
    no name is address-like; otherwise it lists the flagged labels in the
    order of the sheet, each with the first cell of its column that is not
    missing, or with no example when every cell of the column is missing.
    When a label is a number the panel raises [AttributeError]: the
    detector calls [lower] on every label. *)
Theorem address_panel_is_safe (df : Sheet) :
  NoDup (labels df) ->
  (Forall is_text (labels df) ->
   exists view,
     address_panel df = Ok view
     /\ (view = NoneDetected
         <-> forall name, In (Name name) (labels df) -> ~ AddressLike name)
     /\ forall lines,
          view = Detected lines ->
          map fst lines = filter flagged_label (labels df)
          /\ lines <> []
          /\ forall col e, In (col, e) lines ->
               exists s, sheet_column df col = Ok s /\ In (col, s) df
                         /\ example_meets s e)
  /\ (~ Forall is_text (labels df) ->
      address_panel df = Raises AttributeError).
Proof.
  intros _. split.
  - intros Htext. destruct (labels_all_text _ Htext) as [names En].
    unfold address_panel, process_addresses.
    rewrite En, address_columns_of_names. cbn [bind].
    rewrite <- flagged_names, <- En.
    assert (incl (filter flagged_label (labels df)) (labels df)) as Hincl
        by (intros x Hx; now apply filter_In in Hx).
    destruct (example_lines_ok df _ Hincl) as [lines [El [Hfst Hall]]].
    destruct (filter flagged_label (labels df)) as [| c cs] eqn:Ef.
    + exists NoneDetected. split; [reflexivity |]. split; [| discriminate].
      split; [| reflexivity]. intros _ name Hcol Ha.
      apply is_address_name_iff in Ha.
      assert (In (Name name) (filter flagged_label (labels df))) as X
          by now apply filter_In.
      rewrite Ef in X. contradiction.
    + exists (Detected lines). rewrite El. cbn [bind].
      split; [reflexivity |]. split.
      * split; [discriminate |]. intros Hnone. exfalso.
        assert (In c (filter flagged_label (labels df))) as X
            by (rewrite Ef; now left).
        apply filter_In in X. destruct X as [Hc Ha].
        destruct c as [name | z]; [| discriminate].
        apply (Hnone name Hc). now apply is_address_name_iff.
      * intros lines' H. injection H as <-.
        split; [exact Hfst |]. split; [| exact Hall].
        intros ->. discriminate.
  - intros Hnum. unfold address_panel, process_addresses.
    now rewrite (address_columns_need_text _ Hnum).
Qed.

Lemma address_panel_is_safe_witness :
  address_panel (text_labels six_columns)
  = Ok (Detected [(Name "direccion", Example (Str "Calle Mayor 5"))])
  /\ example_meets (mkSeries Object [Str "Calle Mayor 5"; Str "Av. Libertad"])
                   (Example (Str "Calle Mayor 5"))
  /\ address_panel sheet_with_a_year = Raises AttributeError.
Proof.
  assert (NoDup (labels (text_labels six_columns))) as Hnd
      by (repeat constructor; simpl; intuition discriminate).
  assert (Forall is_text (labels (text_labels six_columns))) as Htext
      by (repeat constructor).
  destruct (address_panel_is_safe (text_labels six_columns) Hnd) as [H _].
  destruct (H Htext) as [view [E [_ Hlines]]].
  assert (view = Detected [(Name "direccion", Example (Str "Calle Mayor 5"))])
    as Ev.
  { assert (address_panel (text_labels six_columns)
            = Ok (Detected [(Name "direccion",
                             Example (Str "Calle Mayor 5"))])) as E'
        by (vm_compute; reflexivity).
    rewrite E in E'. now injection E'. }
  split; [now rewrite E, Ev |]. split.
  - destruct (Hlines _ Ev) as [_ [_ Hall]].
    destruct (Hall (Name "direccion") (Example (Str "Calle Mayor 5")))
      as [s [Es [_ Hm]]]; [now left |].
    vm_compute in Es. injection Es as <-. exact Hm.
  - assert (NoDup (labels sheet_with_a_year)) as Hnd'
        by (repeat constructor; simpl; intuition discriminate).
    destruct (address_panel_is_safe sheet_with_a_year Hnd') as [_ H'].
    apply H'. intros Hall. inversion Hall as [| x l _ Hrest].
    inversion Hrest as [| y m Hy _]. exact Hy.
Defined.

(** ** The column table *)

Lemma null_and_valid (l : list scalar) :
  (null_count l + length (dropna l) = length l)%nat.
Proof.
  unfold null_count, dropna. induction l as [| x l IH]; [reflexivity |].
  simpl. destruct (isnull x); simpl; lia.
Qed.

Lemma column_rows_ok (df cols : DataFrame) :
  NoDup (columns df) -> incl cols df ->
  column_rows df cols
  = Ok (map (fun c => {| columna := fst c;
                         tipo := dtype_name (dtype_of (snd c));
                         valores_unicos := nunique (snd c);
                         valores_nulos := null_count (values (snd c)) |})
            cols).
Proof.
  intros Hnd. induction cols as [| [name s] cols IH]; intros Hin;
    [reflexivity |].
  cbn [column_rows]. rewrite (get_column_In df name s Hnd)
    by (apply Hin; now left).
  cbn [bind]. rewrite IH by (intros x Hx; apply Hin; now right).
  reflexivity.
Qed.

(** X10.  For a well-formed frame the column table raises nothing and has
    one row for each column, in order.  In every row the unique values and
    the missing cells together are at most the rows of the frame, there is
    no unique value exactly when every cell is missing, and the missing
    cells of all the rows add up to the missing count of the summary. *)
Theorem column_info_counts (df : DataFrame) :
  well_formed df ->
  exists rows,
    column_info df = Ok rows
    /\ map columna rows = columns df
    /\ map tipo rows = map (fun c => dtype_name (dtype_of (snd c))) df
    /\ Forall (fun r =>
                 (valores_unicos r + valores_nulos r <= len df)%nat
                 /\ (valores_unicos r = 0%nat <-> valores_nulos r = len df))
              rows
    /\ list_sum (map valores_nulos rows) = missing_count df.
Proof.
  intros [Hnd [Hlen _]]. unfold column_info.
  rewrite (column_rows_ok df df Hnd (incl_refl df)).
  eexists. split; [reflexivity |].
  split; [now rewrite map_map |]. split; [now rewrite map_map |]. split.
  - apply Forall_forall. intros r Hr. apply in_map_iff in Hr.
    destruct Hr as [c [<- Hc]]. simpl.
    rewrite Forall_forall in Hlen. specialize (Hlen c Hc).
    pose proof (null_and_valid (values (snd c))) as Hsum.
    pose proof (unique_length_le scalar_eqb (dropna (values (snd c)))) as Hu.
    unfold nunique. split; [lia |]. split.
    + intros H0. destruct (dropna (values (snd c))) as [| v l] eqn:E;
        [simpl in Hsum; lia | discriminate].
    + intros Hall.
      destruct (dropna (values (snd c))) as [| v l] eqn:E;
        [reflexivity | simpl in Hsum; lia].
  - rewrite map_map. reflexivity.
Qed.

Lemma column_info_counts_witness :
  exists rows,
    column_info cities = Ok rows
    /\ map columna rows = ["ciudad"; "habitantes"]
    /\ list_sum (map valores_nulos rows) = 1%nat.
Proof.
  assert (well_formed cities) as Hwf
      by (split; [| split]; repeat constructor; simpl; intuition discriminate).
  destruct (column_info_counts cities Hwf) as [rows [E [Hc [_ [_ Hn]]]]].
  exists rows. split; [exact E |]. split; [exact Hc | exact Hn].
Defined.

(** ** The sample of addresses *)

Lemma combine_seq_In {A : Type} (a : nat) (l : list A) (i : nat) (v : A) :
  In (i, v) (combine (seq a (length l)) l) ->
  (a <= i < a + length l)%nat /\ nth_error l (i - a) = Some v.
Proof.
  revert a. induction l as [| x l IH]; intros a; simpl; [tauto |].
  intros [H | H].
  - injection H as <- <-. split; [lia |]. now rewrite Nat.sub_diag.
  - apply IH in H. destruct H as [Hi Hn]. split; [lia |].
    replace (i - a)%nat with (S (i - S a)) by lia. exact Hn.
Qed.

Lemma combine_fst {A B : Type} (l : list A) (l' : list B) :
  length l = length l' -> map fst (combine l l') = l.
Proof.
  revert l'. induction l as [| x l IH]; intros [| y l'] H;
    try discriminate; [reflexivity |].
  simpl in *. rewrite IH by lia. reflexivity.
Qed.

Lemma combine_snd {A B : Type} (l : list A) (l' : list B) :
  length l = length l' -> map snd (combine l l') = l'.
Proof.
  revert l'. induction l as [| x l IH]; intros [| y l'] H;
    try discriminate; [reflexivity |].
  simpl in *. rewrite IH by lia. reflexivity.
Qed.

(** X11.  The sample under an analysed column shows the first valid
    addresses of the column, ten of them or all when there are fewer,
    numbered from 1 in their order: the line numbered [i] holds the [i]-th
    cell that is not missing. *)
Theorem sample_addresses_numbered (s : Series) :
  length (sample_addresses s)
  = Nat.min 10 (Z.to_nat (total (analyze_series s)))
  /\ map fst (sample_addresses s) = seq 1 (length (sample_addresses s))
  /\ map snd (sample_addresses s) = head 10 (dropna (values s))
  /\ forall i v, In (i, v) (sample_addresses s) ->
       (1 <= i <= 10)%nat /\ v <> NaN
       /\ nth_error (dropna (values s)) (i - 1) = Some v.
Proof.
  unfold sample_addresses. cbv zeta.
  set (sample := head 10 (dropna (values s))).
  assert (length sample = Nat.min 10 (length (dropna (values s)))) as Hlen
      by apply head_length.
  assert (length (combine (seq 1 (length sample)) sample) = length sample)
    as Hc by (rewrite length_combine, length_seq; lia).
  split; [| split; [| split]].
  - rewrite Hc, Hlen. simpl total. now rewrite Nat2Z.id.
  - rewrite Hc. apply combine_fst. now rewrite length_seq.
  - apply combine_snd. now rewrite length_seq.
  - intros i v H. apply combine_seq_In in H. destruct H as [Hi Hn].
    split; [lia |].
    assert (In v sample) as Hv by (eapply nth_error_In; exact Hn).
    split.
    + apply head_In in Hv. apply dropna_In in Hv. tauto.
    + unfold sample, head in Hn. rewrite nth_error_firstn in Hn.
      destruct (i - 1 <? 10)%nat eqn:E; [exact Hn | discriminate].
Qed.

(** ** [analyze_data] *)

Lemma dict_set_new {V : Type} (key : string) (v : V) (d : dict V) :
  ~ In key (map fst d) -> dict_set key v d = (d ++ [(key, v)])%list.
Proof.
  induction d as [| [k old] d IH]; simpl; [reflexivity |].
  intros H. destruct (String.eqb_spec k key) as [-> | _]; [tauto |].
  rewrite IH by tauto. reflexivity.
Qed.

Lemma to_dict_from {V : Type} (items d : list (string * V)) :
  NoDup (map fst (d ++ items)) ->
  fold_left (fun d item => dict_set (fst item) (snd item) d) items d
  = (d ++ items)%list.
Proof.
  revert d. induction items as [| [k v] items IH]; intros d H; simpl.
  - now rewrite app_nil_r.
  - rewrite dict_set_new.
    + rewrite IH; rewrite <- app_assoc; [reflexivity | exact H].
    + rewrite map_app in H. simpl in H. apply NoDup_remove_2 in H.
      intros Hin. apply H. apply in_or_app. now left.
Qed.

(** With distinct labels the dictionary has the entries of the series. *)
Lemma to_dict_distinct {V : Type} (items : list (string * V)) :
  NoDup (map fst items) -> to_dict items = items.
Proof. intros H. unfold to_dict. now rewrite to_dict_from. Qed.

Lemma dict_get_In {V : Type} (d : dict V) (key : string) (v : V) :
  NoDup (map fst d) -> In (key, v) d -> dict_get d key = Some v.
Proof.
  induction d as [| [k x] d IH]; simpl; [tauto |].
  intros Hnd [H | H].
  - injection H as -> ->. now rewrite String.eqb_refl.
  - inversion Hnd as [| ? ? Hnot Hnd']; subst.
    destruct (String.eqb_spec k key) as [-> | _]; [| now apply IH].
    elim Hnot. apply in_map_iff. now exists (key, v).
Qed.

Lemma dict_get_absent {V : Type} (d : dict V) (key : string) :
  ~ In key (map fst d) -> dict_get d key = None.
Proof.
  induction d as [| [k x] d IH]; simpl; [reflexivity |].
  intros H. destruct (String.eqb_spec k key) as [-> | _]; [tauto |].
  apply IH. tauto.
Qed.

(** X12.  For a well-formed frame [analyze_data] gives the numbers of rows
    and columns, the labels in order, and two dictionaries with one entry
    for each label, in the order of the columns: looked up by a label of
    the frame they give the missing cells and the type of that column, and
    nothing for any other label.  The missing cells of all the entries add
    up to the missing count of the summary, which is at most rows times
    columns.  Without a frame there is no analysis. *)
Theorem analyze_data_by_label (df : DataFrame) :
  well_formed df ->
  exists a,
    analyze_data (Some df) = Some a
    /\ total_rows a = len df
    /\ total_columns a = length df
    /\ columns_list a = columns df
    /\ map fst (missing_values a) = columns df
    /\ map fst (data_types a) = columns df
    /\ (forall col s, In (col, s) df ->
          dict_get (missing_values a) col = Some (null_count (values s))
          /\ dict_get (data_types a) col = Some (dtype_of s))
    /\ (forall col, ~ In col (columns df) ->
          dict_get (missing_values a) col = None
          /\ dict_get (data_types a) col = None)
    /\ list_sum (map snd (missing_values a)) = missing_count df
    /\ (missing_count df <= total_rows a * total_columns a)%nat
    /\ analyze_data None = None.
Proof.
  intros [Hnd [Hlen _]]. eexists. split; [reflexivity |].
  cbn [total_rows total_columns columns_list missing_values data_types].
  assert (forall V (f : string * Series -> V),
             map fst (map (fun c => (fst c, f c)) df) = columns df) as Hkeys
      by (intros V f; now rewrite map_map).
  rewrite !to_dict_distinct by now rewrite Hkeys.
  split; [reflexivity |]. split; [unfold columns; now rewrite length_map |].
  split; [reflexivity |]. split; [apply Hkeys |]. split; [apply Hkeys |].
  split; [| split; [| split; [| split]]].
  - intros col s Hin. split; apply dict_get_In; try (now rewrite Hkeys);
      apply in_map_iff; now exists (col, s).
  - intros col Hout. split; apply dict_get_absent; now rewrite Hkeys.
  - now rewrite map_map.
  - replace (length df) with (length (columns df))
      by (unfold columns; apply length_map).
    now apply missing_count_le.
  - reflexivity.
Qed.

Lemma analyze_data_by_label_witness :
  exists a,
    analyze_data (Some cities) = Some a
    /\ dict_get (missing_values a) "ciudad" = Some 1%nat
    /\ dict_get (data_types a) "habitantes" = Some Int64
    /\ dict_get (missing_values a) "direccion" = None.
Proof.
  assert (well_formed cities) as Hwf
      by (split; [| split]; repeat constructor; simpl; intuition discriminate).
  destruct (analyze_data_by_label cities Hwf)
    as [a [E [_ [_ [_ [_ [_ [Hin [Hout _]]]]]]]]].
  exists a. split; [exact E |]. split; [| split].
  - apply (Hin "ciudad" cities_ciudad). now left.
  - apply (Hin "habitantes"
               (mkSeries Int64 [Int 10; Int 20; Int 30; Int 40; Int 50;
                                Int 60; Int 70])).
    right. now left.
  - apply Hout. simpl. intuition discriminate.
Defined.

(** ** Search terms that are not regular expressions *)

Lemma parse_plain_then (a : string) (prev : Re.previous) (top : Re.frame) :
  plain a = true -> prev <> Re.PBackslash ->
  exists prev' top',
    prev' <> Re.PBackslash
    /\ forall stack rest,
         Re.parse prev top stack (a ++ rest) = Re.parse prev' top' stack rest.
Proof.
  revert prev top. induction a as [| c a IH]; intros prev top Hp Hprev.
  - now exists prev, top.
  - simpl in Hp. apply andb_true_iff in Hp. destruct Hp as [Hc Hp].
    apply negb_true_iff in Hc.
    destruct (IH Re.POther (Re.push_item (Re.Lit c) top) Hp)
      as [prev' [top' [Hn H]]]; [discriminate |].
    exists prev', top'. split; [exact Hn |]. intros stack rest.
    cbn [append]. rewrite parse_literal by assumption. apply H.
Qed.

Lemma parse_unclosed (prev : Re.previous) (top outer : Re.frame)
      (stack : list Re.frame) :
  prev <> Re.PBackslash ->
  Re.parse prev top (outer :: stack) EmptyString = Re.Error.
Proof. intros H. destruct prev; [reflexivity .. | now elim H]. Qed.

Lemma parse_open (prev : Re.previous) (top : Re.frame)
      (stack : list Re.frame) (rest : string) :
  prev <> Re.PBackslash ->
  Re.parse prev top stack (String "(" rest)
  = Re.parse Re.POpen Re.new_frame (top :: stack) rest.
Proof. intros H. destruct prev; [reflexivity .. | now elim H]. Qed.

Lemma parse_lone_backslash (prev : Re.previous) (top : Re.frame)
      (stack : list Re.frame) :
  prev <> Re.PBackslash ->
  Re.parse prev top stack (String Re.backslash EmptyString) = Re.Error.
Proof. intros H. destruct prev; [reflexivity .. | now elim H]. Qed.

Lemma bad_term_compile (term : string) :
  BadTerm term -> term <> EmptyString /\ Re.compile term = Re.Error.
Proof.
  unfold Re.compile. intros [H | [[a [b [Ha [Hb ->]]]] | [a [Ha ->]]]].
  - destruct term as [| c rest]; [discriminate |]. split; [discriminate |].
    unfold starts_badly, Re.one_of in H. simpl in H.
    repeat (apply orb_prop in H; destruct H as [H | H]);
      try discriminate; apply Ascii.eqb_eq in H; subst c; reflexivity.
  - split; [destruct a; discriminate |].
    destruct (parse_plain_then a Re.POther Re.new_frame Ha)
      as [prev' [top' [Hn H]]]; [discriminate |].
    rewrite H, parse_open by exact Hn.
    destruct (parse_plain_then b Re.POpen Re.new_frame Hb)
      as [prev'' [top'' [Hn' H']]]; [discriminate |].
    rewrite <- (string_app_nil_r b), H'. now apply parse_unclosed.
  - split; [destruct a; discriminate |].
    destruct (parse_plain_then a Re.POther Re.new_frame Ha)
      as [prev' [top' [Hn H]]]; [discriminate |].
    rewrite H. now apply parse_lone_backslash.
Qed.

(** X13.  On a frame with distinct labels and at least one text column the
    search raises [re.error] for every term that starts with [*], [+], [?]
    or a closing parenthesis, for every text with one opening parenthesis
    and no other special character, and for every text without special
    characters that is followed by one backslash. *)
Theorem bad_terms_raise (display_df : DataFrame) (term : string) :
  NoDup (columns display_df) ->
  select_dtypes_object display_df <> [] ->
  BadTerm term ->
  search_rows display_df term = Raises ReError.
Proof.
  intros _ Htext Hbad. destruct (bad_term_compile term Hbad) as [Hne Hc].
  now apply search_with_bad_pattern.
Qed.

Lemma bad_terms_raise_witness :
  search_rows address_and_gap "Calle (Mayor" = Raises ReError
  /\ search_rows address_and_gap "*" = Raises ReError
  /\ search_rows address_and_gap ("C:" ++ String Re.backslash EmptyString)
     = Raises ReError.
Proof.
  assert (NoDup (columns address_and_gap)) as Hnd
      by (repeat constructor; simpl; tauto).
  assert (select_dtypes_object address_and_gap <> []) as Htext
      by discriminate.
  split; [| split]; apply (bad_terms_raise address_and_gap _ Hnd Htext).
  - right. left. exists "Calle ", "Mayor". repeat split; reflexivity.
  - left. reflexivity.
  - right. right. exists "C:". split; reflexivity.
Defined.

(** ** The case of the search term *)

Lemma search_mask_plain_case (t t' : string) (cols : DataFrame) (m : mask) :
  plain t = true -> plain t' = true -> Text.lower t = Text.lower t' ->
  search_mask t cols m = search_mask t' cols m.
Proof.
  intros Hp Hp' Hl. revert m.
  induction cols as [| [name s] cols IH]; intros m; [reflexivity |].
  rewrite !search_mask_cons, !str_contains_plain by assumption.
  rewrite Hl. cbn [bind]. apply IH.
Qed.

(** X14.  Two terms without special characters that differ only in the
    case of their letters give the same search, on every frame: the same
    rows, or the same error. *)
Theorem search_ignores_term_case (display_df : DataFrame) (t t' : string) :
  plain t = true -> plain t' = true -> Text.lower t = Text.lower t' ->
  search_rows display_df t = search_rows display_df t'.
Proof.
  intros Hp Hp' Hl. rewrite !search_rows_eq.
  rewrite (search_mask_plain_case t t' _ _ Hp Hp' Hl).
  destruct t, t'; try discriminate; reflexivity.
Qed.

Lemma search_ignores_term_case_witness :
  search_rows (two_addresses "direccion") "MAYOR"
  = search_rows (two_addresses "direccion") "mayor"
  /\ search_rows (two_addresses "direccion") "mayor"
     = Ok (first_address "direccion").
Proof.
  split; [| reflexivity].
  apply (search_ignores_term_case (two_addresses "direccion")
                                  "MAYOR" "mayor"); reflexivity.
Defined.

(** ** A frequency table that leaves nothing out *)

(** X15.  For a column of a well-formed frame with at most twenty distinct
    values the frequency table lists every distinct value once; the
    frequencies add up to the cells that are not missing, and together
    with the missing cells to the rows of the frame; and the table is empty
    exactly when every cell of the column is missing. *)
Theorem freq_table_complete
        (df : DataFrame) (col : string) (s : Series) :
  well_formed df -> In (col, s) df -> (nunique s <= 20)%nat ->
  exists rows,
    freq_table df col = Ok rows
    /\ length rows = nunique s
    /\ Permutation (map value rows) (unique scalar_eqb (dropna (values s)))
    /\ list_sum (map frecuencia rows) = length (dropna (values s))
    /\ (list_sum (map frecuencia rows) + null_count (values s) = len df)%nat
    /\ (rows = [] <-> Forall (fun x => x = NaN) (values s)).
Proof.
  intros [Hnd [Hlen _]] Hin Hfew. unfold freq_table.
  rewrite (get_column_In df col s Hnd Hin). cbn [bind]. eexists.
  split; [reflexivity |].
  rewrite Forall_forall in Hlen. specialize (Hlen _ Hin). simpl in Hlen.
  pose proof (freq_table_counted (len df) s) as Hc.
  assert (head 20 (value_counts s) = value_counts s) as Hall.
  { unfold head. apply firstn_all2. unfold value_counts.
    rewrite value_counts_length. exact Hfew. }
  rewrite Hall in Hc.
  set (rows := freq_table_of (len df) s) in *.
  assert (map value rows = map fst (value_counts s)) as Hv
      by (rewrite <- Hc, map_map; reflexivity).
  assert (map frecuencia rows = map snd (value_counts s)) as Hf
      by (rewrite <- Hc, map_map; reflexivity).
  assert (length rows = nunique s) as Hn.
  { rewrite <- (length_map counted), Hc. unfold value_counts.
    apply value_counts_length. }
  assert (list_sum (map frecuencia rows) = length (dropna (values s))) as Hs.
  { rewrite Hf. unfold value_counts.
    apply (value_counts_total _ scalar_eqb_eq). }
  split; [exact Hn |]. split.
  { rewrite Hv. unfold value_counts. apply value_counts_keys. }
  split; [exact Hs |]. split.
  { rewrite Hs. pose proof (null_and_valid (values s)). lia. }
  rewrite <- dropna_none. split.
  - intros E. rewrite E in Hs. simpl in Hs.
    destruct (dropna (values s)); [reflexivity | discriminate].
  - intros E. unfold nunique in Hn. rewrite E in Hn. simpl in Hn.
    destruct rows; [reflexivity | discriminate].
Qed.

Lemma freq_table_complete_witness :
  exists rows,
    freq_table cities "ciudad" = Ok rows
    /\ length rows = 3%nat
    /\ list_sum (map frecuencia rows) = 6%nat.
Proof.
  assert (well_formed cities) as Hwf
      by (split; [| split]; repeat constructor; simpl; intuition discriminate).
  assert (nunique cities_ciudad <= 20)%nat as Hfew
      by (apply Nat.leb_le; reflexivity).
  destruct (freq_table_complete cities "ciudad" cities_ciudad Hwf
              (or_introl eq_refl) Hfew)
    as [rows [E [Hn [_ [Hs _]]]]].
  exists rows. split; [exact E |]. split; [exact Hn | exact Hs].
Defined.

(** ** The figures of the summary *)

Lemma uint_digits (d : Decimal.uint) :
  Forall (fun c => is_digit c = true) (chars (NilEmpty.string_of_uint d)).
Proof. induction d; simpl; constructor; auto. Qed.

Lemma str_digits (n : nat) :
  Forall (fun c => is_digit c = true) (chars (Text.str_of_Z (Z.of_nat n))).
Proof.
  unfold Text.str_of_Z. destruct (Z.of_nat n) as [| p | p] eqn:E; [| | lia].
  - repeat constructor.
  - simpl. unfold NilZero.string_of_uint.
    destruct (Pos.to_uint p) eqn:Ep; try (rewrite <- Ep; apply uint_digits).
    repeat constructor.
Qed.

Lemma digit_not_comma (c : ascii) : is_digit c = true -> not_comma c = true.
Proof.
  unfold is_digit, not_comma. intros H.
  destruct (Ascii.eqb_spec c ","); [subst; discriminate | reflexivity].
Qed.

(** Induction on a list three elements at a time. *)
Lemma by_threes {A : Type} (P : list A -> Prop) :
  P [] -> (forall a, P [a]) -> (forall a b, P [a; b]) ->
  (forall a b c, P [a; b; c]) ->
  (forall a b c d more, P (d :: more) -> P (a :: b :: c :: d :: more)) ->
  forall l, P l.
Proof.
  intros H0 H1 H2 H3 Hstep l.
  assert (forall n l, (length l <= n)%nat -> P l) as H.
  { clear l. induction n as [| n IH]; intros l Hn.
    - destruct l; [exact H0 | simpl in Hn; lia].
    - destruct l as [| a [| b [| c [| d more]]]]; auto.
      apply Hstep, IH. simpl in Hn |- *. lia. }
  now apply (H (length l)).
Qed.

Lemma group_thousands_step (a b c d : ascii) (more : list ascii) :
  group_thousands (a :: b :: c :: d :: more)
  = a :: b :: c :: ","%char :: group_thousands (d :: more).
Proof. reflexivity. Qed.

Lemma filter_digit (c : ascii) (l : list ascii) :
  is_digit c = true -> filter not_comma (c :: l) = c :: filter not_comma l.
Proof. intros H. simpl. now rewrite digit_not_comma. Qed.

Ltac split_digits :=
  repeat match goal with
    | H : Forall _ (_ :: _) |- _ =>
        let Hx := fresh "Hx" in
        let Hr := fresh "Hr" in
        inversion H as [| ? ? Hx Hr]; subst; clear H
    end.

Lemma group_thousands_strip (l : list ascii) :
  Forall (fun c => is_digit c = true) l ->
  filter not_comma (group_thousands l) = l.
Proof.
  induction l as [| a | a b | a b c | a b c d more IH] using by_threes;
    intros Hd.
  5: { rewrite group_thousands_step.
       inversion Hd as [| ? ? Ha H1]; subst.
       inversion H1 as [| ? ? Hb H2]; subst.
       inversion H2 as [| ? ? Hc H3]; subst.
       rewrite !filter_digit by assumption.
       change (filter not_comma (","%char :: ?l)) with (filter not_comma l).
       now rewrite IH. }
  all: cbn [group_thousands]; split_digits;
    rewrite ?filter_digit by assumption; reflexivity.
Qed.

Lemma group_thousands_length (l : list ascii) :
  length (group_thousands l) = (length l + (length l - 1) / 3)%nat.
Proof.
  induction l as [| a | a b | a b c | a b c d more IH] using by_threes;
    try reflexivity.
  rewrite group_thousands_step. cbn [length] in *. rewrite IH.
  replace (S (S (S (S (length more)))) - 1)%nat
    with ((S (length more) - 1) + 1 * 3)%nat by lia.
  rewrite Nat.div_add by lia. lia.
Qed.

Lemma group_thousands_commas (l : list ascii) (i : nat) :
  Forall (fun c => is_digit c = true) l ->
  (i < length (group_thousands l))%nat ->
  (nth i (group_thousands l) "0"%char = ","%char <-> i mod 4 = 3)%nat.
Proof.
  revert i.
  induction l as [| a | a b | a b c | a b c d more IH] using by_threes;
    intros i Hd Hi.
  5: { rewrite group_thousands_step in *.
       inversion Hd as [| ? ? Ha H1]; subst.
       inversion H1 as [| ? ? Hb H2]; subst.
       inversion H2 as [| ? ? Hc H3]; subst.
       destruct i as [| [| [| [| i]]]]; cbn [nth].
       5: { cbn [length] in Hi. rewrite IH by (auto; lia).
            replace (S (S (S (S i)))) with (i + 1 * 4)%nat by lia.
            now rewrite Nat.Div0.mod_add. }
       4: split; reflexivity.
       all: split; [intros -> | ]; discriminate. }
  all: cbn [group_thousands length] in *; try lia;
    repeat (destruct i as [| i]; [| try lia]);
    split_digits; cbn [nth]; (split; [intros -> |]; discriminate).
Qed.

Lemma format_thousands_figure (n : nat) : Figure (format_thousands n) n.
Proof.
  pose proof (str_digits n) as Hd.
  assert (Forall (fun c => is_digit c = true)
                 (rev (chars (Text.str_of_Z (Z.of_nat n))))) as Hr.
  { apply Forall_forall. intros c Hc. apply in_rev in Hc.
    rewrite Forall_forall in Hd. now apply Hd. }
  assert (filter not_comma (chars (format_thousands n))
          = chars (Text.str_of_Z (Z.of_nat n))) as Hstrip.
  { unfold format_thousands, chars.
    rewrite list_ascii_of_string_of_list_ascii, filter_rev.
    unfold chars in Hr. rewrite group_thousands_strip by exact Hr.
    apply rev_involutive. }
  split; [exact Hstrip |]. split; [| split].
  - unfold read_thousands. fold (chars (format_thousands n)).
    rewrite Hstrip. unfold chars. rewrite string_of_list_ascii_of_string.
    unfold Text.str_of_Z. rewrite NilZero.isi.
    + simpl. now rewrite DecimalZ.of_to.
    + destruct (Z.of_nat n); simpl; try discriminate.
      intros E. injection E. apply Unsigned.to_uint_nonnil.
    + destruct (Z.of_nat n) eqn:E; simpl; try discriminate. lia.
  - cbv zeta. unfold format_thousands, chars.
    rewrite list_ascii_of_string_of_list_ascii, length_rev,
      group_thousands_length.
    now rewrite length_rev.
  - intros i Hi. unfold format_thousands, chars in *.
    rewrite list_ascii_of_string_of_list_ascii in *. rewrite rev_involutive.
    rewrite length_rev in Hi. now apply group_thousands_commas.
Qed.

(** X16.  The figures at the top of the summary raise nothing, whatever
    the frame.  The rows, and on a frame with a column the missing cells,
    are shown with thousands separators: without the commas each figure is
    the decimal numeral of its count and reads back as the count, and the
    commas stand before every group of three digits counted from the
    right, and nowhere else.  On a frame without columns the missing cells
    are shown as [0.0].  The number of columns is shown as it is, and the
    completeness is left out exactly when the frame has no rows. *)
Theorem summary_figures (df : DataFrame) :
  exists m,
    summary_metrics df = Ok m
    /\ Figure (total_de_registros m) (len df)
    /\ columnas m = length (columns df)
    /\ (columns df <> [] -> Figure (datos_faltantes m) (missing_count df))
    /\ (columns df = [] ->
        datos_faltantes m = "0.0" /\ total_de_registros m = "0"
        /\ columnas m = 0%nat /\ completitud m = None)
    /\ (completitud m = None <-> len df = 0%nat).
Proof.
  unfold summary_metrics, completeness_metric.
  assert (columns df <> [] ->
          Figure (format_missing df) (missing_count df)) as Hcols.
  { destruct df as [| c df]; [intros H; now elim H |]. intros _.
    apply format_thousands_figure. }
  assert (columns df = [] -> df = []) as Hnone
      by (destruct df; [reflexivity | discriminate]).
  destruct (Nat.eq_dec (len df) 0) as [E0 | N0].
  - rewrite (completeness_without_rows df E0). cbn [bind option_map].
    eexists. split; [reflexivity |].
    cbn [total_de_registros columnas datos_faltantes completitud].
    split; [apply format_thousands_figure |]. split; [reflexivity |].
    split; [exact Hcols |].
    split; [intros E; rewrite (Hnone E); repeat split |]. tauto.
  - rewrite (completeness_with_rows df) by lia. cbn [bind option_map].
    eexists. split; [reflexivity |].
    cbn [total_de_registros columnas datos_faltantes completitud].
    split; [apply format_thousands_figure |]. split; [reflexivity |].
    split; [exact Hcols |].
    split; [intros E; rewrite (Hnone E) in N0; now elim N0 |].
    split; [discriminate | intros E; now elim N0].
Qed.

(** The figures of a frame of 1234 rows, and of the empty sheet. *)
Lemma summary_figures_witness :
  (exists m,
      summary_metrics many_rows = Ok m
      /\ total_de_registros m = "1,234"
      /\ datos_faltantes m = "1,234"
      /\ Figure (datos_faltantes m) 1234)
  /\ (exists m,
         summary_metrics [] = Ok m
         /\ datos_faltantes m = "0.0" /\ completitud m = None).
Proof.
  split.
  - destruct (summary_figures many_rows) as [m [E [_ [_ [Hm _]]]]].
    exists m. split; [exact E |].
    assert (summary_metrics many_rows
            = Ok {| total_de_registros := "1,234"; columnas := 1;
                    datos_faltantes := "1,234";
                    completitud := Some "0.0%" |}) as E'
        by (vm_compute; reflexivity).
    rewrite E in E'. injection E' as ->.
    split; [reflexivity |]. split; [reflexivity |].
    apply Hm. discriminate.
  - destruct (summary_figures []) as [m [E [_ [_ [_ [Hnone _]]]]]].
    exists m. split; [exact E |].
    destruct (Hnone eq_refl) as [H1 [_ [_ H4]]]. now split.
Defined.

(** ** The name of the exported file *)

Lemma all_from_spec (ok : Z -> bool) (count : nat) (start z : Z) :
  all_from ok start count = true ->
  (start <= z < start + Z.of_nat count)%Z -> ok z = true.
Proof.
  revert start. induction count as [| k IH]; intros start H Hz; [lia |].
  simpl in H. apply andb_true_iff in H. destruct H as [H0 H].
  destruct (Z.eq_dec z start) as [-> | Hne]; [exact H0 |].
  apply (IH (start + 1)%Z H). lia.
Qed.

Lemma two_digits_shape (n : Z) :
  (0 <= n < 100)%Z ->
  exists a b, two_digits n = String a (String b EmptyString)
              /\ read_Z (String a (String b EmptyString)) = Some n.
Proof.
  intros Hn.
  assert (all_from two_digits_ok 0 (Z.to_nat 100) = true) as H
      by (vm_compute; reflexivity).
  assert (two_digits_ok n = true) as Hok
      by (apply (all_from_spec _ _ _ n H); rewrite Z2Nat.id; lia).
  clear H.
  unfold two_digits_ok, reads_as in Hok.
  destruct (two_digits n) as [| a [| b [| ? ?]]]; try discriminate.
  exists a, b. split; [reflexivity |].
  destruct (read_Z (String a (String b EmptyString))) as [m |];
    [| discriminate].
  apply Z.eqb_eq in Hok. now subst.
Qed.

Lemma four_digits_shape (n : Z) :
  (1000 <= n <= 9999)%Z ->
  exists a b c d,
    Text.str_of_Z n = String a (String b (String c (String d EmptyString)))
    /\ read_Z (String a (String b (String c (String d EmptyString))))
       = Some n.
Proof.
  intros Hn.
  assert (all_from four_digits_ok 1000 (Z.to_nat 9000) = true) as H
      by (vm_compute; reflexivity).
  assert (four_digits_ok n = true) as Hok
      by (apply (all_from_spec _ _ _ n H); rewrite Z2Nat.id; lia).
  clear H.
  unfold four_digits_ok, reads_as in Hok.
  destruct (Text.str_of_Z n) as [| a [| b [| c [| d [| ? ?]]]]];
    try discriminate.
  exists a, b, c, d. split; [reflexivity |].
  destruct (read_Z _) as [m |]; [| discriminate].
  apply Z.eqb_eq in Hok. now subst.
Qed.

Lemma in_range_fields (t : datetime) :
  in_range t = true ->
  (1000 <= year t <= 9999 /\ 0 <= month t < 100 /\ 0 <= day t < 100
   /\ 0 <= hour t < 100 /\ 0 <= minute t < 100 /\ 0 <= second t < 100)%Z.
Proof.
  unfold in_range. rewrite !andb_true_iff, !Z.leb_le, !Z.ltb_lt. lia.
Qed.

Lemma file_name_read_back (t : datetime) :
  in_range t = true ->
  read_file_name (file_name t) = Some (to_the_second t)
  /\ String.length (file_name t) = 35%nat
  /\ substring 0 16 (file_name t) = "datos_filtrados_"
  /\ substring 31 4 (file_name t) = ".csv".
Proof.
  intros H. apply in_range_fields in H.
  destruct H as [Hy [Hm [Hd [HH [HM HS]]]]].
  destruct (four_digits_shape _ Hy) as [y1 [y2 [y3 [y4 [Ey Ry]]]]].
  destruct (two_digits_shape _ Hm) as [m1 [m2 [Em Rm]]].
  destruct (two_digits_shape _ Hd) as [d1 [d2 [Ed Rd]]].
  destruct (two_digits_shape _ HH) as [H1 [H2 [EH RH]]].
  destruct (two_digits_shape _ HM) as [M1 [M2 [EM RM]]].
  destruct (two_digits_shape _ HS) as [S1 [S2 [ES RS]]].
  unfold file_name, strftime, to_the_second.
  rewrite Ey, Em, Ed, EH, EM, ES. cbn [append].
  split; [| repeat split].
  unfold read_file_name. cbn [substring].
  now rewrite Ry, Rm, Rd, RH, RM, RS.
Qed.

(** X17.  For a moment whose fields are in range the name of the exported
    file has 35 characters, begins with [datos_filtrados_] and ends with
    [.csv], and the moment can be read back from it to the second.  Hence
    two exports get the same name exactly when they are made within the
    same second: a later export in that second gets the name of the
    earlier one, and exports of different seconds never share a name. *)
Theorem download_name_tells_the_second (t t' : datetime) :
  in_range t = true -> in_range t' = true ->
  read_file_name (file_name t) = Some (to_the_second t)
  /\ (file_name t = file_name t' <-> to_the_second t = to_the_second t')
  /\ String.length (file_name t) = 35%nat
  /\ substring 0 16 (file_name t) = "datos_filtrados_"
  /\ substring 31 4 (file_name t) = ".csv".
Proof.
  intros Ht Ht'.
  destruct (file_name_read_back t Ht) as [Hr [Hl [Hp Hs]]].
  destruct (file_name_read_back t' Ht') as [Hr' _].
  split; [exact Hr |]. split; [| now repeat split].
  split.
  - intros E. rewrite E in Hr. congruence.
  - intros E. unfold file_name, strftime. unfold to_the_second in E.
    injection E as -> -> -> -> -> ->. reflexivity.
Qed.

Lemma download_name_tells_the_second_witness :
  file_name a_morning = "datos_filtrados_20240307_090500.csv"
  /\ file_name a_morning = file_name same_second_later
  /\ a_morning <> same_second_later.
Proof.
  split; [reflexivity |]. split; [| discriminate].
  apply (download_name_tells_the_second a_morning same_second_later);
    reflexivity.
Defined.
